(** * Color-Wheel: the colour-science core, embedded and verified

    The TypeScript sources under [src/utils], [src/lib] and [src/hooks] are
    embedded function by function.  A JavaScript [number] is read as an exact
    rational ([Q]): the functions that only use field operations, comparisons,
    [%], [Math.abs], [Math.min], [Math.max], [Math.floor] and [Math.round] are
    then ordinary executable definitions.  IEEE rounding error is outside the
    model; the special values [NaN] and [Infinity] are modelled where the code
    tests for them ([JsNum]).  The geometry calls [Math.sqrt], [Math.atan2],
    [Math.sin], [Math.cos] and [Math.pow]; it is embedded over any
    implementation of them ([MathLib]).  The sRGB transfer functions need the
    values of [Math.pow], so they are embedded over the reals, with the real
    power function.

    The first part of the file is the embedding, in the order of the source
    files; the second part proves the specification's claims about it. *)

From Stdlib Require Import ZArith QArith Qabs Qminmax Qround.
From Stdlib Require Import List String Ascii Bool.
From Stdlib Require DecimalString HexadecimalString.
From Stdlib Require Import Reals.
From Stdlib Require Import Lia Psatz.
From Stdlib Require Import Setoid Morphisms.
Import ListNotations.

Local Open Scope Q_scope.

(** ** JavaScript arithmetic on exact rationals *)

(** [a < b] as a boolean, next to the library's [Qle_bool] and [Qeq_bool]. *)
Definition Qlt_bool (a b : Q) : bool := negb (Qle_bool b a).

Declare Scope js_scope.
Delimit Scope js_scope with js.
Infix "<=?" := Qle_bool (at level 70, no associativity) : js_scope.
Infix "<?" := Qlt_bool (at level 70, no associativity) : js_scope.
Infix "=?" := Qeq_bool (at level 70, no associativity) : js_scope.
Local Open Scope js_scope.

(** Truncation toward zero, the integer quotient behind JavaScript's [%]. *)
Definition Qtrunc (q : Q) : Z := Z.quot (Qnum q) (Zpos (Qden q)).

(** [a % n]: the remainder takes the sign of the dividend.  The source only
    divides by the literals 360, 6 and 2. *)
Definition js_rem (a n : Q) : Q := a - n * inject_Z (Qtrunc (a / n)).

(** [Math.round]: nearest integer, ties toward plus infinity. *)
Definition js_round (x : Q) : Z := Qfloor (x + (1 # 2)).

(** colorMath.ts *)

Definition clamp01 (v : Q) : Q := Qmin 1 (Qmax 0 v).

Definition degNorm (d : Q) : Q := js_rem (js_rem d 360 + 360) 360.

Definition lerp (a b t : Q) : Q := a + (b - a) * t.

(** ** Colour records (types.ts) *)

(** Every RGB value the program builds has integer channels: canvas bytes,
    or the result of [Math.round]. *)
Record RGB : Set := mkRGB { rgb_r : Z; rgb_g : Z; rgb_b : Z }.

Record HSL : Set := mkHSL { hsl_h : Q; hsl_s : Q; hsl_l : Q }.
Record HSV : Set := mkHSV { hsv_h : Q; hsv_s : Q; hsv_v : Q }.
Record HWB : Set := mkHWB { hwb_h : Q; hwb_w : Q; hwb_b : Q }.
Record CMYK : Set := mkCMYK { cmyk_c : Q; cmyk_m : Q; cmyk_y : Q; cmyk_k : Q }.

(** ** colorConversions.ts: HSL, HSV, HWB, CMYK *)

(** [Math.min(255, Math.max(0, n))] on an already rounded channel. *)
Definition clamp255 (n : Z) : Z := Z.min 255 (Z.max 0 n).

Definition hslToRgb (h s l : Q) : RGB :=
  let C := (1 - Qabs (2 * l - 1)) * s in
  let hh := js_rem h 360 / 60 in
  let X := C * (1 - Qabs (js_rem hh 2 - 1)) in
  let '(r1, g1, b1) :=
    if (0 <=? hh) && (hh <? 1) then (C, X, 0)
    else if (1 <=? hh) && (hh <? 2) then (X, C, 0)
    else if (2 <=? hh) && (hh <? 3) then (0, C, X)
    else if (3 <=? hh) && (hh <? 4) then (0, X, C)
    else if (4 <=? hh) && (hh <? 5) then (X, 0, C)
    else (C, 0, X) in
  let m := l - C / 2 in
  let r := js_round ((r1 + m) * 255) in
  let g := js_round ((g1 + m) * 255) in
  let b := js_round ((b1 + m) * 255) in
  mkRGB (clamp255 r) (clamp255 g) (clamp255 b).

Definition rgbToHsl (r g b : Q) : HSL :=
  let r := r / 255 in
  let g := g / 255 in
  let b := b / 255 in
  let max := Qmax (Qmax r g) b in
  let min := Qmin (Qmin r g) b in
  let d := max - min in
  let h :=
    if negb (d =? 0) then
      let h :=
        if max =? r then js_rem ((g - b) / d) 6
        else if max =? g then (b - r) / d + 2
        else (r - g) / d + 4 in
      let h := h * 60 in
      if h <? 0 then h + 360 else h
    else 0 in
  let l := (max + min) / 2 in
  let s := if d =? 0 then 0 else d / (1 - Qabs (2 * l - 1)) in
  mkHSL h s l.

Definition rgbToHsv (r g b : Q) : HSV :=
  let r := r / 255 in
  let g := g / 255 in
  let b := b / 255 in
  let max := Qmax (Qmax r g) b in
  let min := Qmin (Qmin r g) b in
  let d := max - min in
  let h :=
    if negb (d =? 0) then
      let h :=
        if max =? r then js_rem ((g - b) / d) 6
        else if max =? g then (b - r) / d + 2
        else (r - g) / d + 4 in
      let h := h * 60 in
      if h <? 0 then h + 360 else h
    else 0 in
  let v := max in
  let s := if max =? 0 then 0 else d / max in
  mkHSV h s v.

Definition rgbToHwb (r g b : Q) : HWB :=
  let rr := r / 255 in
  let gg := g / 255 in
  let bb := b / 255 in
  let max := Qmax (Qmax rr gg) bb in
  let min := Qmin (Qmin rr gg) bb in
  let hsv := rgbToHsv r g b in
  let w := min in
  let bl := 1 - max in
  mkHWB (hsv_h hsv) w bl.

Definition rgbToCmyk (r g b : Q) : CMYK :=
  let rr := r / 255 in
  let gg := g / 255 in
  let bb := b / 255 in
  let k := 1 - Qmax (Qmax rr gg) bb in
  if 1 - 1e-12 <=? k then mkCMYK 0 0 0 1
  else
    let c := (1 - rr - k) / (1 - k) in
    let m := (1 - gg - k) / (1 - k) in
    let y := (1 - bb - k) / (1 - k) in
    mkCMYK (clamp01 c) (clamp01 m) (clamp01 y) (clamp01 k).

(** Modelled from the spec: the HSV to RGB direction.  The library under
    [src/utils/colorConversions.ts] only has [rgbToHsv]; the specification
    lists the conversion as bidirectional and tests the round trip, and names
    the standard chroma / hue-prime construction, which is written here in the
    shape of [hslToRgb] with chroma [v * s] and offset [v - C]. *)
Definition hsvToRgb (h s v : Q) : RGB :=
  let C := v * s in
  let hh := js_rem h 360 / 60 in
  let X := C * (1 - Qabs (js_rem hh 2 - 1)) in
  let '(r1, g1, b1) :=
    if (0 <=? hh) && (hh <? 1) then (C, X, 0)
    else if (1 <=? hh) && (hh <? 2) then (X, C, 0)
    else if (2 <=? hh) && (hh <? 3) then (0, C, X)
    else if (3 <=? hh) && (hh <? 4) then (0, X, C)
    else if (4 <=? hh) && (hh <? 5) then (X, 0, C)
    else (C, 0, X) in
  let m := v - C in
  let r := js_round ((r1 + m) * 255) in
  let g := js_round ((g1 + m) * 255) in
  let b := js_round ((b1 + m) * 255) in
  mkRGB (clamp255 r) (clamp255 g) (clamp255 b).

(** ** harmonies.ts *)

Inductive HarmonyType : Set :=
  | Complementary | SplitComplementary | Analogous | Triadic | Tetradic.

Record HarmonyAngle : Set := mkHarmonyAngle { ha_label : string; ha_a : Q }.

Definition harmonyAngles (theta : Q) (type : HarmonyType) : list HarmonyAngle :=
  let t := degNorm theta in
  match type with
  | Complementary =>
      [ mkHarmonyAngle "Base" t;
        mkHarmonyAngle "Comp" (degNorm (t + 180)) ]
  | SplitComplementary =>
      [ mkHarmonyAngle "Base" t;
        mkHarmonyAngle "Split-1" (degNorm (t + 180 - 30));
        mkHarmonyAngle "Split-2" (degNorm (t + 180 + 30)) ]
  | Analogous =>
      [ mkHarmonyAngle "Ana-1" (degNorm (t - 30));
        mkHarmonyAngle "Base" t;
        mkHarmonyAngle "Ana-2" (degNorm (t + 30)) ]
  | Triadic =>
      [ mkHarmonyAngle "Tri-1" t;
        mkHarmonyAngle "Tri-2" (degNorm (t + 120));
        mkHarmonyAngle "Tri-3" (degNorm (t + 240)) ]
  | Tetradic =>
      [ mkHarmonyAngle "Tet-1" t;
        mkHarmonyAngle "Tet-2" (degNorm (t + 60));
        mkHarmonyAngle "Tet-3" (degNorm (t + 180));
        mkHarmonyAngle "Tet-4" (degNorm (t + 240)) ]
  end.

Definition HARMONY_TYPES : list HarmonyType :=
  [Complementary; SplitComplementary; Analogous; Triadic; Tetradic].

(** ** artistDescriptors.ts *)

Definition HUE_NAMES : list string :=
  [ "Red"; "Red-Orange"; "Orange"; "Yellow-Orange"; "Yellow"; "Yellow-Green";
    "Green"; "Blue-Green"; "Cyan"; "Blue-Cyan"; "Blue"; "Blue-Violet";
    "Violet"; "Red-Violet"; "Magenta"; "Rose" ]%string.

Definition hueName (theta : Q) : string :=
  let t := degNorm theta in
  let idx := Z.rem (Qfloor ((t + 11.25) / 22.5)) 16 in
  nth (Z.to_nat idx) HUE_NAMES ""%string.

Inductive Temperature : Set := Warm | Cool | Neutral.

Definition temperatureLabel (theta : Q) : Temperature :=
  let t := degNorm theta in
  let warm := ((315 <=? t) || (t <? 120)) && negb ((75 <=? t) && (t <? 105)) in
  let cool := (150 <=? t) && (t <? 285) in
  if warm then Warm else if cool then Cool else Neutral.

(** ** Numbers that may be [NaN] or infinite

    The chromaticity functions return [NaN] fields and [cctMcCamyFromXy] tests
    [Number.isFinite]; for these a number is a rational, an infinity or [NaN].
    Finite arithmetic stays exact; the special values follow IEEE 754, with a
    zero divisor read as [+0] (the only zero a difference [a - a] produces). *)

Inductive JsNum : Set :=
  | JFin (q : Q)
  | JInf (negative : bool)
  | JNaN.

Definition isFinite (x : JsNum) : bool :=
  match x with JFin _ => true | _ => false end.

Definition isNaN (x : JsNum) : bool :=
  match x with JNaN => true | _ => false end.

Definition jneg (x : JsNum) : JsNum :=
  match x with
  | JFin q => JFin (- q)
  | JInf s => JInf (negb s)
  | JNaN => JNaN
  end.

Definition jadd (x y : JsNum) : JsNum :=
  match x, y with
  | JNaN, _ | _, JNaN => JNaN
  | JFin a, JFin b => JFin (a + b)
  | JInf s, JFin _ | JFin _, JInf s => JInf s
  | JInf s, JInf s' => if Bool.eqb s s' then JInf s else JNaN
  end.

Definition jsub (x y : JsNum) : JsNum := jadd x (jneg y).

Definition jmul (x y : JsNum) : JsNum :=
  match x, y with
  | JNaN, _ | _, JNaN => JNaN
  | JFin a, JFin b => JFin (a * b)
  | JInf s, JFin a | JFin a, JInf s =>
      if a =? 0 then JNaN else JInf (xorb s (a <? 0))
  | JInf s, JInf s' => JInf (xorb s s')
  end.

Definition jdiv (x y : JsNum) : JsNum :=
  match x, y with
  | JNaN, _ | _, JNaN => JNaN
  | JFin a, JFin b =>
      if b =? 0 then (if a =? 0 then JNaN else JInf (a <? 0))
      else JFin (a / b)
  | JFin _, JInf _ => JFin 0
  | JInf s, JFin b => JInf (xorb s (b <? 0))
  | JInf _, JInf _ => JNaN
  end.

(** [x <= y]; every comparison with [NaN] is false. *)
Definition jle (x y : JsNum) : bool :=
  match x, y with
  | JNaN, _ | _, JNaN => false
  | JFin a, JFin b => a <=? b
  | JInf s, JInf s' => s || negb s'
  | JInf s, JFin _ => s
  | JFin _, JInf s => negb s
  end.

Coercion JFin : Q >-> JsNum.

Record XYZ : Set := mkXYZ { xyz_X : JsNum; xyz_Y : JsNum; xyz_Z : JsNum }.
Record xyY : Set := mkxyY { xyY_x : JsNum; xyY_y : JsNum; xyY_Y : JsNum }.
Record UVPrime : Set := mkUVPrime { uv_u : JsNum; uv_v : JsNum }.

(** colorConversions.ts: chromaticity and colour temperature *)

Definition xyzToXyY (xyz : XYZ) : xyY :=
  let '(mkXYZ X Y Z) := xyz in
  let d := jadd (jadd X Y) Z in
  if jle d 1e-12 then mkxyY JNaN JNaN Y
  else mkxyY (jdiv X d) (jdiv Y d) Y.

Definition xyzToUvPrime (xyz : XYZ) : UVPrime :=
  let '(mkXYZ X Y Z) := xyz in
  let d := jadd (jadd X (jmul 15 Y)) (jmul 3 Z) in
  if jle d 1e-12 then mkUVPrime JNaN JNaN
  else mkUVPrime (jdiv (jmul 4 X) d) (jdiv (jmul 9 Y) d).

(** [n ** 2] and [n ** 3] as repeated products. *)
Definition jsquare (n : JsNum) : JsNum := jmul n n.
Definition jcube (n : JsNum) : JsNum := jmul n (jmul n n).

Definition cctMcCamyFromXy (x y : JsNum) : JsNum :=
  if negb (isFinite x) || negb (isFinite y) then JNaN
  else
    let n := jdiv (jsub x 0.332) (jsub 0.1858 y) in
    jadd (jadd (jadd (jmul 449 (jcube n)) (jmul 3525 (jsquare n)))
               (jmul 6823.3 n))
         5520.33.

(** ** wheelModel.ts *)

Definition OFF_SIZE_px : Z := 1600.
Definition OFF_SIZE : Q := inject_Z OFF_SIZE_px.

Definition MODEL_cx : Q := OFF_SIZE / 2.
Definition MODEL_cy : Q := OFF_SIZE / 2.
Definition MODEL_R_color : Q := OFF_SIZE * 0.44.
Definition MODEL_R_inner : Q := OFF_SIZE * 0.18.

(** ** colorMath.ts: hexadecimal strings *)

(** [n.toString(16)] for an integer [n], lowercase. *)
Definition toString16 (n : Z) : string :=
  let digits := HexadecimalString.NilZero.string_of_uint (N.to_hex_uint (Z.abs_N n)) in
  if (n <? 0)%Z then ("-" ++ digits)%string else digits.

(** [s.padStart(2, '0')] *)
Definition padStart2 (s : string) : string :=
  match String.length s with
  | O => "00"%string
  | S O => ("0" ++ s)%string
  | _ => s
  end.

(** The channels are integers, so the [Math.round] of the source is the
    identity on them. *)
Definition rgbToHex (r g b : Z) : string :=
  ("#" ++ concat "" (map (fun n => padStart2 (toString16 n)) [r; g; b]))%string.

(** [n.toFixed(0)]: the nearest integer, ties away from zero, in decimal. *)
Definition toFixed0 (x : Q) : string :=
  let dec n := DecimalString.NilZero.string_of_int (Z.to_int n) in
  if x <? 0 then ("-" ++ dec (js_round (- x)))%string else dec (js_round x).

(** ** The [Math] builtins with irrational results

    [Math.sqrt], [Math.atan2], [Math.pow], [Math.sin], [Math.cos] and
    [Math.PI] have no exact rational value.  The geometry code is embedded
    over any implementation of them; what the proofs need of an
    implementation is stated as [MathLaws]. *)

Class MathLib : Type := {
  Math_PI : Q;
  Math_sqrt : Q -> Q;
  Math_atan2 : Q -> Q -> Q;
  Math_pow : Q -> Q -> Q;
  Math_sin : Q -> Q;
  Math_cos : Q -> Q
}.

Class MathLaws (M : MathLib) : Prop := {
  Math_PI_pos : 0 < Math_PI;
  Math_atan2_range : forall y x, - Math_PI <= Math_atan2 y x /\ Math_atan2 y x <= Math_PI
}.

(** ** wheelRenderer.ts *)

(** The object literal [{ theta, r, f, ...rgb }] of [wheelColorAt]: the
    spread comes last, so its [r] (the red channel) replaces the radius
    written before it. *)
Record WheelColor : Set := mkWheelColor {
  wc_theta : Q;
  wc_f : Q;
  wc_r : Z;
  wc_g : Z;
  wc_b : Z
}.

Section WheelRenderer.
Context {M : MathLib}.

Definition thetaDegFromXY (x y : Q) : Q :=
  let dx := x - MODEL_cx in
  let dy := y - MODEL_cy in
  let rad := Math_atan2 dx (- dy) in
  js_rem ((rad * 180) / Math_PI + 360) 360.

Definition radiusFromXY (x y : Q) : Q :=
  let dx := x - MODEL_cx in
  let dy := y - MODEL_cy in
  Math_sqrt (dx * dx + dy * dy).

Definition isInsideWheel (x y : Q) : bool :=
  let r := radiusFromXY x y in
  (r <=? MODEL_R_color) && (MODEL_R_inner <=? r).

Definition wheelColorAt (x y : Q) : option WheelColor :=
  let r := radiusFromXY x y in
  if (MODEL_R_color <? r) || (r <? MODEL_R_inner) then None
  else
    let f := clamp01 ((r - MODEL_R_inner) / (MODEL_R_color - MODEL_R_inner)) in
    let theta := thetaDegFromXY x y in
    let s := clamp01 (Math_pow f 1.25) in
    let l := clamp01 (0.92 - 0.42 * Math_pow f 0.85) in
    let outerBoost := if 0.84 <? f then (f - 0.84) / (1 - 0.84) else 0 in
    let s2 := clamp01 (s + 0.22 * outerBoost) in
    let l2 := clamp01 (l - 0.06 * outerBoost) in
    let rgb := hslToRgb theta s2 l2 in
    Some (mkWheelColor theta f (rgb_r rgb) (rgb_g rgb) (rgb_b rgb)).

(** The claimed profile, following the specification's words. *)
Definition wheelColor_spec (x y : Q) : RGB :=
  let dx := x - MODEL_cx in
  let dy := y - MODEL_cy in
  let r := Math_sqrt (dx * dx + dy * dy) in
  let theta := degNorm (Math_atan2 dx (- dy) * 180 / Math_PI) in
  let f := clamp01 ((r - MODEL_R_inner) / (MODEL_R_color - MODEL_R_inner)) in
  let s := clamp01 (Math_pow f 1.25) in
  let l := clamp01 (0.92 - 0.42 * Math_pow f 0.85) in
  let boost := if 0.84 <? f then (f - 0.84) / 0.16 else 0 in
  let s2 := clamp01 (s + 0.22 * boost) in
  let l2 := clamp01 (l - 0.06 * boost) in
  hslToRgb theta s2 l2.
End WheelRenderer.

(** ** types.ts: the probe and palette records *)

Record Point : Set := mkPoint { pt_x : Q; pt_y : Q }.

Record WheelTransform : Set := mkWheelTransform {
  tf_scale : Q; tf_dx : Q; tf_dy : Q; tf_dpr : Q; tf_w : Q; tf_h : Q
}.

(** Of [Complement] and [Sample] the fields that go through the sRGB transfer
    curve ([linRgb], [xyz], [xyY], [uvp], [lab], [lch], [oklab], [oklch],
    [relLum], the contrasts, [cct], the two proxies, and the complement's
    [lab], [lch], [dE76]) are left out: they are functions of [rgb] alone,
    real-valued, and nothing below reads them. *)
Record Complement : Set := mkComplement {
  comp_theta : Q;
  comp_rgb : RGB;
  comp_hex : string
}.

Record Sample : Set := mkSample {
  s_xCanvas : Q;
  s_yCanvas : Q;
  s_xOff : Q;
  s_yOff : Q;
  s_theta : Q;
  s_r : Q;
  s_f : Q;
  s_inside : bool;
  s_rgb : RGB;
  s_hex : string;
  s_cssRgb : string;
  s_hueLabel : string;
  s_temp : Temperature;
  s_hsl : HSL;
  s_hsv : HSV;
  s_hwb : HWB;
  s_cmyk : CMYK;
  s_comp : option Complement
}.

Record TintShadeStep : Set := mkTintShadeStep {
  ts_label : string;
  ts_rgb : RGB;
  ts_hex : string
}.

Record PaletteSwatch : Set := mkPaletteSwatch {
  sw_id : string;
  sw_hex : string;
  sw_rgb : RGB;
  sw_hsl : HSL;
  sw_name : string
}.

(** ** useColorWheel.ts: probing the wheel

    The hook's refs are read-only for a probe: the offscreen bitmap, if it
    has been created, as a pixel lookup, and the current transform. *)

Record Stage : Type := mkStage {
  offCtx : option (Z -> Z -> RGB);
  tfRef : WheelTransform
}.

Definition decimal (n : Z) : string :=
  DecimalString.NilZero.string_of_int (Z.to_int n).

(** The degree sign, as its two UTF-8 bytes. *)
Definition degree_sign : string :=
  String (ascii_of_nat 194) (String (ascii_of_nat 176) EmptyString).

(** [Math.max(0, Math.min(OFF_SIZE - 1, Math.round(v)))] *)
Definition pixelIndex (v : Q) : Z :=
  Z.max 0 (Z.min (OFF_SIZE_px - 1) (js_round v)).

Section Probe.
Context {M : MathLib}.
Variable stage : Stage.

Definition canvasToOff (pt : Point) : Point :=
  let t := tfRef stage in
  mkPoint ((pt_x pt - tf_dx t) / tf_scale t) ((pt_y pt - tf_dy t) / tf_scale t).

Definition readOffRgb (ix iy : Z) : RGB :=
  match offCtx stage with
  | None => mkRGB 255 255 255
  | Some getPixel => getPixel ix iy
  end.

Definition sampleAtCanvas (ptCanvas : Point) : option Sample :=
  match offCtx stage with
  | None => None
  | Some _ =>
    let ptOff := canvasToOff ptCanvas in
    if (pt_x ptOff <? 0) || (pt_y ptOff <? 0)
       || (OFF_SIZE <=? pt_x ptOff) || (OFF_SIZE <=? pt_y ptOff)
    then None
    else
      let ix := pixelIndex (pt_x ptOff) in
      let iy := pixelIndex (pt_y ptOff) in
      let '(mkRGB r g b) := readOffRgb ix iy in
      let rr := radiusFromXY (pt_x ptOff) (pt_y ptOff) in
      let inside := (rr <=? MODEL_R_color) && (MODEL_R_inner <=? rr) in
      let theta := thetaDegFromXY (pt_x ptOff) (pt_y ptOff) in
      let f := clamp01 ((rr - MODEL_R_inner) / (MODEL_R_color - MODEL_R_inner)) in
      let hex := rgbToHex r g b in
      let cssRgb :=
        ("rgb(" ++ decimal r ++ " " ++ decimal g ++ " " ++ decimal b ++ ")")%string in
      let hsl := rgbToHsl (inject_Z r) (inject_Z g) (inject_Z b) in
      let hsv := rgbToHsv (inject_Z r) (inject_Z g) (inject_Z b) in
      let hwb := rgbToHwb (inject_Z r) (inject_Z g) (inject_Z b) in
      let cmyk := rgbToCmyk (inject_Z r) (inject_Z g) (inject_Z b) in
      let hueLabel := hueName theta in
      let temp := temperatureLabel theta in
      let comp :=
        if inside then
          let compTheta := js_rem (theta + 180) 360 in
          let rad := (compTheta * Math_PI) / 180 in
          let dx := Math_sin rad in
          let dy := - Math_cos rad in
          let compOff := mkPoint (MODEL_cx + dx * rr) (MODEL_cy + dy * rr) in
          let cix := pixelIndex (pt_x compOff) in
          let ciy := pixelIndex (pt_y compOff) in
          let crgb := readOffRgb cix ciy in
          let chex := rgbToHex (rgb_r crgb) (rgb_g crgb) (rgb_b crgb) in
          Some (mkComplement compTheta crgb chex)
        else None in
      Some (mkSample (pt_x ptCanvas) (pt_y ptCanvas) (pt_x ptOff) (pt_y ptOff)
                     theta rr f inside (mkRGB r g b) hex cssRgb hueLabel temp
                     hsl hsv hwb cmyk comp)
  end.

End Probe.

(** ** useColorWheel.ts: the palette

    The palette is the hook's only mutable state; every mutation is a
    function from the previous list to the next one, as the [setPalette]
    updaters of the source are.  Identifiers come from the clock and
    [Math.random], so they are inputs here. *)

(** [s.toLowerCase()] on the ASCII range, where hex strings live. *)
Definition lowerAscii (c : ascii) : ascii :=
  let n := nat_of_ascii c in
  if (65 <=? n)%nat && (n <=? 90)%nat then ascii_of_nat (n + 32) else c.

Fixpoint toLowerCase (s : string) : string :=
  match s with
  | EmptyString => EmptyString
  | String c rest => String (lowerAscii c) (toLowerCase rest)
  end.

(** [p.hex.toLowerCase() === q.hex.toLowerCase()] *)
Definition sameHex (p q : PaletteSwatch) : bool :=
  String.eqb (toLowerCase (sw_hex p)) (toLowerCase (sw_hex q)).

(** [xs.slice(0, 24)] *)
Definition slice24 {A : Type} (xs : list A) : list A := firstn 24 xs.

(** The updater shared by [addToPalette] and [addTintToPalette]. *)
Definition insertSwatch (sw : PaletteSwatch) (prev : list PaletteSwatch)
  : list PaletteSwatch :=
  if existsb (fun p => sameHex p sw) prev then prev
  else slice24 (sw :: prev).

(** The updater of [addHarmonyToPalette]: the loop pushes a swatch onto
    [uniq] unless one with the same hex is already there. *)
Definition mergeSwatches (newSwatches prev : list PaletteSwatch)
  : list PaletteSwatch :=
  let merged := newSwatches ++ prev in
  let uniq :=
    fold_left
      (fun uniq s => if negb (existsb (fun u => sameHex u s) uniq)
                     then uniq ++ [s] else uniq)
      merged [] in
  slice24 uniq.

Definition addToPalette (sample : option Sample) (id : string)
  (prev : list PaletteSwatch) : list PaletteSwatch :=
  match sample with
  | None => prev
  | Some sample =>
      let sw := mkPaletteSwatch id (s_hex sample) (s_rgb sample) (s_hsl sample)
                  (s_hueLabel sample ++ " " ++ toFixed0 (s_theta sample)
                     ++ degree_sign)%string in
      insertSwatch sw prev
  end.

Definition addTintToPalette (tint : TintShadeStep) (id : string)
  (prev : list PaletteSwatch) : list PaletteSwatch :=
  let c := ts_rgb tint in
  let sw := mkPaletteSwatch id (ts_hex tint) c
              (rgbToHsl (inject_Z (rgb_r c)) (inject_Z (rgb_g c)) (inject_Z (rgb_b c)))
              (ts_label tint) in
  insertSwatch sw prev.

Definition removeSwatch (id : string) (prev : list PaletteSwatch)
  : list PaletteSwatch :=
  filter (fun p => negb (String.eqb (sw_id p) id)) prev.

Definition clearPalette (prev : list PaletteSwatch) : list PaletteSwatch := [].

Section Harmony.
Context {M : MathLib}.
Variable stage : Stage.

(** The swatch built for one harmony item, read off the bitmap at the
    sample's radius. *)
Definition harmonySwatch (rr : Q) (id : string) (it : HarmonyAngle) : PaletteSwatch :=
  let rad := (ha_a it * Math_PI) / 180 in
  let dx := Math_sin rad in
  let dy := - Math_cos rad in
  let ptOff := mkPoint (MODEL_cx + dx * rr) (MODEL_cy + dy * rr) in
  let ix := pixelIndex (pt_x ptOff) in
  let iy := pixelIndex (pt_y ptOff) in
  let '(mkRGB r g b) := readOffRgb stage ix iy in
  let hex := rgbToHex r g b in
  let hsl := rgbToHsl (inject_Z r) (inject_Z g) (inject_Z b) in
  mkPaletteSwatch id hex (mkRGB r g b) hsl
    (ha_label it ++ " " ++ hueName (ha_a it) ++ " " ++ toFixed0 (ha_a it)
       ++ degree_sign)%string.

(** [ids k] is the identifier drawn for the [k]-th harmony item. *)
Definition addHarmonyToPalette (sample : option Sample) (harmonyType : HarmonyType)
  (ids : nat -> string) (prev : list PaletteSwatch) : list PaletteSwatch :=
  match sample with
  | None => prev
  | Some sample =>
      if negb (s_inside sample) then prev
      else
        let rr := s_r sample in
        let items := harmonyAngles (s_theta sample) harmonyType in
        let newSwatches :=
          map (fun '(k, it) => harmonySwatch rr (ids k) it)
              (combine (seq 0 (List.length items)) items) in
        mergeSwatches newSwatches prev
  end.

End Harmony.

(** One step of the palette's life, and the palettes reachable from the
    empty one. *)
Inductive PaletteAction : Type :=
  | ActAdd (sample : option Sample) (id : string)
  | ActAddHarmony (stage : Stage) (sample : option Sample)
                  (harmonyType : HarmonyType) (ids : nat -> string)
  | ActAddTint (tint : TintShadeStep) (id : string)
  | ActRemove (id : string)
  | ActClear.

Definition paletteStep {M : MathLib} (prev : list PaletteSwatch)
  (a : PaletteAction) : list PaletteSwatch :=
  match a with
  | ActAdd sample id => addToPalette sample id prev
  | ActAddHarmony stage sample ty ids => addHarmonyToPalette stage sample ty ids prev
  | ActAddTint tint id => addTintToPalette tint id prev
  | ActRemove id => removeSwatch id prev
  | ActClear => clearPalette prev
  end.

Definition paletteRun {M : MathLib} (acts : list PaletteAction)
  : list PaletteSwatch :=
  fold_left paletteStep acts [].

(** ** colorConversions.ts: the sRGB transfer curve and linear mixing

    [Math.pow] with the exponents [2.4] and [1 / 2.4] is the real power
    function [Rpower]; both calls sit in a branch where the base is positive. *)

Local Open Scope R_scope.

Record LinearRGB : Type := mkLinearRGB { lin_r : R; lin_g : R; lin_b : R }.

Definition clamp01_R (v : R) : R := Rmin 1 (Rmax 0 v).

(** [Math.round] on a real: [floor (x + 0.5)]. *)
Definition js_round_R (x : R) : Z := Zfloor (x + 0.5).

Definition srgbToLinear (u8 : R) : R :=
  let u := u8 / 255 in
  if Rle_dec u 0.04045 then u / 12.92
  else Rpower ((u + 0.055) / 1.055) 2.4.

Definition linearToSrgb (L : R) : Z :=
  let u :=
    if Rle_dec L 0.0031308 then 12.92 * L
    else 1.055 * Rpower L (1 / 2.4) - 0.055 in
  js_round_R (clamp01_R u * 255).

Definition rgbToLinearRgb (r g b : R) : LinearRGB :=
  mkLinearRGB (srgbToLinear r) (srgbToLinear g) (srgbToLinear b).

Definition mixLinearRGB (a b : RGB) (t : R) : RGB :=
  let lerp (x y : R) := x + (y - x) * t in
  let la := rgbToLinearRgb (IZR (rgb_r a)) (IZR (rgb_g a)) (IZR (rgb_b a)) in
  let lb := rgbToLinearRgb (IZR (rgb_r b)) (IZR (rgb_g b)) (IZR (rgb_b b)) in
  let lr := lerp (lin_r la) (lin_r lb) in
  let lg := lerp (lin_g la) (lin_g lb) in
  let lbVal := lerp (lin_b la) (lin_b lb) in
  mkRGB (linearToSrgb lr) (linearToSrgb lg) (linearToSrgb lbVal).

(** ** useColorWheel.ts: tints and shades *)

(** [for (let i = n; i >= 1; i--) arr = body(i, arr)] *)
Fixpoint for_down {A : Type} (body : Z -> A -> A) (n : nat) (arr : A) : A :=
  match n with
  | O => arr
  | S k => for_down body k (body (Z.of_nat (S k)) arr)
  end.

(** [for (let i = from; ...; i++) arr = body(i, arr)], [count] iterations. *)
Fixpoint for_up {A : Type} (body : Z -> A -> A) (from : Z) (count : nat) (arr : A) : A :=
  match count with
  | O => arr
  | S k => for_up body (from + 1)%Z k (body from arr)
  end.

Definition tints (sample : option Sample) (tintSteps : Z) : list TintShadeStep :=
  match sample with
  | None => []
  | Some sample =>
      let base := s_rgb sample in
      let white := mkRGB 255 255 255 in
      let black := mkRGB 0 0 0 in
      let steps := Z.max 3 (Z.min 11 tintSteps) in
      let half := (steps / 2)%Z in
      let arr := [] in
      let arr :=
        for_down
          (fun i arr =>
             let tt := IZR i / IZR (half + 1) in
             let rgb := mixLinearRGB base white tt in
             arr ++ [mkTintShadeStep ("Tint " ++ decimal i)
                       rgb (rgbToHex (rgb_r rgb) (rgb_g rgb) (rgb_b rgb))])
          (Z.to_nat half) arr in
      let arr := arr ++ [mkTintShadeStep "Base" base (s_hex sample)] in
      let arr :=
        for_up
          (fun i arr =>
             let tt := IZR i / IZR (half + 1) in
             let rgb := mixLinearRGB base black tt in
             arr ++ [mkTintShadeStep ("Shade " ++ decimal i)
                       rgb (rgbToHex (rgb_r rgb) (rgb_g rgb) (rgb_b rgb))])
          1%Z (Z.to_nat half) arr in
      arr
  end.

Local Close Scope R_scope.

(** ** Specification-side definitions and proof devices *)

(** The branch selection of [hslToRgb], as a function of [hh], [C], [X]. *)
Definition sextant (hh C X : Q) : Q * Q * Q :=
  if (0 <=? hh) && (hh <? 1) then (C, X, 0)
  else if (1 <=? hh) && (hh <? 2) then (X, C, 0)
  else if (2 <=? hh) && (hh <? 3) then (0, C, X)
  else if (3 <=? hh) && (hh <? 4) then (0, X, C)
  else if (4 <=? hh) && (hh <? 5) then (X, 0, C)
  else (C, 0, X).

Definition round_channels (p : Q * Q * Q) (m : Q) : RGB :=
  let '(r1, g1, b1) := p in
  mkRGB (clamp255 (js_round ((r1 + m) * 255)))
        (clamp255 (js_round ((g1 + m) * 255)))
        (clamp255 (js_round ((b1 + m) * 255))).

(** The hue computation that [rgbToHsl] and [rgbToHsv] share line for line,
    on the normalised channels. *)
Definition hueOf (r g b max d : Q) : Q :=
  if negb (d =? 0) then
    let h :=
      if max =? r then js_rem ((g - b) / d) 6
      else if max =? g then (b - r) / d + 2
      else (r - g) / d + 4 in
    let h := h * 60 in
    if h <? 0 then h + 360 else h
  else 0.

(** The table of the specification (section 4.4): for each kind, the labels
    in order with the offset of each angle from the base hue. *)
Definition harmonyTable (type : HarmonyType) : list (string * Q) :=
  match type with
  | Complementary => [("Base", 0); ("Comp", 180)]
  | SplitComplementary => [("Base", 0); ("Split-1", 150); ("Split-2", 210)]
  | Analogous => [("Ana-1", -30); ("Base", 0); ("Ana-2", 30)]
  | Triadic => [("Tri-1", 0); ("Tri-2", 120); ("Tri-3", 240)]
  | Tetradic => [("Tet-1", 0); ("Tet-2", 60); ("Tet-3", 180); ("Tet-4", 240)]
  end%string.

(** The two predicates of [temperatureLabel], as propositions on the
    normalised hue. *)
Definition warmHue (t : Q) : Prop :=
  (315 <= t \/ t < 120) /\ ~ (75 <= t /\ t < 105).

Definition coolHue (t : Q) : Prop := 150 <= t /\ t < 285.

(** The Neutral band as the specification spells it out: the 105-120 and
    285-315 gaps plus the 75-105 warm exclusion. *)
Definition neutralBand_spec (t : Q) : Prop :=
  (105 <= t /\ t < 120) \/ (285 <= t /\ t < 315) \/ (75 <= t /\ t < 105).

(** The Neutral band of the code. *)
Definition neutralBand (t : Q) : Prop :=
  (120 <= t /\ t < 150) \/ (285 <= t /\ t < 315) \/ (75 <= t /\ t < 105).

(** A small executable implementation of the builtins, used to run the
    geometry on concrete points: integer square roots, angles snapped to
    the nearest axis, and sine and cosine on the axes. *)
Definition axisMath : MathLib := {|
  Math_PI := 355 # 113;
  Math_sqrt := fun q => inject_Z (Z.sqrt (Qfloor q));
  Math_atan2 := fun y x =>
    if Qabs y <? Qabs x then (if 0 <=? x then 0 else 355 # 113)
    else if y =? 0 then 0
    else if 0 <? y then 355 # 226 else - (355 # 226);
  Math_pow := fun x y => Qpower x (Qfloor y);
  Math_sin := fun a =>
    if a =? 355 # 226 then 1 else if a =? 3 * (355 # 226) then -1 else 0;
  Math_cos := fun a =>
    if a =? 0 then 1 else if a =? 355 # 113 then -1 else 0
|}.

(** A bitmap painted by [wheelColorAt] under [axisMath], white outside the
    band, shown through the identity transform. *)
Definition axisStage : Stage :=
  mkStage
    (Some (fun ix iy =>
             match wheelColorAt (M := axisMath)
                     (inject_Z ix + 0.5) (inject_Z iy + 0.5) with
             | Some c => mkRGB (wc_r c) (wc_g c) (wc_b c)
             | None => mkRGB 255 255 255
             end))
    (mkWheelTransform 1 0 0 1 OFF_SIZE OFF_SIZE).

(** The key a swatch is deduplicated by, and the palette invariant: at most
    24 swatches, no two with the same key. *)
Definition hexKey (sw : PaletteSwatch) : string := toLowerCase (sw_hex sw).

Definition paletteOk (p : list PaletteSwatch) : Prop :=
  (List.length p <= 24)%nat /\ NoDup (map hexKey p).

(** An RGB value with every channel in the 8-bit range. *)
Definition rgb8 (c : RGB) : Prop :=
  (0 <= rgb_r c <= 255)%Z /\ (0 <= rgb_g c <= 255)%Z /\ (0 <= rgb_b c <= 255)%Z.

(** The ladder as the specification describes it: [half] tints toward white
    at fractions [i / (half + 1)] for [i] from [half] down to 1, the base,
    then [half] shades toward black for [i] from 1 to [half]. *)
Definition tintLadder_spec (base : RGB) (baseHex : string) (tintSteps : Z)
  : list TintShadeStep :=
  let steps := Z.max 3 (Z.min 11 tintSteps) in
  let half := (steps / 2)%Z in
  let mixed (label : string) (toward : RGB) (i : nat) :=
    let c := mixLinearRGB base toward (IZR (Z.of_nat i) / IZR (half + 1))%R in
    mkTintShadeStep (label ++ decimal (Z.of_nat i)) c
      (rgbToHex (rgb_r c) (rgb_g c) (rgb_b c)) in
  map (mixed "Tint "%string (mkRGB 255 255 255)) (rev (seq 1 (Z.to_nat half)))
  ++ [mkTintShadeStep "Base" base baseHex]
  ++ map (mixed "Shade "%string (mkRGB 0 0 0)) (seq 1 (Z.to_nat half)).

(** ** More of the sources

    The remaining functions of the files above. *)

(** colorConversions.ts: accessibility *)

Definition relLuminanceWcagFromY (Y : Q) : Q := clamp01 Y.

Definition contrastRatio (L1 L2 : Q) : Q :=
  let a := Qmax L1 L2 in
  let b := Qmin L1 L2 in
  (a + 0.05) / (b + 0.05).

(** artistDescriptors.ts: the two proxies *)

Definition valueProxy (labL : Q) : Q := Qmin 10 (Qmax 0 (labL / 10)).

Definition chromaProxy (lchC : Q) : Q := Qmin 20 (lchC / 8).

(** The value proxy as [sampleAtCanvas] computes it inline. *)
Definition sampleValueProxy (labL : Q) : Q := clamp01 (labL / 100) * 10.

(** useColorWheel.ts: the other direction of the coordinate transform *)
Definition offToCanvas (stage : Stage) (pt : Point) : Point :=
  let t := tfRef stage in
  mkPoint (pt_x pt * tf_scale t + tf_dx t) (pt_y pt * tf_scale t + tf_dy t).

(** [resizeAndDraw], up to its call of [draw]: the canvas size it sets and
    the transform it stores, from the stage's bounding rectangle and
    [window.devicePixelRatio] ([|| 1] replaces a zero ratio by 1). *)
Record Layout : Set := mkLayout {
  canvas_width : Z;
  canvas_height : Z;
  layout_tf : WheelTransform
}.

Definition resizeAndDraw (rectWidth rectHeight devicePixelRatio : Q) : Layout :=
  let dpr := if devicePixelRatio =? 0 then 1 else devicePixelRatio in
  let width := Z.max 1 (Qfloor (rectWidth * dpr)) in
  let height := Z.max 1 (Qfloor (rectHeight * dpr)) in
  let s := Qmin (inject_Z width / OFF_SIZE) (inject_Z height / OFF_SIZE) in
  let w := OFF_SIZE * s in
  let h := OFF_SIZE * s in
  let dx := (inject_Z width - w) / 2 in
  let dy := (inject_Z height - h) / 2 in
  mkLayout width height (mkWheelTransform s dx dy dpr w h).

(** wheelRenderer.ts: the bitmap.  The [Uint8ClampedArray] of the
    [ImageData] is its bytes by index; a store clamps the value to 0..255
    and is ignored outside the array. *)
Definition ImageBytes : Type := Z -> Z.

Definition bitmapLength : Z := OFF_SIZE_px * OFF_SIZE_px * 4.

Definition createImageData : ImageBytes := fun _ => 0%Z.

Definition setByte (data : ImageBytes) (idx v : Z) : ImageBytes :=
  fun j =>
    if ((j =? idx) && (0 <=? idx) && (idx <? bitmapLength))%Z
    then clamp255 v else data j.

Section Bitmap.
Context {M : MathLib}.

(** The body of the inner loop of [renderWheelBitmap]. *)
Definition renderPixel (y x : Z) (data : ImageBytes) : ImageBytes :=
  let idx := ((y * OFF_SIZE_px + x) * 4)%Z in
  match wheelColorAt (inject_Z x + 0.5) (inject_Z y + 0.5) with
  | None =>
      let data := setByte data (idx + 0) 255 in
      let data := setByte data (idx + 1) 255 in
      let data := setByte data (idx + 2) 255 in
      setByte data (idx + 3) 255
  | Some c =>
      let data := setByte data (idx + 0) (wc_r c) in
      let data := setByte data (idx + 1) (wc_g c) in
      let data := setByte data (idx + 2) (wc_b c) in
      setByte data (idx + 3) 255
  end.

(** The bytes handed to [putImageData]. *)
Definition renderWheelBitmap : ImageBytes :=
  let data := createImageData in
  for_up
    (fun y data =>
       for_up (fun x data => renderPixel y x data) 0 (Z.to_nat OFF_SIZE_px) data)
    0 (Z.to_nat OFF_SIZE_px) data.

(** [getImageData(ix, iy, 1, 1).data] on the canvas holding these bytes;
    outside the canvas the pixel is transparent black. *)
Definition getImageData (data : ImageBytes) (ix iy : Z) : RGB :=
  if ((0 <=? ix) && (ix <? OFF_SIZE_px) && (0 <=? iy) && (iy <? OFF_SIZE_px))%Z
  then
    let idx := ((iy * OFF_SIZE_px + ix) * 4)%Z in
    mkRGB (data idx) (data (idx + 1)%Z) (data (idx + 2)%Z)
  else mkRGB 0 0 0.

(** The hook's refs once the offscreen canvas is initialised: the rendered
    bitmap and the current transform. *)
Definition wheelStage (tf : WheelTransform) : Stage :=
  mkStage (Some (getImageData renderWheelBitmap)) tf.

End Bitmap.

(** The byte [renderWheelBitmap] means to leave at index [j]: a channel of
    the wheel colour at the centre of pixel [j / 4], or 255. *)
Definition wheelByte {M : MathLib} (j : Z) : Z :=
  let p := (j / 4)%Z in
  let y := (p / OFF_SIZE_px)%Z in
  let x := (p mod OFF_SIZE_px)%Z in
  let ch := (j mod 4)%Z in
  match wheelColorAt (inject_Z x + 0.5) (inject_Z y + 0.5) with
  | None => 255%Z
  | Some c =>
      if (ch =? 0)%Z then wc_r c else if (ch =? 1)%Z then wc_g c
      else if (ch =? 2)%Z then wc_b c else 255%Z
  end.

(** useColorWheel.ts: the palette as CSS custom properties.  [newline] is
    the line feed of the template literals. *)
Definition newline : string := String (ascii_of_nat 10) EmptyString.

(** One line of the export, for the swatch at index [i] of the reversed
    palette. *)
Definition paletteCssLine (i : nat) (p : PaletteSwatch) : string :=
  ("  --swatch-" ++ padStart2 (decimal (Z.of_nat i + 1)) ++ ": " ++ sw_hex p
     ++ "; /* " ++ sw_name p ++ " */")%string.

(** [palette.slice().reverse().map((p, i) => ...)] *)
Definition paletteCssLines (palette : list PaletteSwatch) : list string :=
  let reversed := rev palette in
  map (fun '(i, p) => paletteCssLine i p)
      (combine (seq 0 (List.length reversed)) reversed).

Definition paletteCss (palette : list PaletteSwatch) : string :=
  if (List.length palette =? 0)%nat then ""%string
  else
    let lines := paletteCssLines palette in
    (":root" ++ newline ++ "{" ++ newline ++ concat newline lines ++ newline ++ "}")%string.

Local Open Scope R_scope.

(** colorConversions.ts: CIE XYZ and Lab.  The results are irrational, so
    these records hold reals.  [Math.cbrt] is only called in [fLab], in the
    branch where its argument exceeds [(6/29)^3], and is the real power
    [Rpower t (1 / 3)] there. *)
Record XYZ_D65 : Type := mkXYZ_D65 { cie_X : R; cie_Y : R; cie_Z : R }.

Record Lab : Type := mkLab { lab_L : R; lab_a : R; lab_b : R }.

Definition rgbToXyzD65 (r g b : R) : XYZ_D65 :=
  let R' := srgbToLinear r in
  let G' := srgbToLinear g in
  let B' := srgbToLinear b in
  let X := 0.4124564 * R' + 0.3575761 * G' + 0.1804375 * B' in
  let Y := 0.2126729 * R' + 0.7151522 * G' + 0.072175 * B' in
  let Z := 0.0193339 * R' + 0.119192 * G' + 0.9503041 * B' in
  mkXYZ_D65 X Y Z.

Definition fLab (t : R) : R :=
  let d := 6 / 29 in
  let d3 := d * d * d in
  if Rlt_dec d3 t then Rpower t (1 / 3) else t / (3 * d * d) + 4 / 29.

Definition xyzToLabD65 (xyz : XYZ_D65) : Lab :=
  let Xn := 0.95047 in
  let Yn := 1.0 in
  let Zn := 1.08883 in
  let fx := fLab (cie_X xyz / Xn) in
  let fy := fLab (cie_Y xyz / Yn) in
  let fz := fLab (cie_Z xyz / Zn) in
  let L := 116 * fy - 16 in
  let a := 500 * (fx - fy) in
  let b := 200 * (fy - fz) in
  mkLab L a b.

Definition deltaE76 (lab1 lab2 : Lab) : R :=
  let dL := lab_L lab1 - lab_L lab2 in
  let da := lab_a lab1 - lab_a lab2 in
  let db := lab_b lab1 - lab_b lab2 in
  sqrt (dL * dL + da * da + db * db).

(** useColorWheel.ts, in [sampleAtCanvas]: the Lab value derived from a
    pixel, [xyzToLabD65(rgbToXyzD65(r, g, b))], and the [dE76] stored with
    a complement, [deltaE76(lab, clab)]. *)
Definition sampleLab (c : RGB) : Lab :=
  xyzToLabD65 (rgbToXyzD65 (IZR (rgb_r c)) (IZR (rgb_g c)) (IZR (rgb_b c))).

Definition complementDeltaE (rgb crgb : RGB) : R :=
  deltaE76 (sampleLab rgb) (sampleLab crgb).

Local Close Scope R_scope.

(** The channel-wise order on colours: [rgb_le a b] when no channel of [a]
    exceeds the same channel of [b]. *)
Definition rgb_le (a b : RGB) : Prop :=
  (rgb_r a <= rgb_r b)%Z /\ (rgb_g a <= rgb_g b)%Z /\ (rgb_b a <= rgb_b b)%Z.

(** The colour [k] steps above ([k > 0], toward white) or below ([k < 0],
    toward black) the base in a ladder with [half] steps each way. *)
Definition ladderLevel (base : RGB) (half k : Z) : RGB :=
  if (0 <=? k)%Z
  then mixLinearRGB base (mkRGB 255 255 255) (IZR k / IZR (half + 1))%R
  else mixLinearRGB base (mkRGB 0 0 0) (IZR (- k) / IZR (half + 1))%R.

(** * Verification *)

(** ** The embedding on the repository's test vectors

    The expectations of [tests/colorMath.test.ts], [tests/harmonies.test.ts]
    and [tests/artistDescriptors.test.ts], and of the conversion tests,
    evaluated on the embedding. *)

Example degNorm_tests :
  map Qred (map degNorm [0; 180; 359; -1; -90; -360; 360; 361; 720; 450])
  = [0; 180; 359; 359; 270; 0; 0; 1; 0; 90].
Proof. vm_compute. reflexivity. Qed.

Example clamp01_tests :
  map Qred (map clamp01 [0.5; -0.5; -100; 1.5; 100; 0; 1]) = [1 # 2; 0; 0; 1; 1; 0; 1].
Proof. vm_compute. reflexivity. Qed.

Example rgbToHex_tests :
  [rgbToHex 255 0 0; rgbToHex 0 0 0; rgbToHex 128 128 128; rgbToHex 1 2 3]
  = ["#ff0000"; "#000000"; "#808080"; "#010203"]%string.
Proof. vm_compute. reflexivity. Qed.

Example hslToRgb_tests :
  [hslToRgb 0 1 0.5; hslToRgb 120 1 0.5; hslToRgb 240 1 0.5;
   hslToRgb 180 1 0.5; hslToRgb 300 1 0.5; hslToRgb 60 1 0.5;
   hslToRgb 0 0 0; hslToRgb 0 0 1; hslToRgb 0 0 0.5]
  = [mkRGB 255 0 0; mkRGB 0 255 0; mkRGB 0 0 255;
     mkRGB 0 255 255; mkRGB 255 0 255; mkRGB 255 255 0;
     mkRGB 0 0 0; mkRGB 255 255 255; mkRGB 128 128 128].
Proof. vm_compute. reflexivity. Qed.

Example rgbToHsl_tests :
  let red := rgbToHsl 255 0 0 in
  let green := rgbToHsl 0 255 0 in
  map Qred [hsl_h red; hsl_s red; hsl_l red; hsl_h green; hsl_s green; hsl_l green;
            hsl_s (rgbToHsl 128 128 128)]
  = [0; 1; 1 # 2; 120; 1; 1 # 2; 0].
Proof. vm_compute. reflexivity. Qed.

Example rgbToHsv_rgbToHwb_rgbToCmyk_tests :
  let red := rgbToHsv 255 0 0 in
  let cmyk := rgbToCmyk 255 0 0 in
  map Qred [hsv_h red; hsv_s red; hsv_v red; hsv_v (rgbToHsv 0 0 0);
            hwb_w (rgbToHwb 0 0 0); hwb_b (rgbToHwb 0 0 0);
            hwb_w (rgbToHwb 255 255 255); hwb_b (rgbToHwb 255 255 255);
            cmyk_c cmyk; cmyk_m cmyk; cmyk_y cmyk; cmyk_k cmyk;
            cmyk_k (rgbToCmyk 0 0 0)]
  = [0; 1; 1; 0; 0; 1; 1; 0; 0; 1; 1; 0; 1].
Proof. vm_compute. reflexivity. Qed.

Example harmonyAngles_tests :
  map (fun '(t, ty) => map (fun h => Qred (ha_a h)) (harmonyAngles t ty))
    [(0, Complementary); (270, Complementary); (0, SplitComplementary);
     (60, Analogous); (10, Analogous); (0, Triadic); (300, Triadic);
     (0, Tetradic)]
  = [[0; 180]; [270; 90]; [0; 150; 210]; [30; 60; 90]; [340; 10; 40];
     [0; 120; 240]; [300; 60; 180]; [0; 60; 180; 240]].
Proof. vm_compute. reflexivity. Qed.

Example hueName_tests :
  map hueName [0; 60; 120; 180; 240; 300; 22; 45; 68; 90; 112; 135; 157; 202;
               225; 247; 270; 292; 315; 337; -30; -90; 360; 450]
  = ["Red"; "Yellow-Orange"; "Yellow-Green"; "Cyan"; "Blue-Violet"; "Red-Violet";
     "Red-Orange"; "Orange"; "Yellow-Orange"; "Yellow"; "Yellow-Green"; "Green";
     "Blue-Green"; "Blue-Cyan"; "Blue"; "Blue-Violet"; "Violet"; "Red-Violet";
     "Magenta"; "Rose"; "Rose"; "Violet"; "Red"; "Yellow"]%string.
Proof. vm_compute. reflexivity. Qed.

Example temperatureLabel_tests :
  map temperatureLabel [0; 15; 345; 30; 45; 55; 60; 150; 160; 200; 240; 280;
                        90; 290; 360; -10]
  = [Warm; Warm; Warm; Warm; Warm; Warm; Warm; Cool; Cool; Cool; Cool; Cool;
     Neutral; Neutral; Warm; Warm].
Proof. vm_compute. reflexivity. Qed.

(** ** Rational arithmetic: comparisons, truncation, remainder *)

Lemma Qlt_bool_iff a b : Qlt_bool a b = true <-> a < b.
Proof.
  unfold Qlt_bool. rewrite negb_true_iff.
  split; intros H.
  - apply Qnot_le_lt. intros Hle. apply Qle_bool_iff in Hle. congruence.
  - destruct (Qle_bool b a) eqn:E; [|reflexivity].
    apply Qle_bool_iff in E. exfalso. apply (Qlt_not_le _ _ H E).
Qed.

Lemma Qle_bool_false a b : Qle_bool a b = false <-> b < a.
Proof.
  rewrite <- Qlt_bool_iff. unfold Qlt_bool. now rewrite negb_true_iff.
Qed.

Lemma Qlt_bool_false a b : Qlt_bool a b = false <-> b <= a.
Proof.
  unfold Qlt_bool. rewrite negb_false_iff. apply Qle_bool_iff.
Qed.

Lemma Qeq_bool_false a b : Qeq_bool a b = false <-> ~ a == b.
Proof.
  split; [apply Qeq_bool_neq|].
  intros H. destruct (Qeq_bool a b) eqn:E; [|reflexivity].
  apply Qeq_bool_iff in E. contradiction.
Qed.

#[global] Instance Qlt_bool_Proper : Proper (Qeq ==> Qeq ==> eq) Qlt_bool.
Proof. intros a a' Ha b b' Hb. unfold Qlt_bool. now rewrite Ha, Hb. Qed.

Ltac qbool :=
  repeat match goal with
  | H : Qle_bool _ _ = true |- _ => apply Qle_bool_iff in H
  | H : Qle_bool _ _ = false |- _ => apply Qle_bool_false in H
  | H : Qlt_bool _ _ = true |- _ => apply Qlt_bool_iff in H
  | H : Qlt_bool _ _ = false |- _ => apply Qlt_bool_false in H
  | H : Qeq_bool _ _ = true |- _ => apply Qeq_bool_iff in H
  | H : Qeq_bool _ _ = false |- _ => apply Qeq_bool_false in H
  | H : andb _ _ = true |- _ => apply andb_true_iff in H; destruct H
  | H : andb _ _ = false |- _ => apply andb_false_iff in H; destruct H
  end.

(** *** Floors and truncations *)

Lemma Qfloor_eq (q : Q) (k : Z) :
  inject_Z k <= q -> q < inject_Z k + 1 -> Qfloor q = k.
Proof.
  intros Hlo Hhi.
  pose proof (Qfloor_le q) as H1. pose proof (Qlt_floor q) as H2.
  rewrite inject_Z_plus in H2. change (inject_Z 1) with 1 in H2.
  assert (A : inject_Z (Qfloor q) < inject_Z (k + 1)).
  { rewrite inject_Z_plus. change (inject_Z 1) with 1. lra. }
  assert (B : inject_Z k < inject_Z (Qfloor q + 1)).
  { rewrite inject_Z_plus. change (inject_Z 1) with 1. lra. }
  rewrite <- Zlt_Qlt in A, B. lia.
Qed.

Lemma Qtrunc_nonneg (q : Q) : 0 <= q -> Qtrunc q = Qfloor q.
Proof.
  destruct q as [n d]. unfold Qle, Qtrunc, Qfloor. simpl. intros H.
  apply Z.quot_div_nonneg; lia.
Qed.

Lemma Qtrunc_nonpos (q : Q) : q <= 0 -> Qtrunc q = (- Qfloor (- q))%Z.
Proof.
  destruct q as [n d]. unfold Qle, Qtrunc, Qfloor. simpl. intros H.
  rewrite <- (Z.opp_involutive n) at 1.
  rewrite Z.quot_opp_l by lia. f_equal.
  apply Z.quot_div_nonneg; lia.
Qed.

#[global] Instance Qtrunc_Proper : Proper (Qeq ==> eq) Qtrunc.
Proof.
  intros x y H.
  destruct (Qlt_le_dec x 0) as [Hx|Hx].
  - rewrite !Qtrunc_nonpos by lra. now rewrite H.
  - rewrite !Qtrunc_nonneg by lra. now rewrite H.
Qed.

Lemma Qtrunc_eq_nonneg (q : Q) (k : Z) :
  (0 <= k)%Z -> inject_Z k <= q -> q < inject_Z k + 1 -> Qtrunc q = k.
Proof.
  intros Hk Hlo Hhi. rewrite Qtrunc_nonneg.
  - now apply Qfloor_eq.
  - rewrite Zle_Qle in Hk. change (inject_Z 0) with 0 in Hk. lra.
Qed.

Lemma Qtrunc_small (q : Q) : -1 < q -> q < 1 -> Qtrunc q = 0%Z.
Proof.
  intros Hlo Hhi. destruct (Qlt_le_dec q 0) as [Hq|Hq].
  - rewrite Qtrunc_nonpos by lra.
    rewrite (Qfloor_eq (- q) 0); [reflexivity| |];
      change (inject_Z 0) with 0; lra.
  - apply Qtrunc_eq_nonneg; [lia| |]; change (inject_Z 0) with 0; lra.
Qed.

(** *** [%], [Math.round] and [degNorm] *)

Lemma Qdiv_mult_cancel (a n : Q) : ~ n == 0 -> (a / n) * n == a.
Proof. intros Hn. field. exact Hn. Qed.

#[global] Instance inject_Z_Proper : Proper (eq ==> Qeq) inject_Z.
Proof. intros x y Hxy. now rewrite Hxy. Qed.

#[global] Instance js_rem_Proper : Proper (Qeq ==> Qeq ==> Qeq) js_rem.
Proof. intros a a' Ha n n' Hn. unfold js_rem. now rewrite Ha, Hn. Qed.

#[global] Instance js_round_Proper : Proper (Qeq ==> eq) js_round.
Proof. intros x y H. unfold js_round. now rewrite H. Qed.

Lemma js_round_inject_Z (k : Z) : js_round (inject_Z k) = k.
Proof.
  unfold js_round. apply Qfloor_eq; lra.
Qed.

Lemma js_rem_shift (a n : Q) (k : Z) :
  (0 <= k)%Z -> 0 < n ->
  inject_Z k * n <= a -> a < (inject_Z k + 1) * n ->
  js_rem a n == a - n * inject_Z k.
Proof.
  intros Hk Hn Hlo Hhi. unfold js_rem.
  assert (Hq : (a / n) * n == a) by (apply Qdiv_mult_cancel; lra).
  rewrite (Qtrunc_eq_nonneg (a / n) k); [reflexivity|assumption| |];
    set (q := a / n) in *; nra.
Qed.

Lemma js_rem_small (a n : Q) : 0 < n -> - n < a -> a < n -> js_rem a n == a.
Proof.
  intros Hn Hlo Hhi. unfold js_rem.
  assert (Hq : (a / n) * n == a) by (apply Qdiv_mult_cancel; lra).
  rewrite (Qtrunc_small (a / n)); [change (inject_Z 0) with 0; lra| |];
    set (q := a / n) in *; nra.
Qed.

Lemma js_rem_nonneg (a n : Q) : 0 < n -> 0 <= a -> 0 <= js_rem a n /\ js_rem a n < n.
Proof.
  intros Hn Ha. unfold js_rem.
  assert (Hq : (a / n) * n == a) by (apply Qdiv_mult_cancel; lra).
  assert (Hq0 : 0 <= a / n) by (set (q := a / n) in *; nra).
  rewrite Qtrunc_nonneg by assumption.
  pose proof (Qfloor_le (a / n)) as H1. pose proof (Qlt_floor (a / n)) as H2.
  rewrite inject_Z_plus in H2. change (inject_Z 1) with 1 in H2.
  set (q := a / n) in *. set (t := inject_Z (Qfloor q)) in *.
  split; nra.
Qed.

Lemma js_rem_nonpos (a n : Q) : 0 < n -> a <= 0 -> - n < js_rem a n /\ js_rem a n <= 0.
Proof.
  intros Hn Ha. unfold js_rem.
  assert (Hq : (a / n) * n == a) by (apply Qdiv_mult_cancel; lra).
  assert (Hq0 : a / n <= 0) by (set (q := a / n) in *; nra).
  rewrite Qtrunc_nonpos by assumption.
  pose proof (Qfloor_le (- (a / n))) as H1. pose proof (Qlt_floor (- (a / n))) as H2.
  rewrite inject_Z_plus in H2. change (inject_Z 1) with 1 in H2.
  rewrite inject_Z_opp.
  set (q := a / n) in *. set (t := inject_Z (Qfloor (- q))) in *.
  split; nra.
Qed.

(** [js_rem a n] differs from [a] by an integer multiple of [n]. *)
Lemma js_rem_congr (a n : Q) : exists k : Z, js_rem a n == a - n * inject_Z k.
Proof. exists (Qtrunc (a / n)). reflexivity. Qed.

Lemma degNorm_range (d : Q) : 0 <= degNorm d /\ degNorm d < 360.
Proof.
  unfold degNorm. apply js_rem_nonneg; [lra|].
  destruct (Qlt_le_dec d 0) as [Hd|Hd].
  - pose proof (js_rem_nonpos d 360) as H. lra.
  - pose proof (js_rem_nonneg d 360) as H. lra.
Qed.

Lemma degNorm_congr (d : Q) : exists k : Z, degNorm d == d + 360 * inject_Z k.
Proof.
  unfold degNorm.
  destruct (js_rem_congr d 360) as [k1 H1].
  destruct (js_rem_congr (js_rem d 360 + 360) 360) as [k2 H2].
  exists (1 + - (k1 + k2))%Z. rewrite H2, H1.
  rewrite inject_Z_plus, inject_Z_opp, inject_Z_plus. change (inject_Z 1) with 1. ring.
Qed.

Lemma degNorm_id (d : Q) : 0 <= d -> d < 360 -> degNorm d == d.
Proof.
  intros Hlo Hhi. unfold degNorm.
  rewrite (js_rem_small d 360) by lra.
  rewrite (js_rem_shift (d + 360) 360 1); [ring|lia|lra| |];
    change (inject_Z 1) with 1; lra.
Qed.

#[global] Instance degNorm_Proper : Proper (Qeq ==> Qeq) degNorm.
Proof. intros a a' Ha. unfold degNorm. now rewrite Ha. Qed.

(** ** HSL and HSV round trips *)

Lemma hslToRgb_unfold (h s l : Q) :
  hslToRgb h s l =
  let C := (1 - Qabs (2 * l - 1)) * s in
  let hh := js_rem h 360 / 60 in
  let X := C * (1 - Qabs (js_rem hh 2 - 1)) in
  round_channels (sextant hh C X) (l - C / 2).
Proof. reflexivity. Qed.

Lemma sextant_case (hh C X : Q) (k : Z) :
  inject_Z k <= hh -> hh < inject_Z k + 1 -> (0 <= k < 6)%Z ->
  sextant hh C X =
  match k with
  | 0%Z => (C, X, 0) | 1%Z => (X, C, 0) | 2%Z => (0, C, X)
  | 3%Z => (0, X, C) | 4%Z => (X, 0, C) | _ => (C, 0, X)
  end.
Proof.
  intros Hlo Hhi Hk. unfold sextant.
  assert (K : k = 0%Z \/ k = 1%Z \/ k = 2%Z \/ k = 3%Z \/ k = 4%Z \/ k = 5%Z) by lia.
  destruct K as [-> | [-> | [-> | [-> | [-> | ->]]]]];
    change (inject_Z 0) with 0 in *; change (inject_Z 1) with 1 in *;
    change (inject_Z 2) with 2 in *; change (inject_Z 3) with 3 in *;
    change (inject_Z 4) with 4 in *; change (inject_Z 5) with 5 in *;
    repeat match goal with
    | |- context [if ?c then _ else _] =>
        let E := fresh "E" in destruct c eqn:E; qbool; try lra
    end; reflexivity.
Qed.

Lemma Qmax3_spec (x y z : Q) :
  let M := Qmax (Qmax x y) z in
  x <= M /\ y <= M /\ z <= M /\ (M == x \/ M == y \/ M == z).
Proof.
  intros M. subst M.
  destruct (Q.max_spec x y) as [[? H1]|[? H1]];
  destruct (Q.max_spec (Qmax x y) z) as [[? H2]|[? H2]];
  rewrite H1 in *; rewrite H2; repeat split; try lra; auto.
Qed.

Lemma Qmin3_spec (x y z : Q) :
  let m := Qmin (Qmin x y) z in
  m <= x /\ m <= y /\ m <= z /\ (m == x \/ m == y \/ m == z).
Proof.
  intros M. subst M.
  destruct (Q.min_spec x y) as [[? H1]|[? H1]];
  destruct (Q.min_spec (Qmin x y) z) as [[? H2]|[? H2]];
  rewrite H1 in *; rewrite H2; repeat split; try lra; auto.
Qed.

(** Within a sextant pair, [hh % 2] is [hh] less an even integer. *)
Lemma sextant_X (hh : Q) (k : Z) :
  (0 <= k < 3)%Z ->
  inject_Z (2 * k) <= hh -> hh < inject_Z (2 * k) + 2 ->
  js_rem hh 2 - 1 == hh - inject_Z (2 * k) - 1.
Proof.
  intros Hk Hlo Hhi. rewrite inject_Z_mult in *. change (inject_Z 2) with 2 in *.
  rewrite (js_rem_shift hh 2 k); [ring|lia|lra|lra|lra].
Qed.

Lemma hue_sextant (R G B : Q) :
  let M := Qmax (Qmax R G) B in
  let mn := Qmin (Qmin R G) B in
  let d := M - mn in
  let hh := js_rem (hueOf R G B M d) 360 / 60 in
  let X := d * (1 - Qabs (js_rem hh 2 - 1)) in
  let '(r1, g1, b1) := sextant hh d X in
  r1 + mn == R /\ g1 + mn == G /\ b1 + mn == B.
Proof.
  intros M mn d hh X.
  destruct (Qmax3_spec R G B) as (M1 & M2 & M3 & M4). fold M in M1, M2, M3, M4.
  destruct (Qmin3_spec R G B) as (m1 & m2 & m3 & m4). fold mn in m1, m2, m3, m4.
  clearbody M mn.
  unfold hueOf in hh.
  destruct (d =? 0) eqn:Ed; qbool; cbn [negb] in hh.
  - (* achromatic *)
    assert (Hhh : hh == 0).
    { unfold hh. rewrite js_rem_small by lra. reflexivity. }
    rewrite (sextant_case hh d X 0); [|change (inject_Z 0) with 0; lra..|lia].
    assert (HX : X == 0) by (unfold X; rewrite Ed; ring).
    unfold d in *. repeat split; lra.
  - assert (Hd : 0 < d) by (unfold d in *; lra).
    assert (Hdn : ~ d == 0) by lra.
    destruct (M =? R) eqn:EM; qbool.
    + (* red is the maximum *)
      pose proof (Qdiv_mult_cancel (G - B) d Hdn) as Hq.
      set (q := (G - B) / d) in *.
      assert (Hq1 : -1 <= q /\ q <= 1) by (unfold d in *; split; nra).
      assert (Hr : js_rem q 6 == q) by (apply js_rem_small; lra).
      destruct (js_rem q 6 * 60 <? 0) eqn:En; qbool.
      * assert (Hhh : hh == q + 6).
        { unfold hh. rewrite js_rem_small by lra. rewrite Hr. field. }
        rewrite (sextant_case hh d X 5); [|change (inject_Z 5) with 5; lra..|lia].
        assert (HX : X == - (d * q)).
        { unfold X. rewrite (sextant_X hh 2); [|lia|change (inject_Z (2*2)) with 4; lra..].
          change (inject_Z (2*2)) with 4. rewrite Hhh. rewrite Qabs_pos by lra. ring. }
        unfold d in *. repeat split; nra.
      * destruct (Qlt_le_dec q 1) as [Hlt|Hge].
        -- assert (Hhh : hh == q).
           { unfold hh. rewrite js_rem_small by lra. rewrite Hr. field. }
           rewrite (sextant_case hh d X 0); [|change (inject_Z 0) with 0; lra..|lia].
           assert (HX : X == d * q).
           { unfold X. rewrite (sextant_X hh 0); [|lia|change (inject_Z (2*0)) with 0; lra..].
             change (inject_Z (2*0)) with 0. rewrite Hhh. rewrite Qabs_neg by lra. ring. }
           unfold d in *. repeat split; nra.
        -- assert (Hhh : hh == 1).
           { unfold hh. rewrite js_rem_small by lra. rewrite Hr. 
             assert (q == 1) as -> by lra. reflexivity. }
           rewrite (sextant_case hh d X 1); [|change (inject_Z 1) with 1; lra..|lia].
           assert (HX : X == d).
           { unfold X. rewrite (sextant_X hh 0); [|lia|change (inject_Z (2*0)) with 0; lra..].
             change (inject_Z (2*0)) with 0. rewrite Hhh. rewrite Qabs_pos by lra. ring. }
           unfold d in *. repeat split; nra.
    + destruct (M =? G) eqn:EG; qbool.
      * (* green is the maximum *)
        pose proof (Qdiv_mult_cancel (B - R) d Hdn) as Hq.
        set (q := (B - R) / d) in *.
        assert (Hq1 : -1 < q /\ q <= 1) by (unfold d in *; split; nra).
        destruct ((q + 2) * 60 <? 0) eqn:En; qbool; [lra|].
        assert (Hhh : hh == q + 2).
        { unfold hh. rewrite js_rem_small by lra. field. }
        destruct (Qlt_le_dec q 0) as [Hneg|Hpos]; [|destruct (Qlt_le_dec q 1) as [Hlt|Hge]].
        -- rewrite (sextant_case hh d X 1); [|change (inject_Z 1) with 1; lra..|lia].
           assert (HX : X == - (d * q)).
           { unfold X. rewrite (sextant_X hh 0); [|lia|change (inject_Z (2*0)) with 0; lra..].
             change (inject_Z (2*0)) with 0. rewrite Hhh. rewrite Qabs_pos by lra. ring. }
           unfold d in *. repeat split; nra.
        -- rewrite (sextant_case hh d X 2); [|change (inject_Z 2) with 2; lra..|lia].
           assert (HX : X == d * q).
           { unfold X. rewrite (sextant_X hh 1); [|lia|change (inject_Z (2*1)) with 2; lra..].
             change (inject_Z (2*1)) with 2. rewrite Hhh. rewrite Qabs_neg by lra. ring. }
           unfold d in *. repeat split; nra.
        -- rewrite (sextant_case hh d X 3); [|change (inject_Z 3) with 3; lra..|lia].
           assert (HX : X == d).
           { unfold X. rewrite (sextant_X hh 1); [|lia|change (inject_Z (2*1)) with 2; lra..].
             change (inject_Z (2*1)) with 2. rewrite Hhh. rewrite Qabs_pos by lra.
             assert (q == 1) as -> by lra. ring. }
           unfold d in *. repeat split; nra.
      * (* blue is the maximum *)
        pose proof (Qdiv_mult_cancel (R - G) d Hdn) as Hq.
        set (q := (R - G) / d) in *.
        assert (Hq1 : -1 < q /\ q < 1) by (unfold d in *; split; nra).
        destruct ((q + 4) * 60 <? 0) eqn:En; qbool; [lra|].
        assert (Hhh : hh == q + 4).
        { unfold hh. rewrite js_rem_small by lra. field. }
        destruct (Qlt_le_dec q 0) as [Hneg|Hpos].
        -- rewrite (sextant_case hh d X 3); [|change (inject_Z 3) with 3; lra..|lia].
           assert (HX : X == - (d * q)).
           { unfold X. rewrite (sextant_X hh 1); [|lia|change (inject_Z (2*1)) with 2; lra..].
             change (inject_Z (2*1)) with 2. rewrite Hhh. rewrite Qabs_pos by lra. ring. }
           unfold d in *. repeat split; nra.
        -- rewrite (sextant_case hh d X 4); [|change (inject_Z 4) with 4; lra..|lia].
           assert (HX : X == d * q).
           { unfold X. rewrite (sextant_X hh 2); [|lia|change (inject_Z (2*2)) with 4; lra..].
             change (inject_Z (2*2)) with 4. rewrite Hhh. rewrite Qabs_neg by lra. ring. }
           unfold d in *. repeat split; nra.
Qed.

Lemma rgbToHsl_unfold (r g b : Q) :
  rgbToHsl r g b =
  let R := r / 255 in
  let G := g / 255 in
  let B := b / 255 in
  let M := Qmax (Qmax R G) B in
  let mn := Qmin (Qmin R G) B in
  let l := (M + mn) / 2 in
  mkHSL (hueOf R G B M (M - mn))
        (if M - mn =? 0 then 0 else (M - mn) / (1 - Qabs (2 * l - 1))) l.
Proof. reflexivity. Qed.

Lemma rgbToHsv_unfold (r g b : Q) :
  rgbToHsv r g b =
  let R := r / 255 in
  let G := g / 255 in
  let B := b / 255 in
  let M := Qmax (Qmax R G) B in
  let mn := Qmin (Qmin R G) B in
  mkHSV (hueOf R G B M (M - mn)) (if M =? 0 then 0 else (M - mn) / M) M.
Proof. reflexivity. Qed.

Lemma hsvToRgb_unfold (h s v : Q) :
  hsvToRgb h s v =
  let C := v * s in
  let hh := js_rem h 360 / 60 in
  let X := C * (1 - Qabs (js_rem hh 2 - 1)) in
  round_channels (sextant hh C X) (v - C).
Proof. reflexivity. Qed.

(** Rounding the selected channels respects rational equality. *)
Lemma round_sextant_compat (hh hh' C C' X X' m m' : Q) :
  hh == hh' -> C == C' -> X == X' -> m == m' ->
  round_channels (sextant hh C X) m = round_channels (sextant hh' C' X') m'.
Proof.
  intros Hh HC HX Hm. unfold sextant.
  rewrite !(Qleb_comp _ _ (Qeq_refl _) _ _ Hh).
  rewrite !(Qlt_bool_Proper _ _ Hh _ _ (Qeq_refl _)).
  repeat match goal with
  | |- context [if ?c then _ else _] => destruct c
  end; unfold round_channels; now rewrite ?HC, ?HX, ?Hm.
Qed.

Lemma clamp255_id (n : Z) : (0 <= n <= 255)%Z -> clamp255 n = n.
Proof. unfold clamp255. lia. Qed.

Lemma round_channels_exact (p : Q * Q * Q) (m : Q) (r g b : Z) :
  (0 <= r <= 255)%Z -> (0 <= g <= 255)%Z -> (0 <= b <= 255)%Z ->
  (let '(r1, g1, b1) := p in
   r1 + m == inject_Z r / 255 /\ g1 + m == inject_Z g / 255 /\
   b1 + m == inject_Z b / 255) ->
  round_channels p m = mkRGB r g b.
Proof.
  intros Hr Hg Hb. destruct p as [[r1 g1] b1]. intros (H1 & H2 & H3).
  unfold round_channels.
  assert (E : forall x (n : Z), x == inject_Z n / 255 -> js_round (x * 255) = n).
  { intros x n Hx. rewrite Hx.
    assert (Hn : inject_Z n / 255 * 255 == inject_Z n) by field.
    rewrite Hn. apply js_round_inject_Z. }
  rewrite (E _ _ H1), (E _ _ H2), (E _ _ H3).
  now rewrite !clamp255_id.
Qed.

Lemma channel_unit (n : Z) :
  (0 <= n <= 255)%Z -> 0 <= inject_Z n / 255 /\ inject_Z n / 255 <= 1.
Proof.
  intros [Hlo Hhi].
  rewrite Zle_Qle in Hlo, Hhi.
  change (inject_Z 0) with 0 in Hlo. change (inject_Z 255) with 255 in Hhi.
  assert (E : inject_Z n / 255 * 255 == inject_Z n) by field.
  set (q := inject_Z n / 255) in *. lra.
Qed.

(** The exact round trips behind the tolerance of the specification. *)
Lemma rgbToHsl_hslToRgb (r g b : Z) :
  (0 <= r <= 255)%Z -> (0 <= g <= 255)%Z -> (0 <= b <= 255)%Z ->
  let c := rgbToHsl (inject_Z r) (inject_Z g) (inject_Z b) in
  hslToRgb (hsl_h c) (hsl_s c) (hsl_l c) = mkRGB r g b.
Proof.
  intros Hr Hg Hb c.
  destruct (channel_unit r Hr) as [Hr0 Hr1].
  destruct (channel_unit g Hg) as [Hg0 Hg1].
  destruct (channel_unit b Hb) as [Hb0 Hb1].
  rewrite hslToRgb_unfold. subst c. rewrite rgbToHsl_unfold.
  cbv zeta. cbn [hsl_h hsl_s hsl_l].
  set (R := inject_Z r / 255) in *. set (G := inject_Z g / 255) in *.
  set (B := inject_Z b / 255) in *.
  pose proof (hue_sextant R G B) as HS. cbv zeta in HS.
  destruct (Qmax3_spec R G B) as (M1 & M2 & M3 & M4).
  destruct (Qmin3_spec R G B) as (m1 & m2 & m3 & m4).
  set (M := Qmax (Qmax R G) B) in *. set (mn := Qmin (Qmin R G) B) in *.
  set (hh := js_rem (hueOf R G B M (M - mn)) 360 / 60) in *.
  set (l := (M + mn) / 2).
  set (s := if M - mn =? 0 then 0 else (M - mn) / (1 - Qabs (2 * l - 1))).
  assert (HC : (1 - Qabs (2 * l - 1)) * s == M - mn).
  { unfold s. destruct (M - mn =? 0) eqn:E; qbool.
    - rewrite E. ring.
    - assert (Hl : 2 * l - 1 == M + mn - 1) by (unfold l; field).
      assert (Habs : Qabs (2 * l - 1) < 1).
      { apply Qabs_Qlt_condition. lra. }
      field. lra. }
  assert (Hm : l - (1 - Qabs (2 * l - 1)) * s / 2 == mn).
  { rewrite HC. unfold l. field. }
  rewrite (round_sextant_compat hh hh _ (M - mn) _
             ((M - mn) * (1 - Qabs (js_rem hh 2 - 1))) _ mn);
    [|reflexivity|exact HC|now rewrite HC|exact Hm].
  apply round_channels_exact; assumption.
Qed.

Lemma rgbToHsv_hsvToRgb (r g b : Z) :
  (0 <= r <= 255)%Z -> (0 <= g <= 255)%Z -> (0 <= b <= 255)%Z ->
  let c := rgbToHsv (inject_Z r) (inject_Z g) (inject_Z b) in
  hsvToRgb (hsv_h c) (hsv_s c) (hsv_v c) = mkRGB r g b.
Proof.
  intros Hr Hg Hb c.
  destruct (channel_unit r Hr) as [Hr0 Hr1].
  destruct (channel_unit g Hg) as [Hg0 Hg1].
  destruct (channel_unit b Hb) as [Hb0 Hb1].
  rewrite hsvToRgb_unfold. subst c. rewrite rgbToHsv_unfold.
  cbv zeta. cbn [hsv_h hsv_s hsv_v].
  set (R := inject_Z r / 255) in *. set (G := inject_Z g / 255) in *.
  set (B := inject_Z b / 255) in *.
  pose proof (hue_sextant R G B) as HS. cbv zeta in HS.
  destruct (Qmax3_spec R G B) as (M1 & M2 & M3 & M4).
  destruct (Qmin3_spec R G B) as (m1 & m2 & m3 & m4).
  set (M := Qmax (Qmax R G) B) in *. set (mn := Qmin (Qmin R G) B) in *.
  set (hh := js_rem (hueOf R G B M (M - mn)) 360 / 60) in *.
  set (s := if M =? 0 then 0 else (M - mn) / M).
  assert (HC : M * s == M - mn).
  { unfold s. destruct (M =? 0) eqn:E; qbool.
    - lra.
    - field. exact E. }
  assert (Hm : M - M * s == mn) by (rewrite HC; ring).
  rewrite (round_sextant_compat hh hh _ (M - mn) _
             ((M - mn) * (1 - Qabs (js_rem hh 2 - 1))) _ mn);
    [|reflexivity|exact HC|now rewrite HC|exact Hm].
  apply round_channels_exact; assumption.
Qed.

(** C1. For every RGB triple with integer channels in [0,255], converting to
    HSL with [rgbToHsl] and back with [hslToRgb] reproduces every channel
    within 1, and so does the round trip through HSV ([rgbToHsv], then the
    HSV to RGB direction as the specification describes it). *)
Theorem rgb_roundtrip_within_one (r g b : Z) :
  (0 <= r <= 255)%Z -> (0 <= g <= 255)%Z -> (0 <= b <= 255)%Z ->
  let hsl := rgbToHsl (inject_Z r) (inject_Z g) (inject_Z b) in
  let hsv := rgbToHsv (inject_Z r) (inject_Z g) (inject_Z b) in
  let viaHsl := hslToRgb (hsl_h hsl) (hsl_s hsl) (hsl_l hsl) in
  let viaHsv := hsvToRgb (hsv_h hsv) (hsv_s hsv) (hsv_v hsv) in
  (Z.abs (rgb_r viaHsl - r) <= 1 /\ Z.abs (rgb_g viaHsl - g) <= 1 /\
   Z.abs (rgb_b viaHsl - b) <= 1)%Z /\
  (Z.abs (rgb_r viaHsv - r) <= 1 /\ Z.abs (rgb_g viaHsv - g) <= 1 /\
   Z.abs (rgb_b viaHsv - b) <= 1)%Z.
Proof.
  intros Hr Hg Hb hsl hsv viaHsl viaHsv.
  subst viaHsl viaHsv hsl hsv.
  rewrite (rgbToHsl_hslToRgb r g b Hr Hg Hb).
  rewrite (rgbToHsv_hsvToRgb r g b Hr Hg Hb).
  cbn [rgb_r rgb_g rgb_b]. lia.
Qed.

Lemma rgb_roundtrip_within_one_witness :
  let hsl := rgbToHsl 200 10 30 in
  let hsv := rgbToHsv 200 10 30 in
  let viaHsl := hslToRgb (hsl_h hsl) (hsl_s hsl) (hsl_l hsl) in
  let viaHsv := hsvToRgb (hsv_h hsv) (hsv_s hsv) (hsv_v hsv) in
  (Z.abs (rgb_r viaHsl - 200) <= 1 /\ Z.abs (rgb_g viaHsl - 10) <= 1 /\
   Z.abs (rgb_b viaHsl - 30) <= 1)%Z /\
  (Z.abs (rgb_r viaHsv - 200) <= 1 /\ Z.abs (rgb_g viaHsv - 10) <= 1 /\
   Z.abs (rgb_b viaHsv - 30) <= 1)%Z.
Proof. apply (rgb_roundtrip_within_one 200 10 30); lia. Defined.

(** ** Harmony angles *)

Lemma degNorm_unique (d x : Q) (k : Z) :
  0 <= x -> x < 360 -> x == d + 360 * inject_Z k -> degNorm d == x.
Proof.
  intros Hlo Hhi Hx.
  destruct (degNorm_range d) as [Dlo Dhi].
  destruct (degNorm_congr d) as [j Hj].
  assert (Hjk : (j - k = 0)%Z).
  { assert (A : inject_Z (j - k) < 1).
    { unfold Z.sub. rewrite inject_Z_plus, inject_Z_opp. lra. }
    assert (B : -1 < inject_Z (j - k)).
    { unfold Z.sub. rewrite inject_Z_plus, inject_Z_opp. lra. }
    change 1 with (inject_Z 1) in A. change (-1) with (inject_Z (-1)) in B.
    rewrite <- Zlt_Qlt in A, B. lia. }
  assert (j = k) by lia. subst j. lra.
Qed.

(** Normalising the base first does not change a normalised sum. *)
Lemma degNorm_shift (theta off : Q) :
  degNorm (degNorm theta + off) == degNorm (theta + off).
Proof.
  destruct (degNorm_congr theta) as [j Hj].
  destruct (degNorm_range (degNorm theta + off)) as [Dlo Dhi].
  destruct (degNorm_congr (degNorm theta + off)) as [i Hi].
  symmetry. apply (degNorm_unique _ _ (i + j)); try assumption.
  rewrite Hi, Hj, inject_Z_plus. ring.
Qed.

Lemma degNorm_plus_0 (theta : Q) : degNorm theta == degNorm (theta + 0).
Proof. apply degNorm_Proper. ring. Qed.


(** ** Temperature bands *)

Ltac qdestruct_bools :=
  repeat match goal with
  | |- context [Qle_bool ?a ?b] =>
      let E := fresh "E" in destruct (Qle_bool a b) eqn:E
  | |- context [Qlt_bool ?a ?b] =>
      let E := fresh "E" in destruct (Qlt_bool a b) eqn:E
  end; qbool.

(** The band the specification derives is not the code's: at 110 degrees the
    label is Warm although 110 lies in the claimed 105-120 gap. *)
Lemma temperatureLabel_neutral_band_counterexample :
  ~ (temperatureLabel 110 = Neutral <-> neutralBand_spec (degNorm 110)).
Proof.
  intros [_ H].
  assert (W : temperatureLabel 110 = Warm) by (vm_compute; reflexivity).
  rewrite W in H.
  assert (N : neutralBand_spec (degNorm 110)).
  { left. split; vm_compute; first [reflexivity | intros; discriminate]. }
  specialize (H N). discriminate.
Qed.

(** C6, amended. With [t = degNorm theta], [temperatureLabel] returns Warm
    iff (t >= 315 or t < 120) and not (75 <= t < 105); otherwise Cool iff
    150 <= t < 285; otherwise Neutral.  The Neutral band is therefore the
    120-150 and 285-315 gaps plus the 75-105 warm exclusion. *)
Theorem temperatureLabel_bands (theta : Q) :
  let t := degNorm theta in
  (temperatureLabel theta = Warm <-> warmHue t) /\
  (temperatureLabel theta = Cool <-> ~ warmHue t /\ coolHue t) /\
  (temperatureLabel theta = Neutral <-> ~ warmHue t /\ ~ coolHue t) /\
  (temperatureLabel theta = Neutral <-> neutralBand t).
Proof.
  intros t. unfold temperatureLabel. fold t.
  unfold warmHue, coolHue, neutralBand.
  qdestruct_bools; cbn [orb andb negb];
    repeat split; intros; try discriminate; try reflexivity;
    try solve [exfalso; intuition lra]; try solve [intuition lra].
Qed.

(** ** CMYK: the black guard *)

#[global] Instance clamp01_Proper : Proper (Qeq ==> Qeq) clamp01.
Proof. intros x y H. unfold clamp01. now rewrite H. Qed.

Lemma clamp01_range (v : Q) : 0 <= clamp01 v /\ clamp01 v <= 1.
Proof.
  unfold clamp01.
  destruct (Q.max_spec 0 v) as [[? H1]|[? H1]];
  destruct (Q.min_spec 1 (Qmax 0 v)) as [[? H2]|[? H2]];
  rewrite H2; rewrite ?H1 in *; lra.
Qed.

(** Scaling by 255 commutes with the maximum of the three channels. *)
Lemma Qmax3_div255 (r g b : Q) :
  Qmax (Qmax (r / 255) (g / 255)) (b / 255) == Qmax (Qmax r g) b / 255.
Proof.
  destruct (Qmax3_spec (r / 255) (g / 255) (b / 255)) as (A1 & A2 & A3 & A4).
  destruct (Qmax3_spec r g b) as (B1 & B2 & B3 & B4).
  set (M := Qmax (Qmax (r / 255) (g / 255)) (b / 255)) in *.
  set (N := Qmax (Qmax r g) b) in *.
  assert (Er : r / 255 * 255 == r) by field.
  assert (Eg : g / 255 * 255 == g) by field.
  assert (Eb : b / 255 * 255 == b) by field.
  assert (EN : N / 255 * 255 == N) by field.
  set (R := r / 255) in *. set (G := g / 255) in *. set (B := b / 255) in *.
  set (N' := N / 255) in *.
  destruct A4 as [A4|[A4|A4]]; destruct B4 as [B4|[B4|B4]]; lra.
Qed.

(** C8. With [k = 1 - max(r,g,b)/255]: whenever [k >= 1 - 1e-12] the result
    is [{c:0, m:0, y:0, k:1}], returned before any division; in the other
    branch the denominator [1 - k] exceeds [1e-12], the components are the
    clamped quotients and so lie in [0,1]; and [rgbToCmyk(0,0,0)] is exactly
    [{0,0,0,1}]. *)
Theorem rgbToCmyk_black_guard (r g b : Q) :
  let k := 1 - Qmax (Qmax r g) b / 255 in
  let out := rgbToCmyk r g b in
  (1 - 1e-12 <= k -> out = mkCMYK 0 0 0 1) /\
  (k < 1 - 1e-12 ->
     1e-12 < 1 - k /\
     cmyk_c out == clamp01 ((1 - r / 255 - k) / (1 - k)) /\
     cmyk_m out == clamp01 ((1 - g / 255 - k) / (1 - k)) /\
     cmyk_y out == clamp01 ((1 - b / 255 - k) / (1 - k)) /\
     cmyk_k out == clamp01 k /\
     (0 <= cmyk_c out /\ cmyk_c out <= 1) /\
     (0 <= cmyk_m out /\ cmyk_m out <= 1) /\
     (0 <= cmyk_y out /\ cmyk_y out <= 1)) /\
  rgbToCmyk 0 0 0 = mkCMYK 0 0 0 1.
Proof.
  intros k out. subst out. unfold rgbToCmyk.
  pose proof (Qmax3_div255 r g b) as HM.
  set (k' := 1 - Qmax (Qmax (r / 255) (g / 255)) (b / 255)) in *.
  assert (Hk : k' == k) by (unfold k', k; now rewrite HM).
  clearbody k'.
  split; [|split].
  - intros Hge. destruct (1 - 1e-12 <=? k') eqn:E; qbool; [reflexivity|lra].
  - intros Hlt. destruct (1 - 1e-12 <=? k') eqn:E; qbool; [lra|].
    cbn [cmyk_c cmyk_m cmyk_y cmyk_k]. rewrite Hk.
    repeat split; try reflexivity; try apply clamp01_range. lra.
  - reflexivity.
Qed.

Lemma rgbToCmyk_black_guard_witness :
  let out := rgbToCmyk 255 128 0 in
  (0 <= cmyk_c out /\ cmyk_c out <= 1) /\
  (0 <= cmyk_m out /\ cmyk_m out <= 1) /\
  (0 <= cmyk_y out /\ cmyk_y out <= 1).
Proof.
  assert (Hk : 1 - Qmax (Qmax 255 128) 0 / 255 < 1 - 1e-12)
    by (vm_compute; reflexivity).
  pose proof (proj1 (proj2 (rgbToCmyk_black_guard 255 128 0)) Hk) as H.
  cbv zeta in H. cbv zeta. tauto.
Defined.

(** ** Degenerate chromaticities and colour temperature *)

(** The guard constant [1e-12] is positive. *)
Lemma guard_eps_pos : 0 < 1e-12.
Proof. reflexivity. Qed.

Lemma jdiv_finite_not_nan (a d : Q) : ~ d == 0 -> jdiv (JFin a) (JFin d) <> JNaN.
Proof.
  intros Hd. unfold jdiv.
  destruct (d =? 0) eqn:E; qbool; [contradiction|discriminate].
Qed.



(** ** The wheel's colour profile *)

Lemma hslToRgb_compat (h h' s s' l l' : Q) :
  h == h' -> s == s' -> l == l' -> hslToRgb h s l = hslToRgb h' s' l'.
Proof.
  intros Hh Hs Hl. rewrite !hslToRgb_unfold. cbv zeta.
  apply round_sextant_compat; now rewrite ?Hh, ?Hs, ?Hl.
Qed.

Lemma axisMath_laws : MathLaws axisMath.
Proof.
  split.
  - reflexivity.
  - intros y x. cbn [Math_atan2 Math_PI axisMath].
    destruct (Qabs y <? Qabs x);
      [destruct (0 <=? x)|destruct (y =? 0); [|destruct (0 <? y)]];
      split; vm_compute; intros; discriminate.
Qed.

Section WheelProfile.
Context {M : MathLib} {L : MathLaws M}.

(** The angle in degrees stays within half a turn of zero. *)
Lemma atan2_degrees_range (y x : Q) :
  -180 <= Math_atan2 y x * 180 / Math_PI /\ Math_atan2 y x * 180 / Math_PI <= 180.
Proof.
  pose proof Math_PI_pos as Hpi.
  destruct (Math_atan2_range y x) as [Hlo Hhi].
  assert (E : Math_atan2 y x * 180 / Math_PI * Math_PI == Math_atan2 y x * 180)
    by (field; lra).
  set (q := Math_atan2 y x * 180 / Math_PI) in *.
  split; nra.
Qed.

(** [thetaDegFromXY] is the degree-normalised [atan2(dx, -dy)]. *)
Lemma thetaDegFromXY_degNorm (x y : Q) :
  thetaDegFromXY x y ==
  degNorm (Math_atan2 (x - MODEL_cx) (- (y - MODEL_cy)) * 180 / Math_PI).
Proof.
  unfold thetaDegFromXY, degNorm. cbv zeta.
  destruct (atan2_degrees_range (x - MODEL_cx) (- (y - MODEL_cy))) as [Hlo Hhi].
  set (deg := Math_atan2 (x - MODEL_cx) (- (y - MODEL_cy)) * 180 / Math_PI) in *.
  now rewrite (js_rem_small deg 360) by lra.
Qed.

(** C2. Inside the band [R_inner <= r <= R_color] the colour of
    [wheelColorAt] is [hslToRgb(theta, s2, l2)] for the angle, the radial
    fraction, the saturation and lightness profile and the rim boost of the
    specification; outside the band the lookup returns no colour. *)
Theorem wheelColorAt_profile (x y : Q) :
  let r := radiusFromXY x y in
  (MODEL_R_inner <= r /\ r <= MODEL_R_color ->
   exists c : WheelColor,
     wheelColorAt x y = Some c /\
     mkRGB (wc_r c) (wc_g c) (wc_b c) = wheelColor_spec x y /\
     wc_theta c ==
       degNorm (Math_atan2 (x - MODEL_cx) (- (y - MODEL_cy)) * 180 / Math_PI) /\
     wc_f c == clamp01 ((r - MODEL_R_inner) / (MODEL_R_color - MODEL_R_inner)))
  /\
  (~ (MODEL_R_inner <= r /\ r <= MODEL_R_color) -> wheelColorAt x y = None).
Proof.
  intros r. unfold wheelColorAt. fold r.
  destruct ((MODEL_R_color <? r) || (r <? MODEL_R_inner)) eqn:G.
  - split; [|reflexivity].
    intros [Hlo Hhi]. exfalso.
    apply orb_true_iff in G. destruct G as [G|G]; qbool; lra.
  - apply orb_false_iff in G. destruct G as [G1 G2]. qbool.
    split; [|intros H; exfalso; apply H; split; assumption].
    intros _. eexists. split; [reflexivity|].
    cbn [wc_r wc_g wc_b wc_theta wc_f].
    split; [|split; [apply thetaDegFromXY_degNorm|reflexivity]].
    unfold wheelColor_spec. cbv zeta.
    change (Math_sqrt ((x - MODEL_cx) * (x - MODEL_cx) +
                       (y - MODEL_cy) * (y - MODEL_cy))) with r.
    set (f := clamp01 ((r - MODEL_R_inner) / (MODEL_R_color - MODEL_R_inner))).
    assert (Hb : (if 0.84 <? f then (f - 0.84) / (1 - 0.84) else 0) ==
                 (if 0.84 <? f then (f - 0.84) / 0.16 else 0)).
    { destruct (0.84 <? f); [field|reflexivity]. }
    match goal with
    | |- mkRGB (rgb_r ?c) (rgb_g ?c) (rgb_b ?c) = _ =>
        transitivity c; [destruct c; reflexivity|]
    end.
    apply hslToRgb_compat.
    + apply thetaDegFromXY_degNorm.
    + now rewrite Hb.
    + now rewrite Hb.
Qed.

End WheelProfile.

Lemma wheelColorAt_profile_witness :
  exists c : WheelColor,
    wheelColorAt (M := axisMath) 800 300 = Some c /\
    mkRGB (wc_r c) (wc_g c) (wc_b c) = wheelColor_spec (M := axisMath) 800 300.
Proof.
  destruct (proj1 (wheelColorAt_profile (M := axisMath) (L := axisMath_laws) 800 300))
    as (c & H1 & H2 & _).
  - split; vm_compute; intros; discriminate.
  - exists c. split; assumption.
Defined.

(** ** Probing: the complement *)

Section ProbeComplement.
Context {M : MathLib}.

(** C10. Every sample a probe produces belongs to the probed point: its
    offscreen position is [canvasToOff] of the point, its radius and angle
    are those of that position, and its colour is the bitmap pixel there.
    The complement is present iff the sample is flagged inside, that is
    iff the probed radius lies in [R_inner, R_color]; when present its
    angle is [(theta + 180) % 360] and its colour is the pixel the
    offscreen canvas holds at that angle and at the sample's own radius,
    with the hex string of that colour. *)
Theorem sampleAtCanvas_complement (stage : Stage) (pt : Point) (s : Sample) :
  sampleAtCanvas stage pt = Some s ->
  let o := canvasToOff stage pt in
  (s_xCanvas s = pt_x pt /\ s_yCanvas s = pt_y pt /\
   s_xOff s = pt_x o /\ s_yOff s = pt_y o) /\
  (s_r s = radiusFromXY (pt_x o) (pt_y o) /\
   s_theta s = thetaDegFromXY (pt_x o) (pt_y o)) /\
  (s_comp s <> None <-> s_inside s = true) /\
  (s_inside s = true <-> MODEL_R_inner <= s_r s /\ s_r s <= MODEL_R_color) /\
  (exists getPixel : Z -> Z -> RGB,
     offCtx stage = Some getPixel /\
     s_rgb s = getPixel (pixelIndex (pt_x o)) (pixelIndex (pt_y o)) /\
     (forall c : Complement, s_comp s = Some c ->
        comp_theta c = js_rem (s_theta s + 180) 360 /\
        let rad := comp_theta c * Math_PI / 180 in
        comp_rgb c =
          getPixel (pixelIndex (MODEL_cx + Math_sin rad * s_r s))
                   (pixelIndex (MODEL_cy + - Math_cos rad * s_r s)) /\
        comp_hex c =
          rgbToHex (rgb_r (comp_rgb c)) (rgb_g (comp_rgb c)) (rgb_b (comp_rgb c)))).
Proof.
  intros H o. revert H. unfold sampleAtCanvas. fold o.
  assert (Hread : forall px a b, offCtx stage = Some px -> readOffRgb stage a b = px a b).
  { intros px a b E. unfold readOffRgb. now rewrite E. }
  destruct (offCtx stage) as [px|] eqn:Ectx; [|discriminate].
  specialize (Hread px). clearbody o.
  destruct ((pt_x o <? 0) || (pt_y o <? 0) || (OFF_SIZE <=? pt_x o) || (OFF_SIZE <=? pt_y o));
    [discriminate|].
  rewrite (Hread _ _ eq_refl).
  destruct (px (pixelIndex (pt_x o)) (pixelIndex (pt_y o))) as [r g b] eqn:Ergb.
  set (rr := radiusFromXY (pt_x o) (pt_y o)).
  intros H. injection H as <-.
  cbn [s_xCanvas s_yCanvas s_xOff s_yOff s_r s_theta s_comp s_inside s_rgb].
  split; [repeat split; reflexivity|]. split; [split; reflexivity|].
  destruct ((rr <=? MODEL_R_color) && (MODEL_R_inner <=? rr)) eqn:Ein.
  - qbool. split; [split; [reflexivity|discriminate]|].
    split; [split; [intros _; split; assumption|reflexivity]|].
    exists px. split; [reflexivity|]. split; [exact (eq_sym Ergb)|].
    intros c Hc. injection Hc as <-. cbn [comp_theta comp_rgb comp_hex]. cbv zeta.
    rewrite (Hread _ _ eq_refl). repeat split; reflexivity.
  - split; [split; [intros H; now elim H|discriminate]|].
    split.
    + split; [discriminate|]. intros [Hlo Hhi].
      apply andb_false_iff in Ein. destruct Ein; qbool; lra.
    + exists px. split; [reflexivity|]. split; [exact (eq_sym Ergb)|]. discriminate.
Qed.

End ProbeComplement.

Lemma sampleAtCanvas_complement_witness :
  match sampleAtCanvas (M := axisMath) axisStage (mkPoint 800 300) with
  | Some s =>
      s_r s == 500 /\ s_theta s == 0 /\ s_inside s = true /\
      s_rgb s = mkRGB 192 63 63 /\
      exists c : Complement,
        s_comp s = Some c /\ comp_theta c == 180 /\
        comp_rgb c = mkRGB 63 192 192 /\ comp_hex c = "#3fc0c0"%string
  | None => False
  end.
Proof.
  destruct (sampleAtCanvas (M := axisMath) axisStage (mkPoint 800 300)) as [s|] eqn:E.
  - destruct (sampleAtCanvas_complement (M := axisMath) axisStage (mkPoint 800 300) s E)
      as (_ & (Hr & Ht) & Hcomp & Hin & (px & Hpx & Hrgb & Hc)).
    assert (Er : s_r s == 500) by (rewrite Hr; vm_compute; reflexivity).
    assert (Et : s_theta s == 0) by (rewrite Ht; vm_compute; reflexivity).
    assert (Ei : s_inside s = true).
    { apply Hin. rewrite Hr. split; vm_compute; intros; discriminate. }
    injection Hpx as <-.
    split; [exact Er|]. split; [exact Et|]. split; [exact Ei|].
    split; [rewrite Hrgb; vm_compute; reflexivity|].
    destruct (s_comp s) as [c|] eqn:Ec; [|exfalso; now apply Hcomp].
    exists c. split; [reflexivity|].
    destruct (Hc c eq_refl) as (Hth & Hcrgb & Hhex).
    assert (Ecrgb : comp_rgb c = mkRGB 63 192 192).
    { rewrite Hcrgb, Hth, Ht, Hr. vm_compute. reflexivity. }
    split; [rewrite Hth, Ht; vm_compute; reflexivity|].
    split; [exact Ecrgb|]. rewrite Hhex, Ecrgb. vm_compute. reflexivity.
  - vm_compute in E. discriminate E.
Defined.

(** ** The palette *)

Lemma sameHex_iff (p q : PaletteSwatch) : sameHex p q = true <-> hexKey p = hexKey q.
Proof. unfold sameHex, hexKey. apply String.eqb_eq. Qed.

Lemma existsb_sameHex_iff (sw : PaletteSwatch) (l : list PaletteSwatch) :
  existsb (fun p => sameHex p sw) l = true <-> In (hexKey sw) (map hexKey l).
Proof.
  rewrite existsb_exists, in_map_iff. split.
  - intros (p & Hin & Hp). exists p. split; [now apply sameHex_iff|assumption].
  - intros (p & Hp & Hin). exists p. split; [assumption|now apply sameHex_iff].
Qed.

Lemma existsb_sameHex_false (sw : PaletteSwatch) (l : list PaletteSwatch) :
  existsb (fun p => sameHex p sw) l = false <-> ~ In (hexKey sw) (map hexKey l).
Proof.
  rewrite <- existsb_sameHex_iff. destruct (existsb _ l); split; congruence.
Qed.

Lemma NoDup_map_firstn {A B : Type} (f : A -> B) (n : nat) (l : list A) :
  NoDup (map f l) -> NoDup (map f (firstn n l)).
Proof.
  revert n. induction l as [|a l IH]; intros [|n] H; cbn; try constructor.
  - inversion_clear H as [|? ? Hnin Hnd].
    intros Hin. apply Hnin. apply in_map_iff in Hin. destruct Hin as (x & Hx & Hin).
    apply in_map_iff. exists x. split; [assumption|].
    rewrite <- (firstn_skipn n l). apply in_or_app. now left.
  - inversion_clear H. now apply IH.
Qed.

Lemma NoDup_map_filter {A B : Type} (f : A -> B) (keep : A -> bool) (l : list A) :
  NoDup (map f l) -> NoDup (map f (filter keep l)).
Proof.
  induction l as [|a l IH]; intros H; cbn; [constructor|].
  inversion_clear H as [|? ? Hnin Hnd].
  destruct (keep a); cbn; [constructor|]; auto.
  intros Hin. apply Hnin. apply in_map_iff in Hin. destruct Hin as (x & Hx & Hin).
  apply in_map_iff. exists x. split; [assumption|].
  apply filter_In in Hin. tauto.
Qed.

Lemma slice24_ok (l : list PaletteSwatch) : NoDup (map hexKey l) -> paletteOk (slice24 l).
Proof.
  intros H. split.
  - unfold slice24. rewrite length_firstn. lia.
  - now apply NoDup_map_firstn.
Qed.

Lemma insertSwatch_ok (sw : PaletteSwatch) (prev : list PaletteSwatch) :
  paletteOk prev -> paletteOk (insertSwatch sw prev).
Proof.
  intros [Hlen Hnd]. unfold insertSwatch.
  destruct (existsb (fun p => sameHex p sw) prev) eqn:E; [now split|].
  apply slice24_ok. cbn. constructor; [|assumption].
  now apply existsb_sameHex_false.
Qed.

(** The deduplicating loop keeps its accumulator free of repeated keys. *)
Lemma dedupe_NoDup (merged uniq : list PaletteSwatch) :
  NoDup (map hexKey uniq) ->
  NoDup (map hexKey
    (fold_left
       (fun uniq s => if negb (existsb (fun u => sameHex u s) uniq)
                      then uniq ++ [s] else uniq)
       merged uniq)).
Proof.
  revert uniq. induction merged as [|s merged IH]; intros uniq H; cbn; [assumption|].
  apply IH. destruct (existsb (fun u => sameHex u s) uniq) eqn:E; cbn; [assumption|].
  apply existsb_sameHex_false in E.
  rewrite map_app. cbn. apply NoDup_app; [assumption|repeat constructor; intros []|].
  intros a Ha [<-|[]]. contradiction.
Qed.

Lemma mergeSwatches_ok (news prev : list PaletteSwatch) :
  paletteOk (mergeSwatches news prev).
Proof.
  unfold mergeSwatches. apply slice24_ok. apply dedupe_NoDup. constructor.
Qed.

(** When nothing repeats, the loop copies its input. *)
Lemma dedupe_fresh (merged uniq : list PaletteSwatch) :
  NoDup (map hexKey (uniq ++ merged)) ->
  fold_left
    (fun uniq s => if negb (existsb (fun u => sameHex u s) uniq)
                   then uniq ++ [s] else uniq)
    merged uniq = uniq ++ merged.
Proof.
  revert uniq. induction merged as [|s merged IH]; intros uniq H; cbn.
  - now rewrite app_nil_r.
  - assert (E : existsb (fun u => sameHex u s) uniq = false).
    { apply existsb_sameHex_false. intros Hin.
      rewrite map_app in H. cbn in H. apply NoDup_remove_2 in H.
      apply H. apply in_or_app. now left. }
    rewrite E. cbn. rewrite IH; rewrite <- app_assoc; [reflexivity|assumption].
Qed.

Lemma removeSwatch_ok (id : string) (prev : list PaletteSwatch) :
  paletteOk prev -> paletteOk (removeSwatch id prev).
Proof.
  intros [Hlen Hnd]. unfold removeSwatch. split.
  - pose proof (filter_length_le (fun p => negb (String.eqb (sw_id p) id)) prev). lia.
  - now apply NoDup_map_filter.
Qed.

Section PaletteInvariant.
Context {M : MathLib}.

Lemma paletteStep_ok (prev : list PaletteSwatch) (a : PaletteAction) :
  paletteOk prev -> paletteOk (paletteStep prev a).
Proof.
  intros H. destruct a as [sample id|stage sample ty ids|tint id|id|]; cbn [paletteStep].
  - unfold addToPalette. destruct sample; [now apply insertSwatch_ok|assumption].
  - unfold addHarmonyToPalette. destruct sample as [sample|]; [|assumption].
    destruct (negb (s_inside sample)); [assumption|apply mergeSwatches_ok].
  - unfold addTintToPalette. now apply insertSwatch_ok.
  - now apply removeSwatch_ok.
  - split; cbn; [lia|constructor].
Qed.

Lemma paletteRun_from_ok (acts : list PaletteAction) (p : list PaletteSwatch) :
  paletteOk p -> paletteOk (fold_left paletteStep acts p).
Proof.
  revert p. induction acts as [|a acts IH]; intros p H; cbn; [assumption|].
  apply IH. now apply paletteStep_ok.
Qed.

(** C7. Every palette reachable from the empty one by add, addHarmony,
    addTint, remove and clear holds at most 24 swatches whose hex strings
    are pairwise distinct up to letter case.  Adding a swatch whose hex
    already occurs (in any letter case) leaves the palette unchanged; a new
    colour goes to the front, the older swatches keep their order behind it
    (the harmony swatches in harmony order), and when the palette is full
    the last, oldest, swatch is dropped. *)
Theorem palette_invariant :
  (forall acts : list PaletteAction, paletteOk (paletteRun acts)) /\
  (forall (sample : Sample) (id : string) (prev : list PaletteSwatch),
     In (toLowerCase (s_hex sample)) (map hexKey prev) ->
     addToPalette (Some sample) id prev = prev) /\
  (forall (tint : TintShadeStep) (id : string) (prev : list PaletteSwatch),
     In (toLowerCase (ts_hex tint)) (map hexKey prev) ->
     addTintToPalette tint id prev = prev) /\
  (forall (sample : Sample) (id : string) (prev : list PaletteSwatch),
     ~ In (toLowerCase (s_hex sample)) (map hexKey prev) ->
     exists sw : PaletteSwatch,
       sw_hex sw = s_hex sample /\
       addToPalette (Some sample) id prev = sw :: firstn 23 prev /\
       (List.length prev = 24%nat ->
        addToPalette (Some sample) id prev = sw :: removelast prev)) /\
  (forall (tint : TintShadeStep) (id : string) (prev : list PaletteSwatch),
     ~ In (toLowerCase (ts_hex tint)) (map hexKey prev) ->
     exists sw : PaletteSwatch,
       sw_hex sw = ts_hex tint /\
       addTintToPalette tint id prev = sw :: firstn 23 prev /\
       (List.length prev = 24%nat ->
        addTintToPalette tint id prev = sw :: removelast prev)) /\
  (forall news prev : list PaletteSwatch,
     NoDup (map hexKey (news ++ prev)) ->
     mergeSwatches news prev = firstn 24 (news ++ prev)).
Proof.
  assert (Fresh : forall sw prev,
            ~ In (hexKey sw) (map hexKey prev) ->
            insertSwatch sw prev = sw :: firstn 23 prev /\
            (List.length prev = 24%nat -> insertSwatch sw prev = sw :: removelast prev)).
  { intros sw prev Hnin. unfold insertSwatch.
    apply existsb_sameHex_false in Hnin. rewrite Hnin.
    split; [reflexivity|]. intros Hlen.
    unfold slice24. cbn [firstn]. f_equal.
    rewrite removelast_firstn_len, Hlen. reflexivity. }
  assert (Dup : forall sw prev,
            In (hexKey sw) (map hexKey prev) -> insertSwatch sw prev = prev).
  { intros sw prev Hin. unfold insertSwatch.
    apply existsb_sameHex_iff in Hin. now rewrite Hin. }
  split; [|split; [|split; [|split; [|split]]]].
  - intros acts. apply paletteRun_from_ok. split; cbn; [lia|constructor].
  - intros sample id prev Hin. unfold addToPalette. now apply Dup.
  - intros tint id prev Hin. unfold addTintToPalette. now apply Dup.
  - intros sample id prev Hnin. unfold addToPalette.
    eexists. split; [|apply Fresh; exact Hnin]. reflexivity.
  - intros tint id prev Hnin. unfold addTintToPalette.
    eexists. split; [|apply Fresh; exact Hnin]. reflexivity.
  - intros news prev H. unfold mergeSwatches, slice24.
    now rewrite (dedupe_fresh (news ++ prev) []).
Qed.

End PaletteInvariant.

Lemma palette_invariant_witness :
  let red := mkRGB 255 0 0 in
  let old := mkPaletteSwatch "a1" "#ff0000" red (rgbToHsl 255 0 0) "Red 0" in
  addTintToPalette (mkTintShadeStep "Base" red "#FF0000") "b2" [old] = [old].
Proof.
  intros red old.
  apply (proj1 (proj2 (proj2 (palette_invariant (M := axisMath))))).
  cbn. left. reflexivity.
Defined.

Local Open Scope R_scope.

(** ** Linear-light mixing *)

Lemma js_round_R_IZR (n : Z) : js_round_R (IZR n) = n.
Proof. unfold js_round_R. apply Zfloor_eq. lra. Qed.

Lemma clamp01_R_id (v : R) : 0 <= v <= 1 -> clamp01_R v = v.
Proof.
  intros [Hlo Hhi]. unfold clamp01_R.
  rewrite (Rmax_right 0 v) by assumption. now apply Rmin_right.
Qed.

Lemma Rpower_one_base (y : R) : Rpower 1 y = 1.
Proof. unfold Rpower. now rewrite ln_1, Rmult_0_r, exp_0. Qed.

(** Raising to [2.4] and then to the fifth power is the twelfth power. *)
Lemma Rpower_12_5 (x : R) : 0 < x -> Rpower (Rpower x 2.4) 5 = x ^ 12.
Proof.
  intros Hx. rewrite Rpower_mult.
  replace (2.4 * 5) with (INR 12) by (simpl; lra).
  now apply Rpower_pow.
Qed.

Lemma Rpower_5_12 (x : R) : 0 < x -> Rpower (Rpower x (1 / 2.4)) 12 = x ^ 5.
Proof.
  intros Hx. rewrite Rpower_mult.
  replace (1 / 2.4 * 12) with (INR 5) by (simpl; lra).
  now apply Rpower_pow.
Qed.

(** The decoding power stays above the encoder's breakpoint. *)
Lemma decode_above_breakpoint (x : R) : 0.093 <= x -> 0.0031308 < Rpower x 2.4.
Proof.
  intros Hx. apply Rnot_le_lt. intros Hle.
  assert (Hpos : 0 < Rpower x 2.4) by apply exp_pos.
  assert (H5 : Rpower (Rpower x 2.4) 5 <= Rpower 0.0031308 5).
  { apply Rle_Rpower_l; lra. }
  rewrite Rpower_12_5 in H5 by lra.
  replace 5 with (INR 5) in H5 by (simpl; lra).
  rewrite Rpower_pow in H5 by lra.
  assert (H12 : 0.093 ^ 12 <= x ^ 12) by (apply pow_incr; lra).
  assert (N : 0.0031308 ^ 5 < 0.093 ^ 12) by lra.
  lra.
Qed.

Lemma srgb_roundtrip (n : Z) :
  (0 <= n <= 255)%Z -> linearToSrgb (srgbToLinear (IZR n)) = n.
Proof.
  intros [Hlo Hhi]. apply IZR_le in Hlo, Hhi.
  unfold linearToSrgb, srgbToLinear.
  destruct (Rle_dec (IZR n / 255) 0.04045) as [Hu|Hu].
  - assert (Hn : (n < 11)%Z) by (apply lt_IZR; lra).
    assert (Hn' : IZR n <= 10) by (apply IZR_le; lia).
    destruct (Rle_dec (IZR n / 255 / 12.92) 0.0031308) as [HL|HL]; [|lra].
    rewrite clamp01_R_id by lra.
    replace (12.92 * (IZR n / 255 / 12.92) * 255) with (IZR n) by lra.
    apply js_round_R_IZR.
  - assert (Hn : (10 < n)%Z) by (apply lt_IZR; lra).
    assert (Hn' : 11 <= IZR n) by (apply IZR_le; lia).
    set (x := (IZR n / 255 + 0.055) / 1.055).
    assert (Hx : 0.093 <= x) by (unfold x; lra).
    pose proof (decode_above_breakpoint x Hx) as HL.
    destruct (Rle_dec (Rpower x 2.4) 0.0031308) as [HL'|_]; [lra|].
    rewrite Rpower_mult.
    replace (2.4 * (1 / 2.4)) with 1 by lra.
    rewrite Rpower_1 by lra.
    rewrite clamp01_R_id by (unfold x; lra).
    replace ((1.055 * x - 0.055) * 255) with (IZR n) by (unfold x; lra).
    apply js_round_R_IZR.
Qed.

Lemma srgbToLinear_0 : srgbToLinear 0 = 0.
Proof.
  unfold srgbToLinear. destruct (Rle_dec (0 / 255) 0.04045); [lra|lra].
Qed.

Lemma srgbToLinear_255 : srgbToLinear 255 = 1.
Proof.
  unfold srgbToLinear. destruct (Rle_dec (255 / 255) 0.04045); [lra|].
  replace ((255 / 255 + 0.055) / 1.055) with 1 by lra.
  apply Rpower_one_base.
Qed.

(** Half of full linear light encodes to 188. *)
Lemma linearToSrgb_half : linearToSrgb (1 / 2) = 188%Z.
Proof.
  unfold linearToSrgb.
  destruct (Rle_dec (1 / 2) 0.0031308); [lra|].
  set (w := Rpower (1 / 2) (1 / 2.4)).
  assert (Hw0 : 0 < w) by apply exp_pos.
  assert (Hw12 : w ^ 12 = 1 / 32).
  { rewrite <- (Rpower_pow 12 w Hw0). unfold w.
    replace (INR 12) with 12 by (simpl; lra).
    rewrite Rpower_5_12 by lra. lra. }
  assert (Hlo : 0.7491 < w).
  { apply Rnot_le_lt. intros Hle.
    assert (w ^ 12 <= 0.7491 ^ 12) by (apply pow_incr; lra). lra. }
  assert (Hhi : w < 0.75).
  { apply Rnot_le_lt. intros Hle.
    assert (0.75 ^ 12 <= w ^ 12) by (apply pow_incr; lra). lra. }
  rewrite clamp01_R_id by lra.
  unfold js_round_R. apply Zfloor_eq. lra.
Qed.

(** C5. For RGB colours [a], [b] with integer channels in [0,255],
    [mixLinearRGB(a,b,0) = a] and [mixLinearRGB(a,b,1) = b]; mixing black and
    white half and half gives every channel strictly between 100 and 200
    (188, the encoded linear midpoint, above the naive 128). *)
Theorem mixLinearRGB_endpoints (a b : RGB) :
  rgb8 a -> rgb8 b ->
  mixLinearRGB a b 0 = a /\
  mixLinearRGB a b 1 = b /\
  let mid := mixLinearRGB (mkRGB 0 0 0) (mkRGB 255 255 255) (1 / 2) in
  mid = mkRGB 188 188 188 /\
  (100 < rgb_r mid < 200)%Z /\ (100 < rgb_g mid < 200)%Z /\
  (100 < rgb_b mid < 200)%Z /\ (128 < rgb_r mid)%Z.
Proof.
  intros (Ar & Ag & Ab) (Br & Bg & Bb).
  destruct a as [ar ag ab], b as [br bg bb]. cbn [rgb_r rgb_g rgb_b] in *.
  unfold mixLinearRGB, rgbToLinearRgb. cbn [rgb_r rgb_g rgb_b lin_r lin_g lin_b].
  split; [|split].
  - replace (srgbToLinear (IZR ar) + (srgbToLinear (IZR br) - srgbToLinear (IZR ar)) * 0)
      with (srgbToLinear (IZR ar)) by ring.
    replace (srgbToLinear (IZR ag) + (srgbToLinear (IZR bg) - srgbToLinear (IZR ag)) * 0)
      with (srgbToLinear (IZR ag)) by ring.
    replace (srgbToLinear (IZR ab) + (srgbToLinear (IZR bb) - srgbToLinear (IZR ab)) * 0)
      with (srgbToLinear (IZR ab)) by ring.
    now rewrite !srgb_roundtrip.
  - replace (srgbToLinear (IZR ar) + (srgbToLinear (IZR br) - srgbToLinear (IZR ar)) * 1)
      with (srgbToLinear (IZR br)) by ring.
    replace (srgbToLinear (IZR ag) + (srgbToLinear (IZR bg) - srgbToLinear (IZR ag)) * 1)
      with (srgbToLinear (IZR bg)) by ring.
    replace (srgbToLinear (IZR ab) + (srgbToLinear (IZR bb) - srgbToLinear (IZR ab)) * 1)
      with (srgbToLinear (IZR bb)) by ring.
    now rewrite !srgb_roundtrip.
  - rewrite srgbToLinear_0, srgbToLinear_255.
    replace (0 + (1 - 0) * (1 / 2)) with (1 / 2) by lra.
    rewrite linearToSrgb_half. cbn [rgb_r rgb_g rgb_b].
    repeat split; lia.
Qed.

Lemma mixLinearRGB_endpoints_witness :
  mixLinearRGB (mkRGB 255 0 0) (mkRGB 0 255 0) 0 = mkRGB 255 0 0 /\
  mixLinearRGB (mkRGB 255 0 0) (mkRGB 0 255 0) 1 = mkRGB 0 255 0.
Proof.
  destruct (mixLinearRGB_endpoints (mkRGB 255 0 0) (mkRGB 0 255 0)) as (H0 & H1 & _).
  - unfold rgb8. cbn. lia.
  - unfold rgb8. cbn. lia.
  - split; assumption.
Defined.

(** ** Tints and shades *)

Lemma for_down_push {A : Type} (f : Z -> A) (n : nat) (arr : list A) :
  for_down (fun i arr => arr ++ [f i]) n arr =
  arr ++ map (fun k => f (Z.of_nat k)) (rev (seq 1 n)).
Proof.
  revert arr. induction n as [|n IH]; intros arr.
  - cbn. now rewrite app_nil_r.
  - cbn [for_down]. rewrite IH, seq_S, rev_app_distr. cbn [rev app map].
    now rewrite <- app_assoc.
Qed.

Lemma for_up_push {A : Type} (f : Z -> A) (from : Z) (n : nat) (arr : list A) :
  for_up (fun i arr => arr ++ [f i]) from n arr =
  arr ++ map (fun k => f (from + Z.of_nat k)%Z) (seq 0 n).
Proof.
  revert from arr. induction n as [|n IH]; intros from arr.
  - cbn. now rewrite app_nil_r.
  - cbn [for_up]. rewrite IH. cbn [seq map]. rewrite <- app_assoc. cbn [app].
    rewrite Z.add_0_r. do 2 f_equal.
    rewrite <- seq_shift, map_map. apply map_ext. intros k. f_equal. lia.
Qed.

(** C3. For every base colour and requested step count the generator
    clamps the count into [3,11], takes [half = floor(steps/2)], and returns
    the [half] tints (lightest first), the unmodified base and the [half]
    shades of the specification, each mixed by [mixLinearRGB]; the ladder
    has an odd number of entries between 3 and 11. *)
Theorem tints_ladder (sample : Sample) (tintSteps : Z) :
  let steps := Z.max 3 (Z.min 11 tintSteps) in
  let half := (steps / 2)%Z in
  (3 <= steps <= 11)%Z /\
  tints (Some sample) tintSteps =
    tintLadder_spec (s_rgb sample) (s_hex sample) tintSteps /\
  List.length (tints (Some sample) tintSteps) = Z.to_nat (2 * half + 1) /\
  (3 <= 2 * half + 1 <= 11)%Z.
Proof.
  intros steps half.
  assert (Hs : (3 <= steps <= 11)%Z) by (unfold steps; lia).
  assert (Hh : (1 <= half <= 5)%Z).
  { unfold half. Z.div_mod_to_equations. lia. }
  assert (E : tints (Some sample) tintSteps =
              tintLadder_spec (s_rgb sample) (s_hex sample) tintSteps).
  { unfold tints, tintLadder_spec. fold steps. fold half. cbv zeta.
    rewrite for_up_push, for_down_push. cbn [app].
    rewrite <- app_assoc. cbn [app].
    apply (f_equal (app _)). apply (f_equal (cons _)).
    rewrite <- seq_shift, map_map. apply map_ext. intros k.
    replace (1 + Z.of_nat k)%Z with (Z.of_nat (S k)) by lia. reflexivity. }
  split; [exact Hs|split; [exact E|split; [|lia]]].
  rewrite E. unfold tintLadder_spec. fold steps. fold half. cbv zeta.
  rewrite !length_app, !length_map, length_rev, !length_seq. cbn [List.length]. lia.
Qed.

Local Close Scope R_scope.

(** * Further properties of the code *)

(** ** Math primitives *)

(** [js_rem] of a non-negative dividend is the representative in [0, n). *)
Lemma js_rem_unique_nonneg (a n x : Q) (k : Z) :
  0 < n -> 0 <= a -> 0 <= x -> x < n -> x == a - n * inject_Z k ->
  js_rem a n == x.
Proof.
  intros Hn Ha Hlo Hhi Hx.
  destruct (js_rem_nonneg a n Hn Ha) as [Rlo Rhi].
  destruct (js_rem_congr a n) as [j Hj].
  assert (Hjk : (j - k = 0)%Z).
  { assert (A : inject_Z (j - k) * n < n).
    { unfold Z.sub. rewrite inject_Z_plus, inject_Z_opp. nra. }
    assert (B : - n < inject_Z (j - k) * n).
    { unfold Z.sub. rewrite inject_Z_plus, inject_Z_opp. nra. }
    assert (A' : inject_Z (j - k) < 1) by nra.
    assert (B' : -1 < inject_Z (j - k)) by nra.
    change 1 with (inject_Z 1) in A'. change (-1) with (inject_Z (-1)) in B'.
    rewrite <- Zlt_Qlt in A', B'. lia. }
  assert (j = k) by lia. subst j. lra.
Qed.

Lemma degNorm_period (d : Q) (k : Z) : degNorm (d + 360 * inject_Z k) == degNorm d.
Proof.
  destruct (degNorm_range d) as [Dlo Dhi].
  destruct (degNorm_congr d) as [j Hj].
  apply (degNorm_unique _ _ (j - k)); try assumption.
  rewrite Hj. unfold Z.sub. rewrite inject_Z_plus, inject_Z_opp. ring.
Qed.

Lemma degNorm_integer (n : Z) : degNorm (inject_Z n) == inject_Z (n mod 360).
Proof.
  pose proof (Z.mod_pos_bound n 360 ltac:(lia)) as [Hlo Hhi].
  apply (degNorm_unique _ _ (- (n / 360))).
  - change 0 with (inject_Z 0). rewrite <- Zle_Qle. exact Hlo.
  - change 360 with (inject_Z 360). rewrite <- Zlt_Qlt. exact Hhi.
  - change 360 with (inject_Z 360).
    rewrite <- inject_Z_mult, <- inject_Z_plus. apply inject_Z_Proper.
    pose proof (Z.div_mod n 360 ltac:(lia)). lia.
Qed.

(** X1. [degNorm] always lands in [0,360).  On integer angles, where the
    floating-point operations of the source are exact, it is the residue
    modulo 360: it fixes 0..359, is idempotent and has period 360.  (For
    fractional angles the source rounds in [(d % 360) + 360], which this
    exact model does not see; nothing is stated about them beyond the
    range.) *)
Theorem degNorm_normal_form (d : Q) (n k : Z) :
  (0 <= degNorm d /\ degNorm d < 360) /\
  degNorm (inject_Z n) == inject_Z (n mod 360) /\
  ((0 <= n < 360)%Z -> degNorm (inject_Z n) == inject_Z n) /\
  degNorm (degNorm (inject_Z n)) == degNorm (inject_Z n) /\
  degNorm (inject_Z (n + 360 * k)) == degNorm (inject_Z n).
Proof.
  split; [apply degNorm_range|].
  split; [apply degNorm_integer|].
  split; [|split].
  - intros Hn. rewrite degNorm_integer. now rewrite Z.mod_small.
  - rewrite !degNorm_integer. now rewrite Z.mod_mod by lia.
  - rewrite !degNorm_integer. apply inject_Z_Proper.
    rewrite (Z.mul_comm 360 k). now rewrite Z.mod_add by lia.
Qed.

Lemma degNorm_normal_form_witness : degNorm (inject_Z 90) == inject_Z 90.
Proof.
  apply (proj1 (proj2 (proj2 (degNorm_normal_form 0 90 0)))). lia.
Defined.

Lemma clamp01_cases (x : Q) :
  (x <= 0 /\ clamp01 x == 0) \/ (0 <= x /\ x <= 1 /\ clamp01 x == x)
  \/ (1 <= x /\ clamp01 x == 1).
Proof.
  unfold clamp01.
  destruct (Q.max_spec 0 x) as [[H1 E1]|[H1 E1]];
  destruct (Q.min_spec 1 (Qmax 0 x)) as [[H2 E2]|[H2 E2]];
  rewrite E2; rewrite ?E1 in *.
  - right. right. split; [lra|reflexivity].
  - right. left. repeat split; lra.
  - right. right. split; [lra|reflexivity].
  - left. split; [lra|reflexivity].
Qed.

Lemma clamp01_id (x : Q) : 0 <= x -> x <= 1 -> clamp01 x == x.
Proof.
  intros H0 H1.
  destruct (clamp01_cases x) as [[V E]|[(V1 & V2 & E)|[V E]]]; lra.
Qed.

(** X2. [clamp01] saturates: its value lies in [0,1], it is the identity
    on [0,1], 0 below and 1 above, it is monotone and idempotent. *)
Theorem clamp01_saturates (v w : Q) :
  (0 <= clamp01 v /\ clamp01 v <= 1) /\
  (0 <= v -> v <= 1 -> clamp01 v == v) /\
  (v <= 0 -> clamp01 v == 0) /\
  (1 <= v -> clamp01 v == 1) /\
  (v <= w -> clamp01 v <= clamp01 w) /\
  clamp01 (clamp01 v) == clamp01 v.
Proof.
  split; [apply clamp01_range|].
  destruct (clamp01_cases v) as [[V E]|[(V1 & V2 & E)|[V E]]];
  destruct (clamp01_cases w) as [[W F]|[(W1 & W2 & F)|[W F]]];
  destruct (clamp01_cases (clamp01 v)) as [[U G]|[(U1 & U2 & G)|[U G]]];
  repeat split; intros; lra.
Qed.

Lemma clamp01_saturates_witness : clamp01 (7 # 2) == 1 /\ clamp01 (-3) <= clamp01 (1 # 4).
Proof.
  split.
  - apply (proj1 (proj2 (proj2 (proj2 (clamp01_saturates (7 # 2) 0))))).
    vm_compute. intros; discriminate.
  - apply (proj1 (proj2 (proj2 (proj2 (proj2 (clamp01_saturates (-3) (1 # 4))))))).
    vm_compute. intros; discriminate.
Defined.

(** ** HSL to RGB: hue handling and greys *)

Lemma hslToRgb_hue_compat (h h' s l : Q) :
  js_rem h 360 == js_rem h' 360 -> hslToRgb h s l = hslToRgb h' s l.
Proof.
  intros H. rewrite !hslToRgb_unfold. cbv zeta.
  apply round_sextant_compat; now rewrite ?H.
Qed.

Lemma clamp255_range (n : Z) : (0 <= clamp255 n <= 255)%Z.
Proof. unfold clamp255. lia. Qed.



Lemma js_rem_add_turns (h : Q) (k : Z) :
  0 <= h -> (0 <= k)%Z -> js_rem (h + 360 * inject_Z k) 360 == js_rem h 360.
Proof.
  intros Hh Hk.
  destruct (js_rem_nonneg h 360) as [Rlo Rhi]; [lra|assumption|].
  destruct (js_rem_congr h 360) as [j Hj].
  assert (Hk' : 0 <= inject_Z k).
  { rewrite Zle_Qle in Hk. exact Hk. }
  apply (js_rem_unique_nonneg _ _ _ (j + k)); try lra.
  rewrite Hj, inject_Z_plus. ring.
Qed.

Lemma degNorm_nonneg_rem (h : Q) : 0 <= h -> js_rem (degNorm h) 360 == js_rem h 360.
Proof.
  intros Hh.
  destruct (degNorm_range h) as [Dlo Dhi].
  destruct (js_rem_nonneg h 360) as [Rlo Rhi]; [lra|assumption|].
  rewrite (js_rem_small (degNorm h) 360) by lra.
  unfold degNorm.
  rewrite (js_rem_shift (js_rem h 360 + 360) 360 1); [ring|lia|lra| |];
    change (inject_Z 1) with 1; lra.
Qed.



(** ** RGB to HSL, HSV, HWB: ranges *)

Lemma hueOf_range (R G B : Q) :
  let M := Qmax (Qmax R G) B in
  let mn := Qmin (Qmin R G) B in
  0 <= hueOf R G B M (M - mn) /\ hueOf R G B M (M - mn) < 360.
Proof.
  intros M mn.
  destruct (Qmax3_spec R G B) as (M1 & M2 & M3 & M4). fold M in M1, M2, M3, M4.
  destruct (Qmin3_spec R G B) as (m1 & m2 & m3 & m4). fold mn in m1, m2, m3, m4.
  clearbody M mn. unfold hueOf.
  destruct (M - mn =? 0) eqn:Ed; qbool; cbn [negb]; [lra|].
  assert (Hd : 0 < M - mn) by lra.
  assert (Hdn : ~ M - mn == 0) by lra.
  destruct (M =? R) eqn:EM; qbool.
  - pose proof (Qdiv_mult_cancel (G - B) (M - mn) Hdn) as Hq.
    set (q := (G - B) / (M - mn)) in *.
    assert (Hq1 : -1 <= q /\ q <= 1) by (split; nra).
    assert (Hr : js_rem q 6 == q) by (apply js_rem_small; lra).
    destruct (js_rem q 6 * 60 <? 0) eqn:En; qbool; lra.
  - destruct (M =? G) eqn:EG; qbool.
    + pose proof (Qdiv_mult_cancel (B - R) (M - mn) Hdn) as Hq.
      set (q := (B - R) / (M - mn)) in *.
      assert (Hq1 : -1 < q /\ q <= 1) by (split; nra).
      destruct ((q + 2) * 60 <? 0) eqn:En; qbool; lra.
    + pose proof (Qdiv_mult_cancel (R - G) (M - mn) Hdn) as Hq.
      set (q := (R - G) / (M - mn)) in *.
      assert (Hq1 : -1 < q /\ q < 1) by (split; nra).
      destruct ((q + 4) * 60 <? 0) eqn:En; qbool; lra.
Qed.

Lemma unit_channel (x : Q) : 0 <= x -> x <= 255 -> 0 <= x / 255 /\ x / 255 <= 1.
Proof.
  intros Hlo Hhi. assert (E : x / 255 * 255 == x) by field.
  set (q := x / 255) in *. lra.
Qed.

Lemma rgbToHsl_ranges_exact (r g b : Q) :
  0 <= r <= 255 -> 0 <= g <= 255 -> 0 <= b <= 255 ->
  let c := rgbToHsl r g b in
  (0 <= hsl_h c /\ hsl_h c < 360) /\
  (0 <= hsl_l c /\ hsl_l c <= 1) /\
  (r == g -> g == b -> hsl_h c == 0 /\ hsl_s c == 0) /\
  (~ (r == g /\ g == b) -> 0 < hsl_s c).
Proof.
  intros [Hr0 Hr1] [Hg0 Hg1] [Hb0 Hb1] c. subst c.
  rewrite rgbToHsl_unfold. cbv zeta. cbn [hsl_h hsl_s hsl_l].
  destruct (unit_channel r Hr0 Hr1) as [R0 R1].
  destruct (unit_channel g Hg0 Hg1) as [G0 G1].
  destruct (unit_channel b Hb0 Hb1) as [B0 B1].
  assert (Er : r / 255 * 255 == r) by field.
  assert (Eg : g / 255 * 255 == g) by field.
  assert (Eb : b / 255 * 255 == b) by field.
  set (R := r / 255) in *. set (G := g / 255) in *. set (B := b / 255) in *.
  pose proof (hueOf_range R G B) as Hh. cbv zeta in Hh.
  destruct (Qmax3_spec R G B) as (M1 & M2 & M3 & M4).
  destruct (Qmin3_spec R G B) as (m1 & m2 & m3 & m4).
  set (M := Qmax (Qmax R G) B) in *. set (mn := Qmin (Qmin R G) B) in *.
  set (l := (M + mn) / 2).
  assert (El : l * 2 == M + mn) by (unfold l; field).
  assert (HM : 0 <= mn /\ mn <= M /\ M <= 1).
  { destruct M4 as [E|[E|E]]; destruct m4 as [F|[F|F]]; lra. }
  split; [exact Hh|]. split; [lra|]. split.
  - intros Hrg Hgb.
    assert (Hd : M - mn == 0).
    { destruct M4 as [E|[E|E]]; destruct m4 as [F|[F|F]]; lra. }
    apply Qeq_bool_iff in Hd. unfold hueOf. rewrite Hd. cbn [negb].
    split; reflexivity.
  - intros Hne.
    destruct (M - mn =? 0) eqn:Ed; qbool.
    + exfalso. apply Hne. split; lra.
    + assert (Habs : Qabs (2 * l - 1) <= 1 - (M - mn)).
      { apply Qabs_Qle_condition. lra. }
      assert (Hpos : 0 < 1 - Qabs (2 * l - 1)) by lra.
      assert (Es : (M - mn) / (1 - Qabs (2 * l - 1)) * (1 - Qabs (2 * l - 1)) == M - mn)
        by (field; lra).
      set (t := 1 - Qabs (2 * l - 1)) in *.
      set (s := (M - mn) / t) in *.
      assert (Hd : 0 < M - mn) by lra.
      nra.
Qed.

(** X5. For integer channels in 0..255, [rgbToHsl] returns a hue in
    [0,360) and a lightness in [0,1]; the saturation is 0 for a grey (all
    channels equal), which also has hue 0, and positive for every other
    colour.  (No upper bound is stated for the saturation: in exact
    arithmetic it is at most 1, the source's floating-point quotient can
    exceed 1 in the last digits.) *)
Theorem rgbToHsl_ranges (r g b : Z) :
  (0 <= r <= 255)%Z -> (0 <= g <= 255)%Z -> (0 <= b <= 255)%Z ->
  let c := rgbToHsl (inject_Z r) (inject_Z g) (inject_Z b) in
  (0 <= hsl_h c /\ hsl_h c < 360) /\
  (0 <= hsl_l c /\ hsl_l c <= 1) /\
  0 <= hsl_s c /\
  (hsl_s c == 0 <-> r = g /\ g = b) /\
  (r = g /\ g = b -> hsl_h c == 0).
Proof.
  intros Hr Hg Hb c.
  assert (Q8 : forall n : Z, (0 <= n <= 255)%Z -> 0 <= inject_Z n <= 255).
  { intros n [A B]. change 0 with (inject_Z 0). change 255 with (inject_Z 255).
    rewrite <- !Zle_Qle. lia. }
  destruct (rgbToHsl_ranges_exact _ _ _ (Q8 r Hr) (Q8 g Hg) (Q8 b Hb))
    as (Hh & Hl & Hgrey & Hcol).
  fold c in Hh, Hl, Hgrey, Hcol.
  assert (Dec : (r = g /\ g = b) \/ ~ (inject_Z r == inject_Z g /\ inject_Z g == inject_Z b)).
  { destruct (Z.eq_dec r g) as [E1|E1]; destruct (Z.eq_dec g b) as [E2|E2];
      try (left; now split); right; intros [A B];
      apply (proj1 (inject_Z_injective _ _)) in A;
      apply (proj1 (inject_Z_injective _ _)) in B; congruence. }
  split; [exact Hh|]. split; [exact Hl|].
  destruct Dec as [[-> ->]|Hne].
  - destruct (Hgrey ltac:(reflexivity) ltac:(reflexivity)) as [H0 S0].
    split; [rewrite S0; lra|]. split; [|intros _; exact H0].
    split; [intros _; now split|intros _; exact S0].
  - pose proof (Hcol Hne) as Hs. split; [lra|]. split.
    + split; [intros E; lra|].
      intros [-> ->]. exfalso. apply Hne. split; reflexivity.
    + intros [-> ->]. exfalso. apply Hne. split; reflexivity.
Qed.

Lemma rgbToHsl_ranges_witness :
  let c := rgbToHsl (inject_Z 10) (inject_Z 200) (inject_Z 30) in
  0 <= hsl_h c /\ hsl_h c < 360.
Proof.
  apply (proj1 (rgbToHsl_ranges 10 200 30 ltac:(lia) ltac:(lia) ltac:(lia))).
Defined.



(** ** CMYK, contrast, chromaticity *)

Lemma guard_eps_small : 1e-12 < 1 # 255.
Proof. reflexivity. Qed.



Lemma contrastRatio_eq (L1 L2 : Q) :
  0 <= L1 -> 0 <= L2 ->
  contrastRatio L1 L2 * (Qmin L1 L2 + 0.05) == Qmax L1 L2 + 0.05.
Proof.
  intros H1 H2. unfold contrastRatio. cbv zeta. field.
  destruct (Q.min_spec L1 L2) as [[_ E]|[_ E]]; rewrite E; lra.
Qed.


(** ** The value and chroma proxies *)

Lemma valueProxy_cases (L : Q) :
  (L <= 0 /\ valueProxy L == 0) \/ (0 <= L /\ L <= 100 /\ valueProxy L * 10 == L)
  \/ (100 <= L /\ valueProxy L == 10).
Proof.
  unfold valueProxy.
  assert (E : L / 10 * 10 == L) by field.
  set (x := L / 10) in *.
  destruct (Q.max_spec 0 x) as [[H1 F1]|[H1 F1]];
  destruct (Q.min_spec 10 (Qmax 0 x)) as [[H2 F2]|[H2 F2]];
  rewrite F2; rewrite ?F1 in *.
  - right. right. split; [lra|reflexivity].
  - right. left. repeat split; lra.
  - right. right. split; [lra|reflexivity].
  - left. split; [lra|reflexivity].
Qed.

Lemma sampleValueProxy_cases (L : Q) :
  (L <= 0 /\ sampleValueProxy L == 0)
  \/ (0 <= L /\ L <= 100 /\ sampleValueProxy L * 10 == L)
  \/ (100 <= L /\ sampleValueProxy L == 10).
Proof.
  unfold sampleValueProxy.
  assert (E : L / 100 * 100 == L) by field.
  set (x := L / 100) in *.
  destruct (clamp01_cases x) as [[B0 B]|[(B0 & B1 & B)|[B0 B]]]; rewrite B.
  - left. split; lra.
  - right. left. repeat split; lra.
  - right. right. split; lra.
Qed.

Lemma chromaProxy_cases (C : Q) :
  (C <= 160 /\ chromaProxy C * 8 == C) \/ (160 <= C /\ chromaProxy C == 20).
Proof.
  unfold chromaProxy.
  assert (E : C / 8 * 8 == C) by field.
  set (x := C / 8) in *.
  destruct (Q.min_spec 20 x) as [[H F]|[H F]]; rewrite F.
  - right. split; [lra|reflexivity].
  - left. split; lra.
Qed.

(** X9. Both value proxies, the exported [valueProxy] and the formula the
    sampler computes inline, lie in [0,10], are 0 for every lightness up
    to 0 and 10 for every lightness from 100 on, and never decrease when
    the lightness grows; the chroma proxy never exceeds 20, is 20 for every
    chroma from 160 on, is not negative for a chroma that is not, and
    never decreases either.  (Between 0 and 100 the two value proxies are
    [L / 10] and [(L / 100) * 10]: equal in exact arithmetic, they can
    differ in the last digit in floating point, so their equality is not
    stated.) *)
Theorem valueProxy_ranges (L L' C C' : Q) :
  ((0 <= valueProxy L /\ valueProxy L <= 10) /\
   (0 <= sampleValueProxy L /\ sampleValueProxy L <= 10)) /\
  (L <= 0 -> valueProxy L == 0 /\ sampleValueProxy L == 0) /\
  (100 <= L -> valueProxy L == 10 /\ sampleValueProxy L == 10) /\
  (L <= L' -> valueProxy L <= valueProxy L' /\
              sampleValueProxy L <= sampleValueProxy L') /\
  (chromaProxy C <= 20 /\ (0 <= C -> 0 <= chromaProxy C) /\
   (160 <= C -> chromaProxy C == 20) /\
   (C <= C' -> chromaProxy C <= chromaProxy C')).
Proof.
  split; [|split; [|split; [|split]]].
  - destruct (valueProxy_cases L) as [[A0 A]|[(A0 & A1 & A)|[A0 A]]];
    destruct (sampleValueProxy_cases L) as [[B0 B]|[(B0 & B1 & B)|[B0 B]]];
    repeat split; lra.
  - intros H.
    destruct (valueProxy_cases L) as [[A0 A]|[(A0 & A1 & A)|[A0 A]]];
    destruct (sampleValueProxy_cases L) as [[B0 B]|[(B0 & B1 & B)|[B0 B]]];
    split; lra.
  - intros H.
    destruct (valueProxy_cases L) as [[A0 A]|[(A0 & A1 & A)|[A0 A]]];
    destruct (sampleValueProxy_cases L) as [[B0 B]|[(B0 & B1 & B)|[B0 B]]];
    split; lra.
  - intros H. split.
    + destruct (valueProxy_cases L) as [[A0 A]|[(A0 & A1 & A)|[A0 A]]];
      destruct (valueProxy_cases L') as [[A0' A']|[(A0' & A1' & A')|[A0' A']]]; lra.
    + destruct (sampleValueProxy_cases L) as [[B0 B]|[(B0 & B1 & B)|[B0 B]]];
      destruct (sampleValueProxy_cases L') as [[B0' B']|[(B0' & B1' & B')|[B0' B']]]; lra.
  - destruct (chromaProxy_cases C) as [[C0 Cc]|[C0 Cc]];
    destruct (chromaProxy_cases C') as [[C0' Cc']|[C0' Cc']];
    repeat split; intros; lra.
Qed.

(** ** Chromaticity and colour temperature on finite inputs *)



(** X11. On chromaticities in the unit square, where the cubic cannot
    overflow, McCamy's formula is finite exactly off the line
    [y = 0.1858]: there it is the cubic in
    [n = (x - 0.332) / (0.1858 - y)]; on the line the unguarded division
    gives [+Infinity] for [x > 0.332] and [NaN] for [x <= 0.332]. *)
Theorem cctMcCamyFromXy_finite (x y : Q) :
  0 <= x <= 1 -> 0 <= y <= 1 ->
  (~ y == 0.1858 ->
   exists n q : Q,
     n * (0.1858 - y) == x - 0.332 /\
     cctMcCamyFromXy x y = JFin q /\
     q == 449 * (n * n * n) + 3525 * (n * n) + 6823.3 * n + 5520.33) /\
  (y == 0.1858 -> 0.332 < x -> cctMcCamyFromXy x y = JInf false) /\
  (y == 0.1858 -> x <= 0.332 -> cctMcCamyFromXy x y = JNaN) /\
  (isFinite (cctMcCamyFromXy x y) = true <-> ~ y == 0.1858).
Proof.
  intros _ _.
  assert (A : ~ y == 0.1858 ->
    exists n q : Q,
     n * (0.1858 - y) == x - 0.332 /\
     cctMcCamyFromXy x y = JFin q /\
     q == 449 * (n * n * n) + 3525 * (n * n) + 6823.3 * n + 5520.33).
  { intros Hy. unfold cctMcCamyFromXy, jsub, jcube, jsquare.
    cbn [isFinite negb orb jneg jadd jdiv].
    destruct (0.1858 + - y =? 0) eqn:E; qbool; [exfalso; lra|].
    cbn [jmul jadd].
    exists ((x + - 0.332) / (0.1858 + - y)). eexists.
    split; [field; lra|]. split; [reflexivity|]. field; lra. }
  assert (B : y == 0.1858 -> 0.332 < x -> cctMcCamyFromXy x y = JInf false).
  { intros Hy Hx. unfold cctMcCamyFromXy, jsub, jcube, jsquare.
    cbn [isFinite negb orb jneg jadd jdiv].
    destruct (0.1858 + - y =? 0) eqn:E; qbool; [|exfalso; lra].
    destruct (x + - (0.332) =? 0) eqn:E0; qbool; [exfalso; lra|].
    destruct (x + - (0.332) <? 0) eqn:E1; qbool; [exfalso; lra|].
    reflexivity. }
  assert (C : y == 0.1858 -> x <= 0.332 -> cctMcCamyFromXy x y = JNaN).
  { intros Hy Hx. unfold cctMcCamyFromXy, jsub, jcube, jsquare.
    cbn [isFinite negb orb jneg jadd jdiv].
    destruct (0.1858 + - y =? 0) eqn:E; qbool; [|exfalso; lra].
    destruct (x + - (0.332) =? 0) eqn:E0; qbool; [reflexivity|].
    destruct (x + - (0.332) <? 0) eqn:E1; qbool; [reflexivity|exfalso; lra]. }
  split; [exact A|]. split; [exact B|]. split; [exact C|].
  split.
  - intros H Hy. destruct (Qlt_le_dec 0.332 x) as [Hx|Hx].
    + rewrite (B Hy Hx) in H. discriminate.
    + rewrite (C Hy Hx) in H. discriminate.
  - intros Hy. destruct (A Hy) as (n & q & _ & E & _). now rewrite E.
Qed.

Lemma cctMcCamyFromXy_finite_witness :
  isFinite (cctMcCamyFromXy (JFin 0.3127) (JFin 0.329)) = true /\
  cctMcCamyFromXy (JFin 0.4) (JFin 0.1858) = JInf false.
Proof.
  split.
  - apply (proj2 (proj2 (proj2 (cctMcCamyFromXy_finite 0.3127 0.329
                                  ltac:(lra) ltac:(lra))))).
    lra.
  - apply (proj1 (proj2 (cctMcCamyFromXy_finite 0.4 0.1858 ltac:(lra) ltac:(lra)))).
    + reflexivity.
    + lra.
Defined.

(** ** Hue names, temperature and harmonies around the circle *)

#[global] Instance hueName_Proper : Proper (Qeq ==> eq) hueName.
Proof.
  intros a b H. unfold hueName. cbv zeta.
  assert (E : (degNorm a + 11.25) / 22.5 == (degNorm b + 11.25) / 22.5)
    by now rewrite H.
  now rewrite (Qfloor_comp _ _ E).
Qed.

#[global] Instance temperatureLabel_Proper : Proper (Qeq ==> eq) temperatureLabel.
Proof.
  intros a b H. unfold temperatureLabel. cbv zeta.
  assert (E : degNorm a == degNorm b) by now rewrite H.
  now rewrite !(Qleb_comp _ _ (Qeq_refl _) _ _ E), !(Qlt_bool_Proper _ _ E _ _ (Qeq_refl _)).
Qed.

Lemma hueName_bin (t : Q) (k : Z) :
  (0 <= k < 16)%Z -> 0 <= t -> t < 360 ->
  22.5 * inject_Z k - 11.25 <= t -> t < 22.5 * inject_Z k + 11.25 ->
  hueName t = nth (Z.to_nat k) HUE_NAMES ""%string.
Proof.
  intros Hk H0 H360 Hlo Hhi. unfold hueName. cbv zeta.
  assert (E : degNorm t == t) by now apply degNorm_id.
  assert (F : Qfloor ((degNorm t + 11.25) / 22.5) = k).
  { apply Qfloor_eq.
    - apply Qle_shift_div_l; [reflexivity|]. rewrite E. lra.
    - apply Qlt_shift_div_r; [reflexivity|]. rewrite E. lra. }
  rewrite F. rewrite Z.rem_small by lia. reflexivity.
Qed.


Lemma hueName_index (theta : Q) :
  exists k : Z,
    (0 <= k < 16)%Z /\
    hueName theta = nth (Z.to_nat k) HUE_NAMES ""%string /\
    ((22.5 * inject_Z k - 11.25 <= degNorm theta /\
      degNorm theta < 22.5 * inject_Z k + 11.25) \/
     (k = 0%Z /\ 348.75 <= degNorm theta)).
Proof.
  destruct (degNorm_range theta) as [T0 T1].
  set (q := (degNorm theta + 11.25) / 22.5).
  assert (E : q * 22.5 == degNorm theta + 11.25) by (unfold q; field).
  pose proof (Qfloor_le q) as A. pose proof (Qlt_floor q) as B.
  rewrite inject_Z_plus in B. change (inject_Z 1) with 1 in B.
  destruct (Qlt_le_dec (degNorm theta) 348.75) as [Hlt|Hge].
  - exists (Qfloor q).
    assert (Hk : (0 <= Qfloor q < 16)%Z).
    { assert (A' : inject_Z (Qfloor q) < inject_Z 16)
        by (change (inject_Z 16) with 16; lra).
      assert (B' : inject_Z (-1) < inject_Z (Qfloor q))
        by (change (inject_Z (-1)) with (-1); lra).
      rewrite <- Zlt_Qlt in A', B'. lia. }
    split; [exact Hk|]. split.
    + unfold hueName. cbv zeta. fold q. now rewrite Z.rem_small by lia.
    + left. split; lra.
  - exists 0%Z. split; [lia|]. split; [|right; split; [reflexivity|exact Hge]].
    unfold hueName. cbv zeta. fold q.
    assert (F : Qfloor q = 16%Z).
    { apply Qfloor_eq; change (inject_Z 16) with 16; lra. }
    rewrite F. reflexivity.
Qed.


Lemma harmonyAngles_offsets (theta : Q) (type : HarmonyType) :
  Forall2 (fun ha row => ha_label ha = fst row /\ ha_a ha == degNorm (theta + snd row))
          (harmonyAngles theta type) (harmonyTable type).
Proof.
  assert (A : forall off, degNorm (degNorm theta + off) == degNorm (theta + off))
    by (intros; apply degNorm_shift).
  destruct type; cbn [harmonyAngles harmonyTable];
    repeat (first [apply Forall2_nil | apply Forall2_cons]);
    cbn [ha_label ha_a fst snd]; (split; [reflexivity|]).
  all: lazymatch goal with
       | |- degNorm ?t == degNorm (?t + 0) => apply degNorm_plus_0
       | |- degNorm (degNorm ?t + ?o) == degNorm (?t + ?o) => apply A
       | |- _ => rewrite <- A; apply degNorm_Proper; ring
       end.
Qed.

Lemma Forall2_join {A B C : Type} (P : A -> C -> Prop) (Q' : B -> C -> Prop)
      (R : A -> B -> Prop) (l1 : list A) (l2 : list B) (t : list C) :
  (forall a b c, P a c -> Q' b c -> R a b) ->
  Forall2 P l1 t -> Forall2 Q' l2 t -> Forall2 R l1 l2.
Proof.
  intros H H1. revert l2. induction H1 as [|a c l1 t Hac _ IH]; intros l2 H2.
  - inversion H2. constructor.
  - inversion H2 as [|b c' l2' t' Hbc H2']; subst. constructor; eauto.
Qed.


(** ** Hexadecimal colour strings *)

Lemma hexByte_table :
  forallb (fun n : nat =>
     let h := padStart2 (toString16 (Z.of_nat n)) in
     (String.length h =? 2)%nat && String.eqb (toLowerCase h) h &&
     forallb (fun m : nat =>
        implb (String.eqb h (padStart2 (toString16 (Z.of_nat m)))) (n =? m)%nat)
       (seq 0 256))
    (seq 0 256) = true.
Proof. vm_compute. reflexivity. Qed.

Lemma hexByte_spec (n : Z) :
  (0 <= n <= 255)%Z ->
  let h := padStart2 (toString16 n) in
  String.length h = 2%nat /\ toLowerCase h = h /\
  (forall m : Z, (0 <= m <= 255)%Z -> h = padStart2 (toString16 m) -> n = m).
Proof.
  intros Hn h.
  pose proof hexByte_table as T. rewrite forallb_forall in T.
  specialize (T (Z.to_nat n)). rewrite Z2Nat.id in T by lia. cbv zeta in T. fold h in T.
  assert (I : In (Z.to_nat n) (seq 0 256)) by (apply in_seq; lia).
  specialize (T I). apply andb_true_iff in T. destruct T as [T T3].
  apply andb_true_iff in T. destruct T as [T1 T2].
  split; [now apply Nat.eqb_eq|]. split; [now apply String.eqb_eq|].
  intros m Hm E. rewrite forallb_forall in T3.
  specialize (T3 (Z.to_nat m)). rewrite Z2Nat.id in T3 by lia.
  assert (J : In (Z.to_nat m) (seq 0 256)) by (apply in_seq; lia).
  specialize (T3 J). rewrite <- E, String.eqb_refl in T3. cbn [implb] in T3.
  apply Nat.eqb_eq in T3. lia.
Qed.

Lemma string_app_inj (a a' x y : string) :
  String.length a = String.length a' -> (a ++ x = a' ++ y)%string -> a = a' /\ x = y.
Proof.
  revert a'. induction a as [|c a IH]; intros [|c' a'] L E; cbn in *; try discriminate.
  - now split.
  - injection E as -> E. injection L as L. destruct (IH _ L E) as [-> ->]. now split.
Qed.

Lemma toLowerCase_app (a b : string) :
  toLowerCase (a ++ b) = (toLowerCase a ++ toLowerCase b)%string.
Proof. induction a as [|c a IH]; cbn; [reflexivity|now rewrite IH]. Qed.

Lemma string_length_app (a b : string) :
  String.length (a ++ b) = (String.length a + String.length b)%nat.
Proof. induction a as [|c a IH]; cbn; [reflexivity|now rewrite IH]. Qed.

(** X15. For channels in 0..255 [rgbToHex] returns a string of exactly seven
    characters that is already lower case, and two such colours have the
    same hex string, also when compared case-insensitively as the palette
    does, only if they are the same colour. *)
Theorem rgbToHex_bytes (r g b r' g' b' : Z) :
  (0 <= r <= 255)%Z -> (0 <= g <= 255)%Z -> (0 <= b <= 255)%Z ->
  (0 <= r' <= 255)%Z -> (0 <= g' <= 255)%Z -> (0 <= b' <= 255)%Z ->
  String.length (rgbToHex r g b) = 7%nat /\
  toLowerCase (rgbToHex r g b) = rgbToHex r g b /\
  (toLowerCase (rgbToHex r g b) = toLowerCase (rgbToHex r' g' b') <->
   (r = r' /\ g = g' /\ b = b')).
Proof.
  intros Hr Hg Hb Hr' Hg' Hb'.
  destruct (hexByte_spec r Hr) as (Lr & Cr & Ir).
  destruct (hexByte_spec g Hg) as (Lg & Cg & Ig).
  destruct (hexByte_spec b Hb) as (Lb & Cb & Ib).
  destruct (hexByte_spec r' Hr') as (Lr' & Cr' & _).
  destruct (hexByte_spec g' Hg') as (Lg' & Cg' & _).
  destruct (hexByte_spec b' Hb') as (Lb' & Cb' & _).
  cbv zeta in *. unfold rgbToHex. cbn [map concat].
  set (hr := padStart2 (toString16 r)) in *. set (hg := padStart2 (toString16 g)) in *.
  set (hb := padStart2 (toString16 b)) in *.
  set (hr' := padStart2 (toString16 r')) in *. set (hg' := padStart2 (toString16 g')) in *.
  set (hb' := padStart2 (toString16 b')) in *.
  assert (Low : forall x y z : string,
            toLowerCase x = x -> toLowerCase y = y -> toLowerCase z = z ->
            toLowerCase ("#" ++ x ++ "" ++ y ++ "" ++ z) = ("#" ++ x ++ "" ++ y ++ "" ++ z)%string).
  { intros x y z Hx Hy Hz. rewrite !toLowerCase_app, Hx, Hy, Hz. reflexivity. }
  split; [|split].
  - rewrite !string_length_app, Lr, Lg, Lb. reflexivity.
  - now apply Low.
  - rewrite !Low by assumption. split.
    + intros E. cbn [append] in E. injection E as E.
      apply string_app_inj in E; [|congruence]. destruct E as [Er E].
      apply string_app_inj in E; [|congruence]. destruct E as [Eg Eb].
      split; [now apply Ir|]. split; [now apply Ig|now apply Ib].
    + intros (-> & -> & ->). reflexivity.
Qed.

Lemma rgbToHex_bytes_witness :
  String.length (rgbToHex 255 128 0) = 7%nat /\
  toLowerCase (rgbToHex 255 128 0) = rgbToHex 255 128 0.
Proof.
  pose proof (rgbToHex_bytes 255 128 0 0 0 0 ltac:(lia) ltac:(lia) ltac:(lia)
                ltac:(lia) ltac:(lia) ltac:(lia)) as H.
  exact (conj (proj1 H) (proj1 (proj2 H))).
Defined.

(** ** The wheel lookup *)

Lemma hslToRgb_rgb8 (h s l : Q) : rgb8 (hslToRgb h s l).
Proof.
  unfold hslToRgb, rgb8.
  repeat match goal with
  | |- context [if ?c then _ else _] => destruct c
  end; cbn [rgb_r rgb_g rgb_b]; repeat split; apply clamp255_range.
Qed.

Section WheelLookup.
Context {M : MathLib} {L : MathLaws M}.

Lemma thetaDegFromXY_range (x y : Q) :
  0 <= thetaDegFromXY x y /\ thetaDegFromXY x y < 360.
Proof.
  rewrite thetaDegFromXY_degNorm. apply degNorm_range.
Qed.

Lemma wheelColorAt_inside (x y : Q) :
  isInsideWheel x y = true ->
  exists c, wheelColorAt x y = Some c /\
    (0 <= wc_r c <= 255)%Z /\ (0 <= wc_g c <= 255)%Z /\ (0 <= wc_b c <= 255)%Z /\
    wc_theta c = thetaDegFromXY x y /\
    wc_f c = clamp01 ((radiusFromXY x y - MODEL_R_inner) / (MODEL_R_color - MODEL_R_inner)).
Proof.
  unfold isInsideWheel, wheelColorAt. cbv zeta. intros H.
  apply andb_true_iff in H. destruct H as [H1 H2].
  unfold Qlt_bool. rewrite H1, H2. cbn [negb orb].
  eexists. split; [reflexivity|]. cbn [wc_r wc_g wc_b wc_theta wc_f].
  match goal with
  | |- context [hslToRgb ?h ?s ?l] => pose proof (hslToRgb_rgb8 h s l) as (A & B & C)
  end.
  repeat split; first [apply A | apply B | apply C].
Qed.

Lemma wheelColorAt_outside (x y : Q) :
  isInsideWheel x y = false -> wheelColorAt x y = None.
Proof.
  unfold isInsideWheel, wheelColorAt. cbv zeta. intros H.
  unfold Qlt_bool.
  apply andb_false_iff in H. destruct H as [H|H]; rewrite H; cbn [negb orb];
    [reflexivity|now rewrite orb_true_r].
Qed.

(** X16. [wheelColorAt] returns a colour exactly where [isInsideWheel]
    holds.  A returned colour has channels in 0..255, an angle in [0,360)
    and a radial fraction in [0,1]. *)
Theorem wheelColorAt_wellformed (x y : Q) :
  (isInsideWheel x y = true <-> exists c, wheelColorAt x y = Some c) /\
  (isInsideWheel x y = false <-> wheelColorAt x y = None) /\
  (forall c, wheelColorAt x y = Some c ->
     (0 <= wc_r c <= 255)%Z /\ (0 <= wc_g c <= 255)%Z /\ (0 <= wc_b c <= 255)%Z /\
     (0 <= wc_theta c /\ wc_theta c < 360) /\
     (0 <= wc_f c /\ wc_f c <= 1)).
Proof.
  destruct (isInsideWheel x y) eqn:E.
  - destruct (wheelColorAt_inside x y E) as (c & Hc & Hr & Hg & Hb & Ht & Hf).
    split; [split; [intros _; now exists c|reflexivity]|].
    split; [split; [discriminate|rewrite Hc; discriminate]|].
    intros c' Hc'. rewrite Hc in Hc'. injection Hc' as <-.
    split; [exact Hr|]. split; [exact Hg|]. split; [exact Hb|].
    rewrite Ht, Hf. split; [apply thetaDegFromXY_range|apply clamp01_range].
  - pose proof (wheelColorAt_outside x y E) as Hn.
    split; [split; [discriminate|intros [c Hc]; rewrite Hn in Hc; discriminate]|].
    split; [split; [intros _; exact Hn|reflexivity]|].
    intros c Hc. rewrite Hn in Hc. discriminate.
Qed.

End WheelLookup.

Lemma wheelColorAt_wellformed_witness :
  isInsideWheel (M := axisMath) 800 300 = true <->
  exists c, wheelColorAt (M := axisMath) 800 300 = Some c.
Proof.
  exact (proj1 (wheelColorAt_wellformed (L := axisMath_laws) 800 300)).
Defined.

(** ** Canvas and wheel coordinates *)



Lemma resize_canvas_pos (rect dpr : Q) : 1 <= inject_Z (Z.max 1 (Qfloor (rect * dpr))).
Proof.
  change 1 with (inject_Z 1) at 1. rewrite <- Zle_Qle. lia.
Qed.


(** ** The rendered bitmap *)

Section BitmapPixels.
Context {M : MathLib}.

Lemma wheelColorAt_rgb8 (x y : Q) (c : WheelColor) :
  wheelColorAt x y = Some c ->
  (0 <= wc_r c <= 255)%Z /\ (0 <= wc_g c <= 255)%Z /\ (0 <= wc_b c <= 255)%Z.
Proof.
  unfold wheelColorAt. cbv zeta.
  destruct (_ || _); [discriminate|]. intros H. injection H as <-.
  cbn [wc_r wc_g wc_b].
  match goal with
  | |- context [hslToRgb ?h ?s ?l] => exact (hslToRgb_rgb8 h s l)
  end.
Qed.

Lemma renderPixel_spec (y x : Z) (data : ImageBytes) (j : Z) :
  (0 <= y < OFF_SIZE_px)%Z -> (0 <= x < OFF_SIZE_px)%Z ->
  renderPixel y x data j =
    if ((y * OFF_SIZE_px + x) * 4 <=? j)%Z && (j <? (y * OFF_SIZE_px + x + 1) * 4)%Z
    then wheelByte j else data j.
Proof.
  intros Hy Hx.
  assert (HW : OFF_SIZE_px = 1600%Z) by reflexivity.
  set (p := (y * OFF_SIZE_px + x)%Z).
  assert (Hp : (0 <= p < OFF_SIZE_px * OFF_SIZE_px)%Z) by (unfold p; nia).
  assert (Hpy : (p / OFF_SIZE_px = y)%Z).
  { unfold p. rewrite Z.div_add_l by lia. rewrite Z.div_small by lia. lia. }
  assert (Hpx : (p mod OFF_SIZE_px = x)%Z).
  { unfold p. rewrite Z.add_comm, Z.mod_add by lia. now apply Z.mod_small. }
  unfold renderPixel. cbv zeta. fold p.
  destruct (((p * 4 <=? j) && (j <? (p + 1) * 4))%Z) eqn:In.
  - apply andb_true_iff in In. destruct In as [I1 I2].
    apply Z.leb_le in I1. apply Z.ltb_lt in I2.
    assert (Hj4 : (j / 4 = p)%Z) by (clearbody p; Z.div_mod_to_equations; lia).
    assert (Hjm : (j mod 4 = j - p * 4)%Z) by (clearbody p; Z.div_mod_to_equations; lia).
    unfold wheelByte. cbv zeta. rewrite Hj4, Hpy, Hpx, Hjm.
    destruct (wheelColorAt (inject_Z x + 0.5) (inject_Z y + 0.5)) as [c|] eqn:Hc.
    + destruct (wheelColorAt_rgb8 _ _ _ Hc) as (Hr & Hg & Hb).
      unfold setByte, bitmapLength.
      assert (Hc4 : (j = p * 4 + 0 \/ j = p * 4 + 1 \/ j = p * 4 + 2 \/ j = p * 4 + 3)%Z)
        by lia.
      clear I1 I2 Hj4 Hjm. destruct Hc4 as [-> | [-> | [-> | ->]]].
      all: repeat match goal with
           | |- context [(?a =? ?b)%Z] =>
               let E := fresh "E" in destruct (Z.eqb_spec a b) as [E|E]; try lia
           | |- context [(?a <=? ?b)%Z] =>
               let E := fresh "E" in destruct (Z.leb_spec a b) as [E|E]; try lia
           | |- context [(?a <? ?b)%Z] =>
               let E := fresh "E" in destruct (Z.ltb_spec a b) as [E|E]; try lia
           end; cbn [andb]; rewrite ?clamp255_id by lia; reflexivity.
    + unfold setByte, bitmapLength.
      assert (Hc4 : (j = p * 4 + 0 \/ j = p * 4 + 1 \/ j = p * 4 + 2 \/ j = p * 4 + 3)%Z)
        by lia.
      clear I1 I2 Hj4 Hjm. destruct Hc4 as [-> | [-> | [-> | ->]]].
      all: repeat match goal with
           | |- context [(?a =? ?b)%Z] =>
               let E := fresh "E" in destruct (Z.eqb_spec a b) as [E|E]; try lia
           | |- context [(?a <=? ?b)%Z] =>
               let E := fresh "E" in destruct (Z.leb_spec a b) as [E|E]; try lia
           | |- context [(?a <? ?b)%Z] =>
               let E := fresh "E" in destruct (Z.ltb_spec a b) as [E|E]; try lia
           end; cbn [andb]; reflexivity.
  - assert (Hout : (j < p * 4 \/ (p + 1) * 4 <= j)%Z).
    { apply andb_false_iff in In. destruct In as [I|I];
        [apply Z.leb_gt in I|apply Z.ltb_ge in I]; lia. }
    destruct (wheelColorAt (inject_Z x + 0.5) (inject_Z y + 0.5)) as [c|];
      unfold setByte;
      repeat match goal with
      | |- context [(j =? ?b)%Z] =>
          let E := fresh "E" in destruct (Z.eqb_spec j b) as [E|E]; try lia
      end; reflexivity.
Qed.

Lemma render_row_spec (y : Z) (n : nat) :
  (0 <= y < OFF_SIZE_px)%Z ->
  forall (x0 : Z) (data : ImageBytes) (j : Z),
  (0 <= x0)%Z -> (x0 + Z.of_nat n <= OFF_SIZE_px)%Z ->
  for_up (fun x data => renderPixel y x data) x0 n data j =
    if ((y * OFF_SIZE_px + x0) * 4 <=? j)%Z
       && (j <? (y * OFF_SIZE_px + x0 + Z.of_nat n) * 4)%Z
    then wheelByte j else data j.
Proof.
  intros Hy. induction n as [|n IH]; intros x0 data j H0 H1.
  - cbn [for_up].
    destruct (Z.leb_spec ((y * OFF_SIZE_px + x0) * 4) j);
    destruct (Z.ltb_spec j ((y * OFF_SIZE_px + x0 + Z.of_nat 0) * 4)); cbn [andb];
      try reflexivity; lia.
  - cbn [for_up]. rewrite IH by lia. rewrite renderPixel_spec by lia.
    repeat match goal with
    | |- context [(?a <=? ?b)%Z] =>
        let E := fresh "E" in destruct (Z.leb_spec a b) as [E|E]
    | |- context [(?a <? ?b)%Z] =>
        let E := fresh "E" in destruct (Z.ltb_spec a b) as [E|E]
    end; cbn [andb]; try reflexivity; lia.
Qed.

Lemma render_rows_spec (n : nat) :
  forall (y0 : Z) (data : ImageBytes) (j : Z),
  (0 <= y0)%Z -> (y0 + Z.of_nat n <= OFF_SIZE_px)%Z ->
  for_up (fun y data =>
            for_up (fun x data => renderPixel y x data) 0 (Z.to_nat OFF_SIZE_px) data)
         y0 n data j =
    if (y0 * OFF_SIZE_px * 4 <=? j)%Z && (j <? (y0 + Z.of_nat n) * OFF_SIZE_px * 4)%Z
    then wheelByte j else data j.
Proof.
  assert (HW : (0 < OFF_SIZE_px)%Z) by reflexivity.
  induction n as [|n IH]; intros y0 data j H0 H1.
  - cbn [for_up].
    destruct (Z.leb_spec (y0 * OFF_SIZE_px * 4) j);
    destruct (Z.ltb_spec j ((y0 + Z.of_nat 0) * OFF_SIZE_px * 4)); cbn [andb];
      try reflexivity; lia.
  - cbn [for_up]. rewrite IH by lia.
    rewrite render_row_spec by (rewrite ?Z2Nat.id; lia).
    rewrite Z2Nat.id by lia.
    repeat match goal with
    | |- context [(?a <=? ?b)%Z] =>
        let E := fresh "E" in destruct (Z.leb_spec a b) as [E|E]
    | |- context [(?a <? ?b)%Z] =>
        let E := fresh "E" in destruct (Z.ltb_spec a b) as [E|E]
    end; cbn [andb]; try reflexivity; lia.
Qed.

Lemma renderWheelBitmap_byte (j : Z) :
  (0 <= j < bitmapLength)%Z -> renderWheelBitmap j = wheelByte j.
Proof.
  intros Hj. unfold renderWheelBitmap. cbv zeta.
  rewrite render_rows_spec by (rewrite ?Z2Nat.id; unfold OFF_SIZE_px; lia).
  rewrite Z2Nat.id by (unfold OFF_SIZE_px; lia).
  unfold bitmapLength in Hj.
  destruct (Z.leb_spec (0 * OFF_SIZE_px * 4) j);
  destruct (Z.ltb_spec j ((0 + OFF_SIZE_px) * OFF_SIZE_px * 4)); cbn [andb];
    try reflexivity; lia.
Qed.

End BitmapPixels.

Section RenderedWheel.
Context {M : MathLib}.

Lemma getImageData_rendered (x y : Z) :
  (0 <= x < OFF_SIZE_px)%Z -> (0 <= y < OFF_SIZE_px)%Z ->
  getImageData renderWheelBitmap x y =
    match wheelColorAt (inject_Z x + 0.5) (inject_Z y + 0.5) with
    | Some c => mkRGB (wc_r c) (wc_g c) (wc_b c)
    | None => mkRGB 255 255 255
    end /\
  renderWheelBitmap ((y * OFF_SIZE_px + x) * 4 + 3)%Z = 255%Z.
Proof.
  intros Hx Hy.
  assert (HW : OFF_SIZE_px = 1600%Z) by reflexivity.
  set (p := (y * OFF_SIZE_px + x)%Z).
  assert (Hp : (0 <= p < OFF_SIZE_px * OFF_SIZE_px)%Z) by (unfold p; nia).
  assert (Hpy : (p / OFF_SIZE_px = y)%Z).
  { unfold p. rewrite Z.div_add_l by lia. rewrite Z.div_small by lia. lia. }
  assert (Hpx : (p mod OFF_SIZE_px = x)%Z).
  { unfold p. rewrite Z.add_comm, Z.mod_add by lia. now apply Z.mod_small. }
  assert (B : forall k : Z, (0 <= k < 4)%Z ->
            renderWheelBitmap (p * 4 + k)%Z =
            match wheelColorAt (inject_Z x + 0.5) (inject_Z y + 0.5) with
            | None => 255%Z
            | Some c =>
                if (k =? 0)%Z then wc_r c else if (k =? 1)%Z then wc_g c
                else if (k =? 2)%Z then wc_b c else 255%Z
            end).
  { intros k Hk. rewrite renderWheelBitmap_byte by (unfold bitmapLength; lia).
    unfold wheelByte. cbv zeta.
    assert (E4 : ((p * 4 + k) / 4 = p)%Z) by (clearbody p; Z.div_mod_to_equations; lia).
    assert (Em : ((p * 4 + k) mod 4 = k)%Z) by (clearbody p; Z.div_mod_to_equations; lia).
    now rewrite E4, Em, Hpy, Hpx. }
  split.
  - unfold getImageData. fold p.
    destruct (Z.leb_spec 0 x); [|lia]. destruct (Z.ltb_spec x OFF_SIZE_px); [|lia].
    destruct (Z.leb_spec 0 y); [|lia]. destruct (Z.ltb_spec y OFF_SIZE_px); [|lia].
    cbn [andb]. cbv zeta.
    pose proof (B 0%Z ltac:(lia)) as B0. rewrite Z.add_0_r in B0.
    rewrite B0, (B 1%Z), (B 2%Z) by lia.
    destruct (wheelColorAt (inject_Z x + 0.5) (inject_Z y + 0.5)); reflexivity.
  - rewrite (B 3%Z) by lia.
    destruct (wheelColorAt (inject_Z x + 0.5) (inject_Z y + 0.5)); reflexivity.
Qed.

(** X19. After [renderWheelBitmap] every pixel of the 1600 by 1600 bitmap
    is opaque and holds the wheel's colour at the pixel's centre, or white
    where the centre lies outside the colour band; its channels are in
    0..255. *)
Theorem renderWheelBitmap_pixels (x y : Z) :
  (0 <= x < OFF_SIZE_px)%Z -> (0 <= y < OFF_SIZE_px)%Z ->
  getImageData renderWheelBitmap x y =
    match wheelColorAt (inject_Z x + 0.5) (inject_Z y + 0.5) with
    | Some c => mkRGB (wc_r c) (wc_g c) (wc_b c)
    | None => mkRGB 255 255 255
    end /\
  renderWheelBitmap ((y * OFF_SIZE_px + x) * 4 + 3)%Z = 255%Z /\
  rgb8 (getImageData renderWheelBitmap x y).
Proof.
  intros Hx Hy. destruct (getImageData_rendered x y Hx Hy) as [E A].
  split; [exact E|]. split; [exact A|]. rewrite E.
  destruct (wheelColorAt (inject_Z x + 0.5) (inject_Z y + 0.5)) as [c|] eqn:Hc.
  - exact (wheelColorAt_rgb8 _ _ _ Hc).
  - unfold rgb8. cbn. lia.
Qed.

End RenderedWheel.

Lemma renderWheelBitmap_pixels_witness :
  renderWheelBitmap (M := axisMath) ((300 * OFF_SIZE_px + 800) * 4 + 3)%Z = 255%Z.
Proof.
  apply (proj1 (proj2 (renderWheelBitmap_pixels (M := axisMath) 800 300
                         ltac:(unfold OFF_SIZE_px; lia) ltac:(unfold OFF_SIZE_px; lia)))).
Defined.

(** ** Samples *)

Lemma pixelIndex_range (v : Q) : (0 <= pixelIndex v < OFF_SIZE_px)%Z.
Proof. unfold pixelIndex, OFF_SIZE_px. lia. Qed.

Lemma pixelIndex_near (v : Q) :
  0 <= v -> v < OFF_SIZE ->
  inject_Z (pixelIndex v) - (1 # 2) <= v /\ v < inject_Z (pixelIndex v) + 1.
Proof.
  intros H0 H1. change OFF_SIZE with 1600 in H1.
  unfold pixelIndex, js_round. change (OFF_SIZE_px - 1)%Z with 1599%Z.
  pose proof (Qfloor_le (v + (1 # 2))) as A. pose proof (Qlt_floor (v + (1 # 2))) as B.
  rewrite inject_Z_plus in B. change (inject_Z 1) with 1 in B.
  set (k := Qfloor (v + (1 # 2))) in *.
  assert (Hk0 : (0 <= k)%Z).
  { assert (C : inject_Z (-1) < inject_Z k) by (change (inject_Z (-1)) with (-1); lra).
    rewrite <- Zlt_Qlt in C. lia. }
  destruct (Z.le_gt_cases k 1599) as [Hk|Hk].
  - rewrite Z.min_r, Z.max_r by lia. split; lra.
  - rewrite Z.min_l, Z.max_r by lia. change (inject_Z 1599) with 1599.
    assert (C : inject_Z 1600 <= inject_Z k) by (rewrite <- Zle_Qle; lia).
    change (inject_Z 1600) with 1600 in C. split; lra.
Qed.

Section Samples.
Context {M : MathLib}.

Lemma sampleAtCanvas_defined (stage : Stage) (pt : Point) (px : Z -> Z -> RGB) :
  offCtx stage = Some px ->
  0 <= pt_x (canvasToOff stage pt) -> pt_x (canvasToOff stage pt) < OFF_SIZE ->
  0 <= pt_y (canvasToOff stage pt) -> pt_y (canvasToOff stage pt) < OFF_SIZE ->
  sampleAtCanvas stage pt <> None.
Proof.
  intros Ectx A B C D. unfold sampleAtCanvas. rewrite Ectx.
  set (o := canvasToOff stage pt) in *. clearbody o.
  destruct (pt_x o <? 0) eqn:G1; qbool; [lra|].
  destruct (pt_y o <? 0) eqn:G2; qbool; [lra|].
  destruct (OFF_SIZE <=? pt_x o) eqn:G3; qbool; [lra|].
  destruct (OFF_SIZE <=? pt_y o) eqn:G4; qbool; [lra|].
  cbn [orb]. destruct (readOffRgb stage _ _). discriminate.
Qed.

(** X20. A probe fails exactly when the offscreen canvas is missing or the
    point maps outside the bitmap square.  A sample's colour is the bitmap
    pixel at the rounded, clamped position, which lies in the bitmap and
    within one pixel of the probed position; its hex string is that of the
    colour, its inside flag is [isInsideWheel] at the probed position and
    its radial fraction lies in [0,1]. *)
Theorem sampleAtCanvas_domain (stage : Stage) (pt : Point) :
  let o := canvasToOff stage pt in
  (sampleAtCanvas stage pt = None <->
     offCtx stage = None \/
     ~ ((0 <= pt_x o /\ pt_x o < OFF_SIZE) /\ (0 <= pt_y o /\ pt_y o < OFF_SIZE))) /\
  (forall s : Sample, sampleAtCanvas stage pt = Some s ->
     let ix := pixelIndex (s_xOff s) in
     let iy := pixelIndex (s_yOff s) in
     (s_xOff s = pt_x o /\ s_yOff s = pt_y o) /\
     ((0 <= ix < OFF_SIZE_px)%Z /\ (0 <= iy < OFF_SIZE_px)%Z) /\
     (inject_Z ix - (1 # 2) <= s_xOff s /\ s_xOff s < inject_Z ix + 1) /\
     (inject_Z iy - (1 # 2) <= s_yOff s /\ s_yOff s < inject_Z iy + 1) /\
     s_rgb s = readOffRgb stage ix iy /\
     s_hex s = rgbToHex (rgb_r (s_rgb s)) (rgb_g (s_rgb s)) (rgb_b (s_rgb s)) /\
     s_inside s = isInsideWheel (s_xOff s) (s_yOff s) /\
     (0 <= s_f s /\ s_f s <= 1)).
Proof.
  intros o. unfold sampleAtCanvas. fold o.
  destruct (offCtx stage) as [px|] eqn:Ectx.
  2: { split; [split; [intros _; now left|reflexivity]|discriminate]. }
  destruct ((pt_x o <? 0) || (pt_y o <? 0) || (OFF_SIZE <=? pt_x o) || (OFF_SIZE <=? pt_y o))
    eqn:G.
  - split; [|discriminate]. split; [|reflexivity]. intros _. right.
    intros [[A B] [C D]].
    repeat (apply orb_true_iff in G; destruct G as [G|G]); qbool; lra.
  - repeat (apply orb_false_iff in G; let G' := fresh "G" in destruct G as [G G']). qbool.
    destruct (readOffRgb stage (pixelIndex (pt_x o)) (pixelIndex (pt_y o)))
      as [r g b] eqn:Ergb.
    split.
    + split; [discriminate|]. intros [H|H]; [discriminate|]. exfalso. apply H.
      repeat split; assumption.
    + intros s H. injection H as <-.
      cbn [s_xOff s_yOff s_rgb s_hex s_inside s_f rgb_r rgb_g rgb_b]. cbv zeta.
      split; [split; reflexivity|].
      split; [split; apply pixelIndex_range|].
      split; [now apply pixelIndex_near|].
      split; [now apply pixelIndex_near|].
      split; [exact (eq_sym Ergb)|]. split; [reflexivity|].
      split; [reflexivity|apply clamp01_range].
Qed.

End Samples.

Lemma rgbToHex_shape (c : RGB) :
  rgb8 c ->
  String.length (rgbToHex (rgb_r c) (rgb_g c) (rgb_b c)) = 7%nat /\
  toLowerCase (rgbToHex (rgb_r c) (rgb_g c) (rgb_b c))
    = rgbToHex (rgb_r c) (rgb_g c) (rgb_b c).
Proof.
  intros (Hr & Hg & Hb).
  destruct (hexByte_spec _ Hr) as (Lr & Cr & _).
  destruct (hexByte_spec _ Hg) as (Lg & Cg & _).
  destruct (hexByte_spec _ Hb) as (Lb & Cb & _).
  cbv zeta in *. unfold rgbToHex. cbn [map concat].
  split.
  - rewrite !string_length_app, Lr, Lg, Lb. reflexivity.
  - rewrite !toLowerCase_app, Cr, Cg, Cb. reflexivity.
Qed.

Section WheelSamples.
Context {M : MathLib} {L : MathLaws M}.

(** X21. Probing the rendered wheel: the sampled colour is the wheel's
    colour at the centre of the pixel read, or white outside the band; its
    channels are in 0..255 and its hex string has seven lower-case
    characters; the angle lies in [0,360) and the hue label is one of the
    sixteen names; a complement, when present, has an angle in [0,360) and
    an 8-bit colour read from the same bitmap. *)
Theorem sampleAtCanvas_wheelStage (tf : WheelTransform) (pt : Point) (s : Sample) :
  sampleAtCanvas (wheelStage tf) pt = Some s ->
  let ix := pixelIndex (s_xOff s) in
  let iy := pixelIndex (s_yOff s) in
  s_rgb s =
    match wheelColorAt (inject_Z ix + 0.5) (inject_Z iy + 0.5) with
    | Some c => mkRGB (wc_r c) (wc_g c) (wc_b c)
    | None => mkRGB 255 255 255
    end /\
  rgb8 (s_rgb s) /\
  (String.length (s_hex s) = 7%nat /\ toLowerCase (s_hex s) = s_hex s) /\
  (0 <= s_theta s /\ s_theta s < 360) /\
  In (s_hueLabel s) HUE_NAMES /\
  (forall c : Complement, s_comp s = Some c ->
     (0 <= comp_theta c /\ comp_theta c < 360) /\ rgb8 (comp_rgb c) /\
     String.length (comp_hex c) = 7%nat).
Proof.
  unfold sampleAtCanvas. cbn [wheelStage offCtx].
  set (o := canvasToOff (wheelStage tf) pt). clearbody o.
  destruct ((pt_x o <? 0) || (pt_y o <? 0) || (OFF_SIZE <=? pt_x o) || (OFF_SIZE <=? pt_y o));
    [discriminate|].
  assert (Hpix : forall a b : Q,
            readOffRgb (wheelStage tf) (pixelIndex a) (pixelIndex b) =
              match wheelColorAt (inject_Z (pixelIndex a) + 0.5)
                                 (inject_Z (pixelIndex b) + 0.5) with
              | Some c => mkRGB (wc_r c) (wc_g c) (wc_b c)
              | None => mkRGB 255 255 255
              end /\
            rgb8 (readOffRgb (wheelStage tf) (pixelIndex a) (pixelIndex b))).
  { intros a b. unfold readOffRgb. cbn [wheelStage offCtx].
    destruct (getImageData_rendered (pixelIndex a) (pixelIndex b)
                (pixelIndex_range a) (pixelIndex_range b)) as [E _].
    split; [exact E|]. rewrite E.
    destruct (wheelColorAt _ _) as [c|] eqn:Hc.
    - exact (wheelColorAt_rgb8 _ _ _ Hc).
    - unfold rgb8. cbn. lia. }
  destruct (Hpix (pt_x o) (pt_y o)) as [Ergb H8].
  destruct (readOffRgb (wheelStage tf) (pixelIndex (pt_x o)) (pixelIndex (pt_y o)))
    as [r g b] eqn:Eread.
  intros H. injection H as <-.
  cbn [s_xOff s_yOff s_rgb s_hex s_theta s_hueLabel s_comp]. cbv zeta.
  pose proof (thetaDegFromXY_range (pt_x o) (pt_y o)) as Ht.
  split; [exact Ergb|]. split; [exact H8|].
  split; [exact (rgbToHex_shape (mkRGB r g b) H8)|].
  split; [exact Ht|].
  split.
  { destruct (hueName_index (thetaDegFromXY (pt_x o) (pt_y o))) as (k & Hk & -> & _).
    apply nth_In. change (List.length HUE_NAMES) with 16%nat. lia. }
  intros c Hc.
  destruct ((radiusFromXY (pt_x o) (pt_y o) <=? MODEL_R_color)
            && (MODEL_R_inner <=? radiusFromXY (pt_x o) (pt_y o))); [|discriminate].
  injection Hc as <-. cbn [comp_theta comp_rgb comp_hex].
  split; [apply js_rem_nonneg; lra|].
  match goal with
  | |- rgb8 (readOffRgb _ (pixelIndex ?a) (pixelIndex ?b)) /\ _ =>
      destruct (Hpix a b) as [_ Hc8]
  end.
  split; [exact Hc8|]. exact (proj1 (rgbToHex_shape _ Hc8)).
Qed.

End WheelSamples.


Lemma sampleAtCanvas_wheelStage_witness :
  match sampleAtCanvas (M := axisMath)
          (wheelStage (M := axisMath) (mkWheelTransform 1 0 0 1 OFF_SIZE OFF_SIZE))
          (mkPoint 800 300) with
  | Some s => rgb8 (s_rgb s) /\ String.length (s_hex s) = 7%nat
  | None => False
  end.
Proof.
  destruct (sampleAtCanvas (M := axisMath)
              (wheelStage (M := axisMath) (mkWheelTransform 1 0 0 1 OFF_SIZE OFF_SIZE))
              (mkPoint 800 300))
    as [s|] eqn:E.
  - destruct (sampleAtCanvas_wheelStage (L := axisMath_laws) _ _ s E)
      as (_ & H8 & [Hlen _] & _).
    split; assumption.
  - revert E.
    apply (sampleAtCanvas_defined (M := axisMath)
             (wheelStage (M := axisMath) (mkWheelTransform 1 0 0 1 OFF_SIZE OFF_SIZE))
             (mkPoint 800 300) (getImageData (renderWheelBitmap (M := axisMath))) eq_refl);
      unfold canvasToOff; cbn [wheelStage tfRef tf_dx tf_dy tf_scale pt_x pt_y];
      vm_compute; first [discriminate | reflexivity].
Defined.

(** ** More on the palette *)

Lemma removeSwatch_In (id : string) (prev : list PaletteSwatch) (p : PaletteSwatch) :
  In p (removeSwatch id prev) <-> In p prev /\ sw_id p <> id.
Proof.
  unfold removeSwatch. rewrite filter_In.
  destruct (String.eqb_spec (sw_id p) id); cbn; intuition congruence.
Qed.

Lemma removeSwatch_absent (id : string) (prev : list PaletteSwatch) :
  ~ In id (map sw_id prev) -> removeSwatch id prev = prev.
Proof.
  unfold removeSwatch. induction prev as [|p prev IH]; cbn; intros H; [reflexivity|].
  destruct (String.eqb_spec (sw_id p) id) as [E|E]; cbn.
  - exfalso. apply H. now left.
  - f_equal. apply IH. intros Hin. apply H. now right.
Qed.

(** X22. [removeSwatch] deletes every swatch with the given id and nothing
    else, keeping the order; it changes nothing exactly when the id is
    absent, so it is idempotent, and two removals commute.  Adding a swatch
    to a palette with room and then removing it by its id gives what the
    removal alone gives on the previous palette: the previous palette
    itself when no older swatch carries that id, and otherwise the
    previous palette without those older swatches. *)
Theorem removeSwatch_spec (id : string) (prev : list PaletteSwatch) :
  ~ In id (map sw_id (removeSwatch id prev)) /\
  (forall p, In p (removeSwatch id prev) <-> In p prev /\ sw_id p <> id) /\
  (removeSwatch id prev = prev <-> ~ In id (map sw_id prev)) /\
  removeSwatch id (removeSwatch id prev) = removeSwatch id prev /\
  (forall id', removeSwatch id (removeSwatch id' prev)
               = removeSwatch id' (removeSwatch id prev)) /\
  (forall sw : PaletteSwatch,
     sw_id sw = id -> (List.length prev < 24)%nat ->
     removeSwatch id (insertSwatch sw prev) = removeSwatch id prev /\
     (removeSwatch id (insertSwatch sw prev) = prev <-> ~ In id (map sw_id prev))).
Proof.
  assert (A : ~ In id (map sw_id (removeSwatch id prev))).
  { intros Hin. apply in_map_iff in Hin. destruct Hin as (p & Hp & Hin).
    apply removeSwatch_In in Hin. tauto. }
  assert (B : removeSwatch id prev = prev <-> ~ In id (map sw_id prev)).
  { split; [|apply removeSwatch_absent]. intros E. now rewrite <- E. }
  split; [exact A|]. split; [intros p; apply removeSwatch_In|].
  split; [exact B|].
  split; [now apply removeSwatch_absent|].
  split.
  - intros id'. clear A B. unfold removeSwatch.
    induction prev as [|p prev IH]; cbn; [reflexivity|].
    destruct (String.eqb (sw_id p) id) eqn:E1; destruct (String.eqb (sw_id p) id') eqn:E2;
      cbn; rewrite ?E1, ?E2; cbn; rewrite IH; reflexivity.
  - intros sw Hid Hlen.
    assert (E : removeSwatch id (insertSwatch sw prev) = removeSwatch id prev).
    { unfold insertSwatch.
      destruct (existsb (fun p => sameHex p sw) prev); [reflexivity|].
      unfold slice24. rewrite firstn_all2 by (cbn; lia).
      unfold removeSwatch. cbn [filter]. now rewrite Hid, String.eqb_refl. }
    split; [exact E|]. now rewrite E.
Qed.

Lemma removeSwatch_spec_witness :
  let old := mkPaletteSwatch "a1" "#ff0000" (mkRGB 255 0 0) (rgbToHsl 255 0 0) "Red 0" in
  let new := mkPaletteSwatch "b2" "#00ff00" (mkRGB 0 255 0) (rgbToHsl 0 255 0) "Green 120" in
  removeSwatch "b2" (insertSwatch new [old]) = [old].
Proof.
  intros old new.
  destruct (removeSwatch_spec "b2" [old]) as (_ & _ & _ & _ & _ & H).
  apply (proj2 (H new eq_refl ltac:(cbn; lia))).
  cbn. intros [E|[]]. discriminate E.
Defined.

Lemma dedupe_app (a b uniq : list PaletteSwatch) :
  fold_left
    (fun uniq s => if negb (existsb (fun u => sameHex u s) uniq)
                   then uniq ++ [s] else uniq)
    (a ++ b) uniq =
  fold_left
    (fun uniq s => if negb (existsb (fun u => sameHex u s) uniq)
                   then uniq ++ [s] else uniq)
    b (fold_left
         (fun uniq s => if negb (existsb (fun u => sameHex u s) uniq)
                        then uniq ++ [s] else uniq)
         a uniq).
Proof. apply fold_left_app. Qed.

(** Swatches of [prev] whose colour does not occur in [uniq] are appended
    to it, the others are dropped. *)
Lemma dedupe_filter (prev uniq : list PaletteSwatch) :
  NoDup (map hexKey prev) ->
  fold_left
    (fun uniq s => if negb (existsb (fun u => sameHex u s) uniq)
                   then uniq ++ [s] else uniq)
    prev uniq =
  uniq ++ filter (fun p => negb (existsb (fun u => sameHex u p) uniq)) prev.
Proof.
  revert uniq. induction prev as [|s prev IH]; intros uniq H; cbn [fold_left filter].
  - now rewrite app_nil_r.
  - inversion_clear H as [|? ? Hnin Hnd].
    destruct (existsb (fun u => sameHex u s) uniq) eqn:E; cbn [negb].
    + now apply IH.
    + rewrite IH by assumption. rewrite <- app_assoc. cbn [app]. f_equal. f_equal.
      apply filter_ext_in. intros p Hp. f_equal.
      rewrite existsb_app. cbn [existsb]. rewrite orb_false_r.
      destruct (sameHex s p) eqn:Es; [|now rewrite orb_false_r].
      exfalso. apply Hnin. apply sameHex_iff in Es. rewrite Es. now apply in_map.
Qed.

(** X23. Merging harmony swatches into the palette gives the new swatches
    priority: when the new swatches are pairwise different colours and so
    are the old ones, the result is the new swatches followed by the old
    swatches of other colours, cut to 24.  So a colour already in the
    palette moves to the front under its new swatch, and every new colour
    among the first 24 is in the result. *)
Theorem mergeSwatches_priority (news prev : list PaletteSwatch) :
  NoDup (map hexKey news) -> NoDup (map hexKey prev) ->
  mergeSwatches news prev =
    firstn 24 (news ++ filter (fun p => negb (existsb (fun u => sameHex u p) news)) prev)
  /\ firstn (List.length news) (mergeSwatches news prev) = firstn 24 news.
Proof.
  intros Hn Hp.
  assert (E : mergeSwatches news prev =
    firstn 24 (news ++ filter (fun p => negb (existsb (fun u => sameHex u p) news)) prev)).
  { unfold mergeSwatches, slice24. cbv zeta. rewrite dedupe_app.
    rewrite (dedupe_fresh news []) by (cbn [app]; assumption). cbn [app].
    now rewrite dedupe_filter. }
  split; [exact E|]. rewrite E.
  set (rest := filter _ prev). clearbody rest.
  rewrite firstn_firstn.
  destruct (Nat.le_ge_cases (List.length news) 24) as [H|H].
  - rewrite Nat.min_l by assumption.
    rewrite firstn_app, Nat.sub_diag, firstn_all, firstn_O, app_nil_r.
    now rewrite firstn_all2.
  - rewrite Nat.min_r by assumption. rewrite firstn_app.
    replace (24 - List.length news)%nat with 0%nat by lia.
    now rewrite firstn_O, app_nil_r.
Qed.

Lemma mergeSwatches_priority_witness :
  let old := mkPaletteSwatch "a1" "#FF0000" (mkRGB 255 0 0) (rgbToHsl 255 0 0) "Red 0" in
  let new := mkPaletteSwatch "b2" "#ff0000" (mkRGB 255 0 0) (rgbToHsl 255 0 0) "Base Red 0" in
  firstn 1 (mergeSwatches [new] [old]) = firstn 24 [new].
Proof.
  intros old new.
  apply (proj2 (mergeSwatches_priority [new] [old]
                  ltac:(repeat constructor; intros [])
                  ltac:(repeat constructor; intros []))).
Defined.

Lemma combine_snoc {A B : Type} (l1 : list A) (l2 : list B) (a : A) (b : B) :
  List.length l1 = List.length l2 ->
  combine (l1 ++ [a]) (l2 ++ [b]) = combine l1 l2 ++ [(a, b)].
Proof.
  revert l2. induction l1 as [|x l1 IH]; intros [|y l2] H; cbn in *; try discriminate.
  - reflexivity.
  - f_equal. apply IH. now injection H.
Qed.

Lemma paletteCssLines_cons (sw : PaletteSwatch) (palette : list PaletteSwatch) :
  paletteCssLines (sw :: palette) =
  paletteCssLines palette ++ [paletteCssLine (List.length palette) sw].
Proof.
  unfold paletteCssLines. cbv zeta. cbn [rev].
  rewrite length_app, length_rev. cbn [List.length].
  rewrite seq_app. cbn [seq Nat.add].
  rewrite combine_snoc by now rewrite length_seq, length_rev.
  now rewrite map_app.
Qed.

Lemma string_app_assoc (a b c : string) : ((a ++ b) ++ c = a ++ (b ++ c))%string.
Proof. induction a as [|x a IH]; cbn; [reflexivity|now rewrite IH]. Qed.

Lemma concat_snoc (sep x y : string) (l : list string) :
  concat sep ((x :: l) ++ [y]) = (concat sep (x :: l) ++ sep ++ y)%string.
Proof.
  revert x. induction l as [|z l IH]; intros x.
  - reflexivity.
  - change (concat sep ((x :: z :: l) ++ [y]))
      with (x ++ sep ++ concat sep ((z :: l) ++ [y]))%string.
    rewrite IH.
    change (concat sep (x :: z :: l)) with (x ++ sep ++ concat sep (z :: l))%string.
    now rewrite !string_app_assoc.
Qed.

(** X24. The CSS export is the empty string exactly for the empty
    palette; otherwise it is [:root], an opening brace, the lines joined
    by line feeds and a closing brace, each on a line of its own.  There
    is one line per swatch, numbered from the oldest swatch (the last of
    the list) upwards, so adding a swatch at the front of a non-empty
    palette keeps the export up to its last line and inserts one line for
    the new swatch before the closing brace. *)
Theorem paletteCss_lines (sw : PaletteSwatch) (palette : list PaletteSwatch) :
  (paletteCss palette = ""%string <-> palette = []) /\
  (palette <> [] ->
   paletteCss palette =
     (":root" ++ newline ++ "{" ++ newline
        ++ concat newline (paletteCssLines palette) ++ newline ++ "}")%string) /\
  paletteCss [sw] =
    (":root" ++ newline ++ "{" ++ newline ++ paletteCssLine 0 sw ++ newline ++ "}")%string /\
  (palette <> [] ->
   exists body : string,
     paletteCss palette = (body ++ newline ++ "}")%string /\
     paletteCss (sw :: palette) =
       (body ++ newline ++ paletteCssLine (List.length palette) sw
          ++ newline ++ "}")%string) /\
  List.length (paletteCssLines palette) = List.length palette /\
  paletteCssLines (sw :: palette) =
    paletteCssLines palette ++ [paletteCssLine (List.length palette) sw] /\
  (forall (i : nat) (p : PaletteSwatch),
     nth_error (rev palette) i = Some p ->
     nth_error (paletteCssLines palette) i = Some (paletteCssLine i p)).
Proof.
  assert (Hlen : forall l, List.length (paletteCssLines l) = List.length l).
  { intros l. unfold paletteCssLines. cbv zeta.
    now rewrite length_map, length_combine, length_seq, length_rev, Nat.min_id. }
  split; [|split; [|split; [|split; [|split; [|split]]]]].
  - unfold paletteCss. destruct palette as [|p palette]; cbn [List.length Nat.eqb].
    + split; reflexivity.
    + split; intros H; discriminate H.
  - intros Hne. unfold paletteCss.
    destruct palette as [|p palette]; [contradiction|reflexivity].
  - reflexivity.
  - intros Hne.
    exists (":root" ++ newline ++ "{" ++ newline ++ concat newline (paletteCssLines palette))%string.
    split.
    + unfold paletteCss. destruct palette as [|p palette]; [contradiction|].
      cbn [List.length Nat.eqb]. cbv zeta. now rewrite !string_app_assoc.
    + unfold paletteCss. cbn [List.length Nat.eqb]. cbv zeta.
      rewrite paletteCssLines_cons.
      destruct (paletteCssLines palette) as [|x l] eqn:El.
      * exfalso. pose proof (Hlen palette) as H. rewrite El in H.
        destruct palette; [contradiction|discriminate H].
      * rewrite concat_snoc. now rewrite !string_app_assoc.
  - apply Hlen.
  - apply paletteCssLines_cons.
  - induction palette as [|q palette IH]; intros i p H.
    + destruct i; discriminate H.
    + rewrite paletteCssLines_cons. cbn [rev] in H.
      destruct (Nat.lt_ge_cases i (List.length palette)) as [Hi|Hi].
      * rewrite nth_error_app1 in H by now rewrite length_rev.
        rewrite nth_error_app1 by now rewrite Hlen. now apply IH.
      * rewrite nth_error_app2 in H by now rewrite length_rev.
        rewrite nth_error_app2 by now rewrite Hlen.
        rewrite length_rev in H. rewrite Hlen.
        destruct (i - List.length palette)%nat as [|k] eqn:Ek.
        -- cbn [nth_error] in H |- *. injection H as <-.
           replace i with (List.length palette) by lia. reflexivity.
        -- destruct k; discriminate H.
Qed.

Local Open Scope R_scope.

(** ** The sRGB transfer curve *)

Lemma clamp01_R_range (v : R) : 0 <= clamp01_R v <= 1.
Proof.
  unfold clamp01_R, Rmin, Rmax.
  destruct (Rle_dec 0 v); destruct (Rle_dec 1 _); lra.
Qed.

Lemma clamp01_R_mono (v w : R) : v <= w -> clamp01_R v <= clamp01_R w.
Proof.
  intros H. unfold clamp01_R, Rmin, Rmax.
  destruct (Rle_dec 0 v); destruct (Rle_dec 0 w);
  repeat match goal with |- context [Rle_dec ?a ?b] => destruct (Rle_dec a b) end; lra.
Qed.

Lemma js_round_R_mono (x y : R) : x <= y -> (js_round_R x <= js_round_R y)%Z.
Proof. intros H. unfold js_round_R. apply Zfloor_le. lra. Qed.

Lemma js_round_R_le (x : R) (hi : Z) : x < IZR hi + 0.5 -> (js_round_R x <= hi)%Z.
Proof.
  intros H. unfold js_round_R.
  pose proof (Zfloor_bound (x + 0.5)) as [A B].
  assert (C : IZR (Zfloor (x + 0.5)) < IZR (hi + 1)) by (rewrite plus_IZR; lra).
  apply lt_IZR in C. lia.
Qed.

Lemma js_round_R_ge (x : R) (lo : Z) : IZR lo - 0.5 <= x -> (lo <= js_round_R x)%Z.
Proof. intros H. unfold js_round_R. apply Zfloor_lub. lra. Qed.

Lemma linearToSrgb_range (L : R) : (0 <= linearToSrgb L <= 255)%Z.
Proof.
  unfold linearToSrgb.
  match goal with |- context [clamp01_R ?u] => pose proof (clamp01_R_range u) as [A B] end.
  split; [apply js_round_R_ge|apply js_round_R_le]; lra.
Qed.

(** Above the breakpoint the encoding power is at least 0.09. *)
Lemma encode_above_breakpoint (L : R) : 0.0031308 < L -> 0.09 < Rpower L (1 / 2.4).
Proof.
  intros HL. apply Rnot_le_lt. intros Hle.
  assert (Hpos : 0 < Rpower L (1 / 2.4)) by apply exp_pos.
  assert (H12 : Rpower L (1 / 2.4) ^ 12 <= 0.09 ^ 12) by (apply pow_incr; lra).
  rewrite <- (Rpower_pow 12 _ Hpos) in H12.
  replace (INR 12) with 12 in H12 by (simpl; lra).
  rewrite Rpower_5_12 in H12 by lra.
  assert (H5 : 0.0031308 ^ 5 <= L ^ 5) by (apply pow_incr; lra).
  assert (N : 0.09 ^ 12 < 0.0031308 ^ 5) by lra.
  lra.
Qed.

Lemma linearToSrgb_mono (L1 L2 : R) :
  L1 <= L2 -> (linearToSrgb L1 <= linearToSrgb L2)%Z.
Proof.
  intros H. unfold linearToSrgb.
  destruct (Rle_dec L1 0.0031308) as [H1|H1]; destruct (Rle_dec L2 0.0031308) as [H2|H2].
  - apply js_round_R_mono. apply Rmult_le_compat_r; [lra|]. apply clamp01_R_mono. lra.
  - pose proof (encode_above_breakpoint L2 ltac:(lra)) as Hp.
    apply Z.le_trans with 10%Z.
    + match goal with |- context [clamp01_R ?u] =>
        pose proof (clamp01_R_range u) as [A B];
        assert (C : clamp01_R u <= clamp01_R 0.04045) by (apply clamp01_R_mono; lra)
      end.
      rewrite (clamp01_R_id 0.04045) in C by lra.
      apply js_round_R_le; lra.
    + match goal with |- context [clamp01_R ?u] =>
        pose proof (clamp01_R_range u) as [A B];
        assert (C : clamp01_R 0.0399 <= clamp01_R u) by (apply clamp01_R_mono; lra)
      end.
      rewrite (clamp01_R_id 0.0399) in C by lra.
      apply js_round_R_ge; lra.
  - lra.
  - apply js_round_R_mono. apply Rmult_le_compat_r; [lra|]. apply clamp01_R_mono.
    assert (Rpower L1 (1 / 2.4) <= Rpower L2 (1 / 2.4)) by (apply Rle_Rpower_l; lra).
    lra.
Qed.

Lemma srgbToLinear_range (u8 : R) : 0 <= u8 <= 255 -> 0 <= srgbToLinear u8 <= 1.
Proof.
  intros [H0 H1]. unfold srgbToLinear.
  destruct (Rle_dec (u8 / 255) 0.04045) as [Hu|Hu]; [lra|].
  split; [left; apply exp_pos|].
  rewrite <- (Rpower_one_base 2.4). apply Rle_Rpower_l; lra.
Qed.

(** Just above the decoder's breakpoint the power branch has already
    passed the value the linear branch ends at. *)
Lemma decode_continuation (x : R) : 0.09047393 <= x -> 0.00313080496 <= Rpower x 2.4.
Proof.
  intros Hx. apply Rnot_lt_le. intros Hlt.
  assert (Hpos : 0 < Rpower x 2.4) by apply exp_pos.
  assert (H5 : Rpower (Rpower x 2.4) 5 <= Rpower 0.00313080496 5).
  { apply Rle_Rpower_l; lra. }
  rewrite Rpower_12_5 in H5 by lra.
  replace 5 with (INR 5) in H5 by (simpl; lra).
  rewrite Rpower_pow in H5 by lra.
  assert (H12 : 0.09047393 ^ 12 <= x ^ 12) by (apply pow_incr; lra).
  assert (N : 0.00313080496 ^ 5 < 0.09047393 ^ 12) by lra.
  lra.
Qed.

Lemma srgbToLinear_mono (u v : R) : u <= v -> srgbToLinear u <= srgbToLinear v.
Proof.
  intros H. unfold srgbToLinear.
  destruct (Rle_dec (u / 255) 0.04045) as [Hu|Hu];
  destruct (Rle_dec (v / 255) 0.04045) as [Hv|Hv].
  - lra.
  - pose proof (decode_continuation ((v / 255 + 0.055) / 1.055) ltac:(lra)). lra.
  - lra.
  - apply Rle_Rpower_l; lra.
Qed.

(** X25. The sRGB transfer functions are order-preserving:
    [linearToSrgb] always returns an integer in 0..255, never decreases
    when its argument grows, and saturates at 0 for non-positive and at
    255 for arguments from 1 on; [srgbToLinear] never decreases either and
    maps 0..255 into [0,1]. *)
Theorem srgb_transfer_monotone (L1 L2 : R) :
  (0 <= linearToSrgb L1 <= 255)%Z /\
  (L1 <= L2 -> (linearToSrgb L1 <= linearToSrgb L2)%Z) /\
  (L1 <= 0 -> linearToSrgb L1 = 0%Z) /\
  (1 <= L1 -> linearToSrgb L1 = 255%Z) /\
  (L1 <= L2 -> srgbToLinear L1 <= srgbToLinear L2) /\
  (0 <= L1 <= 255 -> 0 <= srgbToLinear L1 <= 1).
Proof.
  split; [apply linearToSrgb_range|]. split; [apply linearToSrgb_mono|].
  split; [|split; [|split; [apply srgbToLinear_mono|apply srgbToLinear_range]]].
  - intros H. pose proof (linearToSrgb_range L1) as [A _].
    pose proof (linearToSrgb_mono L1 0 H) as B.
    replace 0 with (srgbToLinear (IZR 0)) in B by apply srgbToLinear_0.
    rewrite srgb_roundtrip in B by lia. lia.
  - intros H. pose proof (linearToSrgb_range L1) as [_ A].
    pose proof (linearToSrgb_mono 1 L1 H) as B.
    replace 1 with (srgbToLinear (IZR 255)) in B by apply srgbToLinear_255.
    rewrite srgb_roundtrip in B by lia. lia.
Qed.

Lemma srgb_transfer_monotone_witness :
  (linearToSrgb (1 / 4) <= linearToSrgb (1 / 2))%Z /\ linearToSrgb 2 = 255%Z.
Proof.
  split.
  - apply (proj1 (proj2 (srgb_transfer_monotone (1 / 4) (1 / 2)))). lra.
  - apply (proj1 (proj2 (proj2 (proj2 (srgb_transfer_monotone 2 0))))). lra.
Defined.

(** ** Mixing, tints and shades *)

Lemma mix_channel_mono (x y : Z) (t1 t2 : R) :
  (0 <= x <= 255)%Z -> (0 <= y <= 255)%Z -> (x <= y)%Z -> t1 <= t2 ->
  (linearToSrgb (srgbToLinear (IZR x) + (srgbToLinear (IZR y) - srgbToLinear (IZR x)) * t1)
   <= linearToSrgb (srgbToLinear (IZR x) + (srgbToLinear (IZR y) - srgbToLinear (IZR x)) * t2))%Z.
Proof.
  intros Hx Hy Hxy Ht. apply linearToSrgb_mono.
  assert (srgbToLinear (IZR x) <= srgbToLinear (IZR y))
    by (apply srgbToLinear_mono, IZR_le; lia).
  nra.
Qed.

Lemma mix_channel_anti (x y : Z) (t1 t2 : R) :
  (0 <= x <= 255)%Z -> (0 <= y <= 255)%Z -> (y <= x)%Z -> t1 <= t2 ->
  (linearToSrgb (srgbToLinear (IZR x) + (srgbToLinear (IZR y) - srgbToLinear (IZR x)) * t2)
   <= linearToSrgb (srgbToLinear (IZR x) + (srgbToLinear (IZR y) - srgbToLinear (IZR x)) * t1))%Z.
Proof.
  intros Hx Hy Hxy Ht. apply linearToSrgb_mono.
  assert (srgbToLinear (IZR y) <= srgbToLinear (IZR x))
    by (apply srgbToLinear_mono, IZR_le; lia).
  nra.
Qed.

Lemma mix_channel_0 (x y : Z) :
  (0 <= x <= 255)%Z ->
  linearToSrgb (srgbToLinear (IZR x) + (srgbToLinear (IZR y) - srgbToLinear (IZR x)) * 0) = x.
Proof.
  intros Hx.
  replace (srgbToLinear (IZR x) + (srgbToLinear (IZR y) - srgbToLinear (IZR x)) * 0)
    with (srgbToLinear (IZR x)) by ring.
  now apply srgb_roundtrip.
Qed.

Lemma mix_channel_1 (x y : Z) :
  (0 <= y <= 255)%Z ->
  linearToSrgb (srgbToLinear (IZR x) + (srgbToLinear (IZR y) - srgbToLinear (IZR x)) * 1) = y.
Proof.
  intros Hy.
  replace (srgbToLinear (IZR x) + (srgbToLinear (IZR y) - srgbToLinear (IZR x)) * 1)
    with (srgbToLinear (IZR y)) by ring.
  now apply srgb_roundtrip.
Qed.

Lemma mix_channel_between (x y : Z) (t : R) :
  (0 <= x <= 255)%Z -> (0 <= y <= 255)%Z -> 0 <= t <= 1 ->
  (Z.min x y
   <= linearToSrgb (srgbToLinear (IZR x) + (srgbToLinear (IZR y) - srgbToLinear (IZR x)) * t)
   <= Z.max x y)%Z.
Proof.
  intros Hx Hy [T0 T1].
  destruct (Z.le_ge_cases x y) as [Hxy|Hxy].
  - pose proof (mix_channel_mono x y 0 t Hx Hy Hxy T0) as A.
    pose proof (mix_channel_mono x y t 1 Hx Hy Hxy T1) as B.
    rewrite mix_channel_0 in A by assumption. rewrite mix_channel_1 in B by assumption. lia.
  - pose proof (mix_channel_anti x y 0 t Hx Hy Hxy T0) as A.
    pose proof (mix_channel_anti x y t 1 Hx Hy Hxy T1) as B.
    rewrite mix_channel_0 in A by assumption. rewrite mix_channel_1 in B by assumption. lia.
Qed.

Lemma mixLinearRGB_rgb8 (a b : RGB) (t : R) : rgb8 (mixLinearRGB a b t).
Proof.
  unfold mixLinearRGB, rgb8. cbn [rgb_r rgb_g rgb_b]. repeat split; apply linearToSrgb_range.
Qed.

Lemma mixLinearRGB_mono (a b : RGB) (t1 t2 : R) :
  rgb8 a -> rgb8 b -> rgb_le a b -> t1 <= t2 ->
  rgb_le (mixLinearRGB a b t1) (mixLinearRGB a b t2).
Proof.
  intros (Ar & Ag & Ab) (Br & Bg & Bb) (Lr & Lg & Lb) Ht.
  unfold mixLinearRGB, rgbToLinearRgb, rgb_le.
  cbn [rgb_r rgb_g rgb_b lin_r lin_g lin_b].
  repeat split; now apply mix_channel_mono.
Qed.

Lemma mixLinearRGB_anti (a b : RGB) (t1 t2 : R) :
  rgb8 a -> rgb8 b -> rgb_le b a -> t1 <= t2 ->
  rgb_le (mixLinearRGB a b t2) (mixLinearRGB a b t1).
Proof.
  intros (Ar & Ag & Ab) (Br & Bg & Bb) (Lr & Lg & Lb) Ht.
  unfold mixLinearRGB, rgbToLinearRgb, rgb_le.
  cbn [rgb_r rgb_g rgb_b lin_r lin_g lin_b].
  repeat split; now apply mix_channel_anti.
Qed.

Lemma mixLinearRGB_0 (a b : RGB) : rgb8 a -> mixLinearRGB a b 0 = a.
Proof.
  intros (Ar & Ag & Ab). destruct a as [ar ag ab]. cbn [rgb_r rgb_g rgb_b] in *.
  unfold mixLinearRGB, rgbToLinearRgb. cbn [rgb_r rgb_g rgb_b lin_r lin_g lin_b].
  now rewrite !mix_channel_0.
Qed.

(** X26. [mixLinearRGB] always returns channels in 0..255.  For 8-bit
    colours and a fraction in [0,1] every channel of the mix lies between
    the corresponding channels of the two colours; mixing a colour with
    itself returns it, whatever the fraction; and when no channel of [a]
    exceeds that of [b], no channel of the mix decreases as the fraction
    grows. *)
Theorem mixLinearRGB_between (a b : RGB) (t t' : R) :
  rgb8 a -> rgb8 b ->
  rgb8 (mixLinearRGB a b t) /\
  (0 <= t <= 1 ->
   let c := mixLinearRGB a b t in
   (Z.min (rgb_r a) (rgb_r b) <= rgb_r c <= Z.max (rgb_r a) (rgb_r b))%Z /\
   (Z.min (rgb_g a) (rgb_g b) <= rgb_g c <= Z.max (rgb_g a) (rgb_g b))%Z /\
   (Z.min (rgb_b a) (rgb_b b) <= rgb_b c <= Z.max (rgb_b a) (rgb_b b))%Z) /\
  mixLinearRGB a a t = a /\
  (rgb_le a b -> t <= t' -> rgb_le (mixLinearRGB a b t) (mixLinearRGB a b t')).
Proof.
  intros Ha Hb.
  assert (Btw : forall p q : RGB, rgb8 p -> rgb8 q -> 0 <= t <= 1 ->
            let c := mixLinearRGB p q t in
            (Z.min (rgb_r p) (rgb_r q) <= rgb_r c <= Z.max (rgb_r p) (rgb_r q))%Z /\
            (Z.min (rgb_g p) (rgb_g q) <= rgb_g c <= Z.max (rgb_g p) (rgb_g q))%Z /\
            (Z.min (rgb_b p) (rgb_b q) <= rgb_b c <= Z.max (rgb_b p) (rgb_b q))%Z).
  { intros p q (Pr & Pg & Pb) (Qr & Qg & Qb) Ht c. subst c.
    unfold mixLinearRGB, rgbToLinearRgb. cbn [rgb_r rgb_g rgb_b lin_r lin_g lin_b].
    repeat split; now apply mix_channel_between. }
  split; [apply mixLinearRGB_rgb8|]. split; [now apply Btw|].
  split; [|now apply mixLinearRGB_mono].
  destruct Ha as (Ar & Ag & Ab). destruct a as [ar ag ab]. cbn [rgb_r rgb_g rgb_b] in *.
  unfold mixLinearRGB, rgbToLinearRgb. cbn [rgb_r rgb_g rgb_b lin_r lin_g lin_b].
  replace (srgbToLinear (IZR ar) + (srgbToLinear (IZR ar) - srgbToLinear (IZR ar)) * t)
    with (srgbToLinear (IZR ar)) by ring.
  replace (srgbToLinear (IZR ag) + (srgbToLinear (IZR ag) - srgbToLinear (IZR ag)) * t)
    with (srgbToLinear (IZR ag)) by ring.
  replace (srgbToLinear (IZR ab) + (srgbToLinear (IZR ab) - srgbToLinear (IZR ab)) * t)
    with (srgbToLinear (IZR ab)) by ring.
  now rewrite !srgb_roundtrip.
Qed.

Lemma mixLinearRGB_between_witness :
  mixLinearRGB (mkRGB 255 128 0) (mkRGB 255 128 0) (1 / 3) = mkRGB 255 128 0.
Proof.
  apply (proj1 (proj2 (proj2 (mixLinearRGB_between (mkRGB 255 128 0) (mkRGB 255 128 0)
                                (1 / 3) 1 ltac:(unfold rgb8; cbn; lia)
                                ltac:(unfold rgb8; cbn; lia))))).
Defined.

Lemma tints_unfold (sample : Sample) (tintSteps : Z) :
  tints (Some sample) tintSteps =
  tintLadder_spec (s_rgb sample) (s_hex sample) tintSteps.
Proof.
  unfold tints, tintLadder_spec. cbv zeta.
  rewrite for_up_push, for_down_push. cbn [app].
  rewrite <- app_assoc. cbn [app].
  apply (f_equal (app _)). apply (f_equal (cons _)).
  rewrite <- seq_shift, map_map. apply map_ext. intros k.
  replace (1 + Z.of_nat k)%Z with (Z.of_nat (S k)) by lia. reflexivity.
Qed.

Lemma ladderLevel_mono (base : RGB) (half k1 k2 : Z) :
  rgb8 base -> (0 <= half)%Z -> (k1 <= k2)%Z ->
  rgb_le (ladderLevel base half k1) (ladderLevel base half k2).
Proof.
  intros Hb Hh Hk.
  assert (Hden : 0 < IZR (half + 1)) by (apply IZR_lt; lia).
  assert (Hw : rgb8 (mkRGB 255 255 255)) by (unfold rgb8; cbn; lia).
  assert (Hk0 : rgb8 (mkRGB 0 0 0)) by (unfold rgb8; cbn; lia).
  assert (Lw : rgb_le base (mkRGB 255 255 255)).
  { destruct Hb as (A & B & C). unfold rgb_le. cbn. lia. }
  assert (Lk : rgb_le (mkRGB 0 0 0) base).
  { destruct Hb as (A & B & C). unfold rgb_le. cbn. lia. }
  assert (Div : forall a b : Z, (a <= b)%Z -> IZR a / IZR (half + 1) <= IZR b / IZR (half + 1)).
  { intros a b Hab. apply IZR_le in Hab.
    apply Rmult_le_compat_r; [|exact Hab]. left. now apply Rinv_0_lt_compat. }
  assert (Trans : forall a b c, rgb_le a b -> rgb_le b c -> rgb_le a c).
  { unfold rgb_le. intros a b c (A1 & A2 & A3) (B1 & B2 & B3). lia. }
  unfold ladderLevel.
  destruct (Z.leb_spec 0 k1) as [H1|H1]; destruct (Z.leb_spec 0 k2) as [H2|H2]; try lia.
  - apply mixLinearRGB_mono; try assumption. apply Div. lia.
  - apply Trans with base.
    + rewrite <- (mixLinearRGB_0 base (mkRGB 0 0 0) Hb) at 2.
      apply mixLinearRGB_anti; try assumption.
      replace 0 with (IZR 0 / IZR (half + 1)) by (unfold Rdiv; ring). apply Div. lia.
    + rewrite <- (mixLinearRGB_0 base (mkRGB 255 255 255) Hb) at 1.
      apply mixLinearRGB_mono; try assumption.
      replace 0 with (IZR 0 / IZR (half + 1)) by (unfold Rdiv; ring). apply Div. lia.
  - apply mixLinearRGB_anti; try assumption. apply Div. lia.
Qed.

Lemma tintLadder_nth (base : RGB) (baseHex : string) (tintSteps : Z) (i : nat) :
  rgb8 base ->
  let half := (Z.max 3 (Z.min 11 tintSteps) / 2)%Z in
  (i < 2 * Z.to_nat half + 1)%nat ->
  nth i (map ts_rgb (tintLadder_spec base baseHex tintSteps)) base =
  ladderLevel base half (half - Z.of_nat i).
Proof.
  intros Hb half Hi.
  assert (Hh : (1 <= half <= 5)%Z) by (unfold half; Z.div_mod_to_equations; lia).
  unfold tintLadder_spec. cbv zeta. fold half.
  set (h := Z.to_nat half) in *.
  assert (Ehalf : half = Z.of_nat h) by (unfold h; lia).
  rewrite !map_app, !map_map. cbn [map ts_rgb].
  set (T := fun x : nat => mixLinearRGB base (mkRGB 255 255 255)
                             (IZR (Z.of_nat x) / IZR (half + 1))).
  set (S' := fun x : nat => mixLinearRGB base (mkRGB 0 0 0)
                              (IZR (Z.of_nat x) / IZR (half + 1))).
  unfold ladderLevel.
  destruct (Nat.lt_trichotomy i h) as [Hlt|[Heq|Hgt]].
  - rewrite app_nth1 by (rewrite length_map, length_rev, length_seq; lia).
    rewrite (nth_indep _ base (T 0%nat))
      by (rewrite length_map, length_rev, length_seq; lia).
    rewrite map_nth, rev_nth by (rewrite length_seq; lia).
    rewrite length_seq, seq_nth by lia.
    destruct (Z.leb_spec 0 (half - Z.of_nat i)); [|lia].
    unfold T. do 3 f_equal. lia.
  - rewrite app_nth2 by (rewrite length_map, length_rev, length_seq; lia).
    rewrite length_map, length_rev, length_seq. subst i. rewrite Nat.sub_diag.
    cbn [app nth].
    destruct (Z.leb_spec 0 (half - Z.of_nat h)); [|lia].
    replace (half - Z.of_nat h)%Z with 0%Z by lia.
    replace (IZR 0 / IZR (half + 1)) with 0 by (unfold Rdiv; ring).
    symmetry. now apply mixLinearRGB_0.
  - rewrite app_nth2 by (rewrite length_map, length_rev, length_seq; lia).
    rewrite length_map, length_rev, length_seq.
    destruct (i - h)%nat as [|m] eqn:Em; [lia|]. cbn [app nth].
    rewrite (nth_indep _ base (S' 0%nat)) by (rewrite length_map, length_seq; lia).
    rewrite map_nth, seq_nth by lia.
    destruct (Z.leb_spec 0 (half - Z.of_nat i)); [lia|].
    unfold S'. do 3 f_equal. lia.
Qed.

Lemma tintLadder_length (base : RGB) (baseHex : string) (tintSteps : Z) :
  List.length (tintLadder_spec base baseHex tintSteps) =
  (2 * Z.to_nat (Z.max 3 (Z.min 11 tintSteps) / 2) + 1)%nat.
Proof.
  unfold tintLadder_spec. cbv zeta.
  rewrite !length_app, !length_map, length_rev, !length_seq. cbn [List.length]. lia.
Qed.

(** X27. For an 8-bit base colour the tint and shade ladder runs from
    lightest to darkest: an entry further down never has a larger red,
    green or blue channel than an entry above it, so no tint is darker and
    no shade lighter than the base in any channel; every entry has
    channels in 0..255. *)
Theorem tints_sorted (sample : Sample) (tintSteps : Z) (i j : nat) :
  rgb8 (s_rgb sample) ->
  (i <= j < List.length (tints (Some sample) tintSteps))%nat ->
  let rgbs := map ts_rgb (tints (Some sample) tintSteps) in
  rgb_le (nth j rgbs (s_rgb sample)) (nth i rgbs (s_rgb sample)) /\
  rgb8 (nth i rgbs (s_rgb sample)) /\ rgb8 (nth j rgbs (s_rgb sample)).
Proof.
  intros Hb Hij rgbs. subst rgbs. rewrite tints_unfold in *.
  rewrite tintLadder_length in Hij.
  rewrite !tintLadder_nth by (assumption || lia).
  set (half := (Z.max 3 (Z.min 11 tintSteps) / 2)%Z) in *.
  assert (Hh : (1 <= half <= 5)%Z) by (unfold half; Z.div_mod_to_equations; lia).
  split; [apply ladderLevel_mono; [assumption|lia|lia]|].
  split; unfold ladderLevel; destruct (0 <=? _)%Z; apply mixLinearRGB_rgb8.
Qed.

Lemma tints_sorted_witness :
  let base := mkRGB 200 100 50 in
  let s := mkSample 0%Q 0%Q 0%Q 0%Q 0%Q 0%Q 0%Q false base "#c86432" "rgb(200 100 50)"
             "Red-Orange" Warm (rgbToHsl 200 100 50) (rgbToHsv 200 100 50)
             (rgbToHwb 200 100 50) (rgbToCmyk 200 100 50) None in
  let rgbs := map ts_rgb (tints (Some s) 3) in
  rgb_le (nth 2 rgbs base) (nth 0 rgbs base).
Proof.
  intros base s.
  apply (tints_sorted s 3 0 2).
  - unfold rgb8. cbn. lia.
  - rewrite tints_unfold, tintLadder_length.
    change (Z.to_nat (Z.max 3 (Z.min 11 3) / 2)) with 1%nat. cbn. lia.
Defined.

(** ** CIE XYZ and Lab *)

Lemma cube_root_cubed (t : R) : 0 < t -> Rpower t (1 / 3) ^ 3 = t.
Proof.
  intros Ht.
  assert (Hpos : 0 < Rpower t (1 / 3)) by apply exp_pos.
  rewrite <- (Rpower_pow 3 _ Hpos), Rpower_mult.
  replace (1 / 3 * INR 3) with 1 by (simpl; lra).
  now apply Rpower_1.
Qed.

Lemma cube_root_lower (t c : R) : 0 < c -> c ^ 3 <= t -> c <= Rpower t (1 / 3).
Proof.
  intros Hc Ht. apply Rnot_lt_le. intros Hlt.
  assert (Hpos : 0 < Rpower t (1 / 3)) by apply exp_pos.
  assert (H0 : 0 < t) by (assert (0 < c ^ 3) by (apply pow_lt; lra); lra).
  pose proof (cube_root_cubed t H0) as E.
  assert (Rpower t (1 / 3) ^ 3 < c ^ 3).
  { simpl. assert (Rpower t (1 / 3) * Rpower t (1 / 3) < c * c) by nra. nra. }
  lra.
Qed.

Lemma cube_root_upper (t c : R) : 0 < t -> t <= c ^ 3 -> 0 < c -> Rpower t (1 / 3) <= c.
Proof.
  intros Ht Hc Hc0. apply Rnot_lt_le. intros Hlt.
  pose proof (cube_root_cubed t Ht) as E.
  assert (c ^ 3 < Rpower t (1 / 3) ^ 3).
  { simpl. assert (c * c < Rpower t (1 / 3) * Rpower t (1 / 3)) by nra. nra. }
  lra.
Qed.

Lemma fLab_mono (s t : R) : s <= t -> fLab s <= fLab t.
Proof.
  intros H. unfold fLab. cbv zeta.
  destruct (Rlt_dec (6 / 29 * (6 / 29) * (6 / 29)) s) as [Hs|Hs];
  destruct (Rlt_dec (6 / 29 * (6 / 29) * (6 / 29)) t) as [Ht|Ht].
  - apply Rle_Rpower_l; lra.
  - lra.
  - pose proof (cube_root_lower t (6 / 29) ltac:(lra) ltac:(lra)). lra.
  - lra.
Qed.

Lemma fLab_0 : fLab 0 = 4 / 29.
Proof.
  unfold fLab. cbv zeta.
  destruct (Rlt_dec (6 / 29 * (6 / 29) * (6 / 29)) 0); lra.
Qed.

Lemma fLab_1 : fLab 1 = 1.
Proof.
  unfold fLab. cbv zeta.
  destruct (Rlt_dec (6 / 29 * (6 / 29) * (6 / 29)) 1); [|lra].
  apply Rpower_one_base.
Qed.

(** X28. For channels in [0,255] the tristimulus values of [rgbToXyzD65]
    are non-negative and bounded by the white point's, 0.95047, 1.0000001
    and 1.08883 (the luminance row sums to slightly more than 1); black
    maps to zero; the Lab lightness of the result lies between 0 and
    100.0000116, and does not exceed 100 when [Y <= 1]. *)
Theorem rgbToXyzD65_ranges (r g b : R) :
  0 <= r <= 255 -> 0 <= g <= 255 -> 0 <= b <= 255 ->
  let xyz := rgbToXyzD65 r g b in
  let lab := xyzToLabD65 xyz in
  (0 <= cie_X xyz <= 0.95047 /\ 0 <= cie_Y xyz <= 1.0000001 /\
   0 <= cie_Z xyz <= 1.08883) /\
  (cie_X (rgbToXyzD65 0 0 0) = 0 /\ cie_Y (rgbToXyzD65 0 0 0) = 0 /\
   cie_Z (rgbToXyzD65 0 0 0) = 0) /\
  cie_Y (rgbToXyzD65 255 255 255) = 1.0000001 /\
  (0 <= lab_L lab <= 100.0000116) /\
  (cie_Y xyz <= 1 -> lab_L lab <= 100).
Proof.
  intros Hr Hg Hb xyz lab. subst lab xyz.
  pose proof (srgbToLinear_range r Hr) as [R0 R1].
  pose proof (srgbToLinear_range g Hg) as [G0 G1].
  pose proof (srgbToLinear_range b Hb) as [B0 B1].
  unfold rgbToXyzD65, xyzToLabD65. cbv zeta. cbn [cie_X cie_Y cie_Z lab_L].
  rewrite srgbToLinear_0, srgbToLinear_255.
  set (R' := srgbToLinear r) in *. set (G' := srgbToLinear g) in *.
  set (B' := srgbToLinear b) in *.
  set (Y := 0.2126729 * R' + 0.7151522 * G' + 0.072175 * B').
  assert (HY : 0 <= Y <= 1.0000001) by (unfold Y; lra).
  split; [repeat split; lra|]. split; [repeat split; lra|]. split; [lra|].
  replace (Y / 1.0) with Y by lra.
  pose proof (fLab_mono 0 Y ltac:(lra)) as L0. rewrite fLab_0 in L0.
  split; [split; [lra|]|].
  - assert (U : fLab Y <= 1.0000001).
    { unfold fLab. cbv zeta.
      destruct (Rlt_dec (6 / 29 * (6 / 29) * (6 / 29)) Y) as [Hy|Hy]; [|lra].
      apply cube_root_upper; [lra| |lra].
      assert (1.0000001 <= 1.0000001 ^ 3) by lra. lra. }
    lra.
  - intros HY1. pose proof (fLab_mono Y 1 HY1) as L1. rewrite fLab_1 in L1. lra.
Qed.

Lemma rgbToXyzD65_ranges_witness :
  0 <= lab_L (xyzToLabD65 (rgbToXyzD65 200 100 50)) <= 100.0000116.
Proof.
  apply (proj1 (proj2 (proj2 (proj2 (rgbToXyzD65_ranges 200 100 50
                                       ltac:(lra) ltac:(lra) ltac:(lra)))))).
Defined.

(** X29. In [xyzToLabD65] the lightness depends on [Y] only and never
    decreases when [Y] grows; it is 0 for [Y = 0] and 100 for [Y = 1].  A
    colour on the neutral axis, with [X / 0.95047 = Y = Z / 1.08883], has
    [a = b = 0]; and [a] is not negative when [X / 0.95047 >= Y], [b] is
    not negative when [Y >= Z / 1.08883]. *)
Theorem xyzToLabD65_lightness (p q : XYZ_D65) :
  (cie_Y p <= cie_Y q -> lab_L (xyzToLabD65 p) <= lab_L (xyzToLabD65 q)) /\
  (cie_Y p = 0 -> lab_L (xyzToLabD65 p) = 0) /\
  (cie_Y p = 1 -> lab_L (xyzToLabD65 p) = 100) /\
  (cie_X p / 0.95047 = cie_Y p -> lab_a (xyzToLabD65 p) = 0) /\
  (cie_Z p / 1.08883 = cie_Y p -> lab_b (xyzToLabD65 p) = 0) /\
  (cie_Y p <= cie_X p / 0.95047 -> 0 <= lab_a (xyzToLabD65 p)) /\
  (cie_Z p / 1.08883 <= cie_Y p -> 0 <= lab_b (xyzToLabD65 p)).
Proof.
  unfold xyzToLabD65. cbv zeta. cbn [lab_L lab_a lab_b].
  replace (cie_Y p / 1.0) with (cie_Y p) by lra.
  replace (cie_Y q / 1.0) with (cie_Y q) by lra.
  split; [|split; [|split; [|split; [|split; [|split]]]]].
  - intros H. pose proof (fLab_mono _ _ H). lra.
  - intros ->. rewrite fLab_0. lra.
  - intros ->. rewrite fLab_1. lra.
  - intros ->. lra.
  - intros ->. lra.
  - intros H. pose proof (fLab_mono _ _ H). lra.
  - intros H. pose proof (fLab_mono _ _ H). lra.
Qed.

Lemma cube_root_lower_strict (t c : R) : 0 < c -> c ^ 3 < t -> c < Rpower t (1 / 3).
Proof.
  intros Hc Ht. apply Rnot_le_lt. intros Hle.
  assert (Hpos : 0 < Rpower t (1 / 3)) by apply exp_pos.
  assert (H0 : 0 < t) by (assert (0 < c ^ 3) by (apply pow_lt; lra); lra).
  pose proof (cube_root_cubed t H0) as E.
  assert (Rpower t (1 / 3) ^ 3 <= c ^ 3).
  { simpl. assert (Rpower t (1 / 3) * Rpower t (1 / 3) <= c * c) by nra. nra. }
  lra.
Qed.

Lemma fLab_strict (s t : R) : s < t -> fLab s < fLab t.
Proof.
  intros H. unfold fLab. cbv zeta.
  destruct (Rlt_dec (6 / 29 * (6 / 29) * (6 / 29)) s) as [Hs|Hs];
  destruct (Rlt_dec (6 / 29 * (6 / 29) * (6 / 29)) t) as [Ht|Ht].
  - apply Rlt_Rpower_l; lra.
  - lra.
  - pose proof (cube_root_lower_strict t (6 / 29) ltac:(lra) ltac:(lra)). lra.
  - lra.
Qed.

Lemma fLab_inj (s t : R) : fLab s = fLab t -> s = t.
Proof.
  intros E. destruct (Rtotal_order s t) as [H|[H|H]]; [|assumption|].
  - pose proof (fLab_strict s t H). lra.
  - pose proof (fLab_strict t s H). lra.
Qed.

Lemma srgbToLinear_inj (n m : Z) :
  (0 <= n <= 255)%Z -> (0 <= m <= 255)%Z ->
  srgbToLinear (IZR n) = srgbToLinear (IZR m) -> n = m.
Proof.
  intros Hn Hm E.
  rewrite <- (srgb_roundtrip n Hn), <- (srgb_roundtrip m Hm). now rewrite E.
Qed.

(** Distinct 8-bit colours have distinct Lab values. *)
Lemma sampleLab_inj (c1 c2 : RGB) :
  rgb8 c1 -> rgb8 c2 ->
  lab_L (sampleLab c1) = lab_L (sampleLab c2) ->
  lab_a (sampleLab c1) = lab_a (sampleLab c2) ->
  lab_b (sampleLab c1) = lab_b (sampleLab c2) ->
  c1 = c2.
Proof.
  intros (Ar & Ag & Ab) (Br & Bg & Bb).
  destruct c1 as [r1 g1 b1], c2 as [r2 g2 b2]. cbn [rgb_r rgb_g rgb_b] in *.
  unfold sampleLab, xyzToLabD65, rgbToXyzD65. cbv zeta.
  cbn [rgb_r rgb_g rgb_b cie_X cie_Y cie_Z lab_L lab_a lab_b].
  set (R1 := srgbToLinear (IZR r1)). set (G1 := srgbToLinear (IZR g1)).
  set (B1 := srgbToLinear (IZR b1)). set (R2 := srgbToLinear (IZR r2)).
  set (G2 := srgbToLinear (IZR g2)). set (B2 := srgbToLinear (IZR b2)).
  intros HL Ha Hb.
  match type of HL with
  | 116 * fLab ?y1 - 16 = 116 * fLab ?y2 - 16 =>
      assert (Ey : y1 = y2) by (apply fLab_inj; lra)
  end.
  match type of Ha with
  | 500 * (fLab ?x1 - _) = 500 * (fLab ?x2 - _) =>
      assert (Ex : x1 = x2) by (apply fLab_inj; lra)
  end.
  match type of Hb with
  | 200 * (_ - fLab ?z1) = 200 * (_ - fLab ?z2) =>
      assert (Ez : z1 = z2) by (apply fLab_inj; lra)
  end.
  assert (ER : R1 = R2) by lra.
  assert (EG : G1 = G2) by lra.
  assert (EB : B1 = B2) by lra.
  f_equal; apply srgbToLinear_inj; assumption.
Qed.

(** X30. The colour difference the sampler stores with a complement,
    [deltaE76] of the Lab values of two 8-bit colours, is never negative,
    does not depend on the order of the two colours, is 0 exactly when
    they are the same colour, and is at least the difference of their
    lightnesses.  (On arbitrary Lab triples the squares can underflow in
    floating point, so the statement is about the Lab values of 8-bit
    colours, which are never that close.) *)
Theorem deltaE76_distance (c1 c2 : RGB) :
  rgb8 c1 -> rgb8 c2 ->
  0 <= complementDeltaE c1 c2 /\
  complementDeltaE c1 c2 = complementDeltaE c2 c1 /\
  (complementDeltaE c1 c2 = 0 <-> c1 = c2) /\
  Rabs (lab_L (sampleLab c1) - lab_L (sampleLab c2)) <= complementDeltaE c1 c2.
Proof.
  intros H1 H2. unfold complementDeltaE, deltaE76. cbv zeta.
  pose proof (sampleLab_inj c1 c2 H1 H2) as Inj.
  set (l1 := sampleLab c1) in *. set (l2 := sampleLab c2) in *.
  set (dL := lab_L l1 - lab_L l2). set (da := lab_a l1 - lab_a l2).
  set (db := lab_b l1 - lab_b l2).
  assert (Hsum : 0 <= dL * dL + da * da + db * db) by nra.
  split; [apply sqrt_pos|]. split; [|split].
  - f_equal. unfold dL, da, db. ring.
  - split.
    + intros H. apply sqrt_eq_0 in H; [|exact Hsum].
      assert (dL = 0) by nra. assert (da = 0) by nra. assert (db = 0) by nra.
      unfold dL, da, db in *. apply Inj; lra.
    + intros E. unfold dL, da, db, l1, l2. rewrite E.
      replace (_ + _ + _) with 0 by ring. apply sqrt_0.
  - rewrite <- sqrt_Rsqr_abs. apply sqrt_le_1_alt. unfold Rsqr. nra.
Qed.

Lemma deltaE76_distance_witness :
  complementDeltaE (mkRGB 192 63 63) (mkRGB 63 192 192)
  = complementDeltaE (mkRGB 63 192 192) (mkRGB 192 63 63).
Proof.
  apply (proj1 (proj2 (deltaE76_distance (mkRGB 192 63 63) (mkRGB 63 192 192)
                         ltac:(unfold rgb8; cbn; lia) ltac:(unfold rgb8; cbn; lia)))).
Defined.

Local Close Scope R_scope.
